(** * Golden-ratio fractal codec

    A shallow embedding of [GoldenRatioFractalCodec]
    (src/Phi-fractal-codec.js) and the properties of its segmenter,
    similarity matcher, ratio estimator, pattern selector, encoder and
    decoder, of its Fibonacci generator and of its error metrics.

    Numbers.  A JavaScript number is an IEEE 754 binary64 value: samples,
    correlation scores and ratios are Rocq's primitive [float]s, whose
    sum, difference, product, quotient, square root and comparisons are
    the correctly rounded ones the engines compute.  Array lengths,
    offsets, indices, segment sizes and size estimates are integral
    doubles; arithmetic on them is exact below 2^53, and they are carried
    as [Z].  The two worlds meet at [Math_floor] (double to integer) and
    [Z2F] (integer to double).  [Math.pow] is only required by ECMAScript
    to return an implementation-approximated value, so it is a variable of
    the development; so are [Math.log10] and the spread call of
    [Math.max], which throws beyond the engine's argument limit.

    Left out: the two [performance.now()] readings of [encode],
    [goldenSpiral] and [generateFractalTestData] (trigonometry and
    [Math.random]), the string formatting of [analyzeCompression] (the
    decoding and the two metrics it calls are modelled) and the console
    demonstration at the end of the source. *)

From Stdlib Require Import ZArith Floats Lia String Sorted.
From Stdlib Require Uint63.
From stdpp Require Import base option list gmap sorting.

Set Warnings "-inexact-float".
Open Scope Z_scope.

(** ** Numbers *)

(** What an integer-producing double operation can yield. *)
Inductive integral : Type :=
| Int (z : Z)
| NotANumber
| PosInfinity
| NegInfinity.

(** [Math.floor], read off the sign, mantissa and exponent of the double:
    a finite double is [(-1)^s * m * 2^e], and shifting by [e] (to the
    right when [e] is negative) rounds towards minus infinity. *)
Definition Math_floor (x : float) : integral :=
  match Prim2SF x with
  | S754_zero _ => Int 0
  | S754_finite s m e => Int (Z.shiftl (if s then Z.neg m else Z.pos m) e)
  | S754_infinity s => if s then NegInfinity else PosInfinity
  | S754_nan => NotANumber
  end.

(** The double of an integer: exact for magnitudes below 2^53, the nearest
    double below 2^63; no length or size of the codec goes beyond. *)
Definition Z2F (z : Z) : float :=
  if z <? 0 then (- of_uint63 (Uint63.of_Z (- z)))%float
  else of_uint63 (Uint63.of_Z z).

(** The constructor's constants. *)
Definition PHI : float := ((1 + PrimFloat.sqrt 5) / 2)%float.
Definition PHI_INV : float := (1 / PHI)%float.
Definition THRESHOLD : float := 0.01%float.

(** ** Arrays *)

Definition len {A} (l : list A) : Z := Z.of_nat (length l).

(** [Array.prototype.slice(start, end)] on integer arguments: a negative
    bound counts from the end, and both are clamped to the array. *)
Definition slice {A} (l : list A) (start fin : Z) : list A :=
  let k := if start <? 0 then Z.max (len l + start) 0 else Z.min start (len l) in
  let final := if fin <? 0 then Z.max (len l + fin) 0 else Z.min fin (len l) in
  take (Z.to_nat (final - k)) (drop (Z.to_nat k) l).

(** The decoder's output array: [new Array(n)] has [n] unset slots (a
    negative [n] is refused before this is used, see [decode]). *)
Definition new_Array (n : Z) : list (option float) := replicate (Z.to_nat n) None.

(** [a[k] = v] for an index below the length: a negative [k] names a
    property, not a slot, and leaves the slots as they are. *)
Definition array_set (a : list (option float)) (k : Z) (v : float) : list (option float) :=
  if bool_decide (0 <= k) then <[Z.to_nat k := Some v]> a else a.

(** ** Records *)

Module Segment.
Record t := mk { data : list float; position : Z }.
End Segment.

Module Match.
Record t := mk { index : Z; position : Z; correlation : float }.
End Match.

Module Cluster.
Record t := mk {
    masterIndex : Z;
    masterPosition : Z;
    masterData : list float;
    matches : list Match.t
  }.
End Cluster.

Module Pattern.
Record t := mk {
    scale : Z;
    segmentSize : Z;
    patterns : list Cluster.t;
    compressionRatio : float
  }.
End Pattern.

Module Header.
Record t := mk { phi : float; scale : Z; segmentSize : Z; originalLength : Z }.
End Header.

Module Master.
Record t := mk { position : Z; data : list float }.
End Master.

Module Reference.
Record t := mk { masterIndex : Z; position : Z; correlation : float }.
End Reference.

Module Residual.
Record t := mk { position : Z; value : float }.
End Residual.

Module Structure.
Record t := mk {
    header : Header.t;
    masterSegments : list Master.t;
    references : list Reference.t;
    residual : list Residual.t
  }.
End Structure.

(** The object [encode] returns; a field the source leaves out of one of
    its two object literals is [None] there. *)
Module Result.
Record t := mk {
    success : bool;
    message : option string;
    encoded : option Structure.t;
    originalSize : Z;
    compressedSize : Z;
    compressionRatio : float;
    patterns : option Z;
    goldenRatioScale : option Z
  }.
End Result.

(** ** Segmenter *)

(** The loop increment, [Math.floor(segmentSize * this.PHI_INV)]. *)
Definition segment_step (segmentSize : Z) : integral :=
  Math_floor (Z2F segmentSize * PHI_INV)%float.

(** The [for] loop of [segmentData], one iteration per unit of fuel;
    [None] is a loop that has not ended.  The increment is recomputed at
    every iteration, as in the source.  A step that is not a number or is
    plus infinity makes the next test fail; minus infinity keeps it true
    for ever. *)
Fixpoint segmentData_loop (fuel : nat) (data : list float) (segmentSize i : Z)
  : option (list Segment.t) :=
  match fuel with
  | O => None
  | S fuel' =>
    if bool_decide (i < len data - segmentSize + 1) then
      let seg := Segment.mk (slice data i (i + segmentSize)) i in
      match segment_step segmentSize with
      | Int step =>
          segments ← segmentData_loop fuel' data segmentSize (i + step);
          Some (seg :: segments)
      | NotANumber | PosInfinity => Some [seg]
      | NegInfinity => None
      end
    else Some []
  end.

Definition segmentData (fuel : nat) (data : list float) (segmentSize : Z)
  : option (list Segment.t) :=
  segmentData_loop fuel data segmentSize 0.

(** ** Similarity matcher *)

Definition sum_of (arr : list float) : float :=
  foldl (fun a b => (a + b)%float) 0%float arr.

Definition sumSq_of (arr : list float) : float :=
  foldl (fun a b => (a + b * b)%float) 0%float arr.

(** [arr1.reduce((sum, a, i) => sum + a * arr2[i], 0)], called on arrays of
    one length. *)
Definition pSum_of (arr1 arr2 : list float) : float :=
  foldl (fun sum ab => (sum + fst ab * snd ab)%float) 0%float (zip arr1 arr2).

Definition pearson_num (arr1 arr2 : list float) : float :=
  let n := Z2F (len arr1) in
  (pSum_of arr1 arr2 - (sum_of arr1 * sum_of arr2 / n))%float.

Definition pearson_den (arr1 arr2 : list float) : float :=
  let n := Z2F (len arr1) in
  let sum1 := sum_of arr1 in
  let sum2 := sum_of arr2 in
  PrimFloat.sqrt ((sumSq_of arr1 - sum1 * sum1 / n) * (sumSq_of arr2 - sum2 * sum2 / n))%float.

Definition calculateCorrelation (arr1 arr2 : list float) : float :=
  if bool_decide (length arr1 ≠ length arr2) then 0%float
  else
    let num := pearson_num arr1 arr2 in
    let den := pearson_den arr1 arr2 in
    if (den =? 0)%float then 0%float else (num / den)%float.

(** The inner loop of [findSimilarSegments]: [later] holds
    [segments[j], segments[j+1], ...]. *)
Fixpoint collect_matches (master : Segment.t) (j : Z) (later : list Segment.t)
  : list Match.t :=
  match later with
  | [] => []
  | s :: later' =>
    let correlation := calculateCorrelation (Segment.data master) (Segment.data s) in
    if (1 - THRESHOLD <? correlation)%float
    then Match.mk j (Segment.position s) correlation :: collect_matches master (j + 1) later'
    else collect_matches master (j + 1) later'
  end.

(** The outer loop: [segments] holds [segments[i], segments[i+1], ...]. *)
Fixpoint similar_from (i : Z) (segments : list Segment.t) : list Cluster.t :=
  match segments with
  | [] => []
  | s :: later =>
    let matches := collect_matches s (i + 1) later in
    if bool_decide (0 < len matches)
    then Cluster.mk i (Segment.position s) (Segment.data s) matches :: similar_from (i + 1) later
    else similar_from (i + 1) later
  end.

Definition findSimilarSegments (segments : list Segment.t) : list Cluster.t :=
  similar_from 0 segments.

(** ** Ratio estimator *)

(** The [forEach] of [calculateCompressionRatio]: the pair is
    [(totalSaved, totalOriginal)].  The source keeps the sizes and the two
    totals in doubles, which hold integers of magnitude up to 2^53
    exactly; they are carried as the integers they are in that range, and
    converted where the source divides. *)
Definition ratio_step (segmentSize : Z) (acc : Z * Z) (sim : Cluster.t) : Z * Z :=
  let originalSize := segmentSize * (1 + len (Cluster.matches sim)) in
  let compressedSize := segmentSize + len (Cluster.matches sim) * 8 in
  (fst acc + (originalSize - compressedSize), snd acc + originalSize).

Definition calculateCompressionRatio (similarities : list Cluster.t) (segmentSize : Z) : float :=
  let totals := foldl (ratio_step segmentSize) (0, 0) similarities in
  if 0 <? snd totals then (Z2F (fst totals) / Z2F (snd totals))%float else 0%float.

(** ** Encoder *)

(** The state the two nested [forEach] loops of [createEncodedStructure]
    mutate. *)
Record builder := mkBuilder {
  b_masters : list Master.t;
  b_references : list Reference.t;
  b_used : gset Z
}.

Definition add_match (b : builder) (m : Match.t) : builder :=
  mkBuilder (b_masters b)
            (b_references b ++ [Reference.mk (len (b_masters b) - 1) (Match.position m) (Match.correlation m)])
            (b_used b ∪ {[Match.position m]}).

Definition add_cluster (b : builder) (sim : Cluster.t) : builder :=
  let b1 := mkBuilder (b_masters b ++ [Master.mk (Cluster.masterPosition sim) (Cluster.masterData sim)])
                      (b_references b)
                      (b_used b ∪ {[Cluster.masterPosition sim]}) in
  foldl add_match b1 (Cluster.matches sim).

(** The residual loop, over the offsets [0 .. data.length - 1]. *)
Definition residual_of (data : list float) (used : gset Z) : list Residual.t :=
  omap (fun iv => if bool_decide (fst iv ∈ used) then None
                  else Some (Residual.mk (fst iv) (snd iv)))
       (imap (fun i v => (Z.of_nat i, v)) data).

Definition createEncodedStructure (data : list float) (pattern : Pattern.t) : Structure.t :=
  let b := foldl add_cluster (mkBuilder [] [] ∅) (Pattern.patterns pattern) in
  Structure.mk
    (Header.mk PHI (Pattern.scale pattern) (Pattern.segmentSize pattern) (len data))
    (b_masters b) (b_references b) (residual_of data (b_used b)).

Definition calculateEncodedSize (structure : Structure.t) : Z :=
  32 + len (Structure.masterSegments structure) * Header.segmentSize (Structure.header structure) * 4
     + len (Structure.references structure) * 12
     + len (Structure.residual structure) * 8.

(** ** Pattern selector *)

(** [patterns.sort((a, b) => b.compressionRatio - a.compressionRatio)]:
    the sort is stable, and [q] stays in front of [p] when the comparator
    is negative on [(q, p)]. *)
Definition comparator (a b : Pattern.t) : float :=
  (Pattern.compressionRatio b - Pattern.compressionRatio a)%float.

Fixpoint sort_insert (p : Pattern.t) (sorted : list Pattern.t) : list Pattern.t :=
  match sorted with
  | [] => [p]
  | q :: sorted' =>
    if (comparator q p <? 0)%float then q :: sort_insert p sorted' else p :: q :: sorted'
  end.

Definition sort_patterns (l : list Pattern.t) : list Pattern.t :=
  foldr sort_insert [] l.

Section Codec.

(** [Math.pow] of the host engine. *)
Variable Math_pow : float -> float -> float.

(** The scale loop of [detectFractalPatterns], before the sort: [n] scales
    are left, the next one is [scale].  A segment size that is not a number
    or is plus infinity is not below 4 and yields no segment (the
    segmenter's test is false at once); minus infinity is below 4. *)
Fixpoint detect_loop (fuel : nat) (data : list float) (scale : Z) (n : nat)
  : option (list Pattern.t) :=
  match n with
  | O => Some []
  | S n' =>
    match Math_floor (Z2F (len data) * Math_pow PHI_INV (Z2F scale))%float with
    | Int segmentSize =>
      if bool_decide (segmentSize < 4) then Some []
      else
        segments ← segmentData fuel data segmentSize;
        let similarities := findSimilarSegments segments in
        patterns ← detect_loop fuel data (scale + 1) n';
        Some (if bool_decide (0 < len similarities)
              then Pattern.mk scale segmentSize similarities
                     (calculateCompressionRatio similarities segmentSize) :: patterns
              else patterns)
    | NotANumber | PosInfinity => detect_loop fuel data (scale + 1) n'
    | NegInfinity => Some []
    end
  end.

Definition detectFractalPatterns (fuel : nat) (data : list float) : option (list Pattern.t) :=
  patterns ← detect_loop fuel data 1 8;
  Some (sort_patterns patterns).

Definition encode (fuel : nat) (data : list float) : option Result.t :=
  patterns ← detectFractalPatterns fuel data;
  match patterns with
  | [] =>
    Some (Result.mk false (Some "No suitable fractal patterns found"%string) None
                    (len data) (len data) 0%float None None)
  | bestPattern :: _ =>
    let encoded := createEncodedStructure data bestPattern in
    Some (Result.mk true None (Some encoded)
                    (len data) (calculateEncodedSize encoded)
                    (Pattern.compressionRatio bestPattern)
                    (Some (len patterns)) (Some (Pattern.scale bestPattern)))
  end.

End Codec.

(** ** Decoder *)

(** One guarded store of the decoder:
    [if (k < reconstructed.length) reconstructed[k] = v]. *)
Definition store (reconstructed : list (option float)) (w : Z * float) : list (option float) :=
  if bool_decide (fst w < len reconstructed)
  then array_set reconstructed (fst w) (snd w)
  else reconstructed.

(** The stores of [for (i = 0; i < data.length; i++)] at [position + i]. *)
Definition segment_writes (position : Z) (data : list float) : list (Z * float) :=
  imap (fun i v => (position + Z.of_nat i, v)) data.

Definition place (position : Z) (data : list float) (reconstructed : list (option float))
  : list (option float) :=
  foldl store reconstructed (segment_writes position data).

(** The body of [masterSegments.forEach((master, masterIndex) => ...)]:
    the master, then the references that name it. *)
Definition decode_master (references : list Reference.t)
    (reconstructed : list (option float)) (im : Z * Master.t) : list (option float) :=
  let master := snd im in
  let r1 := place (Master.position master) (Master.data master) reconstructed in
  foldl (fun r ref => place (Reference.position ref) (Master.data master) r) r1
        (filter (fun ref => Reference.masterIndex ref = fst im) references).

Definition decode_residual (reconstructed : list (option float)) (res : Residual.t)
  : list (option float) :=
  store reconstructed (Residual.position res, Residual.value res).

Definition decode_structure (structure : Structure.t) : list (option float) :=
  let reconstructed := new_Array (Header.originalLength (Structure.header structure)) in
  let r1 := foldl (decode_master (Structure.references structure)) reconstructed
                  (imap (fun i m => (Z.of_nat i, m)) (Structure.masterSegments structure)) in
  foldl decode_residual r1 (Structure.residual structure).

(** [decode]; [None] is a thrown error: "Cannot decode failed encoding" on
    a failure result, the engine's own on a result without an [encoded]
    field or with a negative declared length, which [new Array] refuses.
    [new Array] also refuses a length from 2^32 on, which no array has; the
    lengths here are those of arrays, and the properties of [decode] on a
    structure of any origin take the declared length below 2^32. *)
Definition decode (encoded : Result.t) : option (list (option float)) :=
  if negb (Result.success encoded) then None
  else
    structure ← Result.encoded encoded;
    if bool_decide (Header.originalLength (Structure.header structure) < 0) then None
    else Some (decode_structure structure).

(** ** The order of the decoder's stores *)

(** The value of the last store to offset [o] in a list of stores. *)
Fixpoint last_write (o : Z) (ws : list (Z * float)) : option float :=
  match ws with
  | [] => None
  | w :: ws' =>
    match last_write o ws' with
    | Some v => Some v
    | None => if bool_decide (fst w = o) then Some (snd w) else None
    end
  end.

(** The stores of one [forEach] round of [decode]: a master and the
    references that carry its index. *)
Definition master_round (references : list Reference.t) (im : Z * Master.t) : list (Z * float) :=
  segment_writes (Master.position (snd im)) (Master.data (snd im))
  ++ mjoin (map (fun ref => segment_writes (Reference.position ref) (Master.data (snd im)))
                (filter (fun ref => Reference.masterIndex ref = fst im) references)).

Definition residual_writes (residual : list Residual.t) : list (Z * float) :=
  map (fun res => (Residual.position res, Residual.value res)) residual.

(** All stores of [decode], in the order the source performs them. *)
Definition decode_order (structure : Structure.t) : list (Z * float) :=
  mjoin (map (master_round (Structure.references structure))
             (imap (fun i m => (Z.of_nat i, m)) (Structure.masterSegments structure)))
  ++ residual_writes (Structure.residual structure).

(** The order the specification words: every master, then every
    reference (each copying the master its index names), then every
    residual. *)
Definition reference_writes (masters : list Master.t) (ref : Reference.t) : list (Z * float) :=
  if bool_decide (0 <= Reference.masterIndex ref) then
    match masters !! Z.to_nat (Reference.masterIndex ref) with
    | Some master => segment_writes (Reference.position ref) (Master.data master)
    | None => []
    end
  else [].

Definition three_phase_order (structure : Structure.t) : list (Z * float) :=
  mjoin (map (fun m => segment_writes (Master.position m) (Master.data m))
             (Structure.masterSegments structure))
  ++ mjoin (map (reference_writes (Structure.masterSegments structure))
                (Structure.references structure))
  ++ residual_writes (Structure.residual structure).

(** ** Coverage *)

(** Offset [o] is reachable by a record of the structure. *)
Definition in_master (structure : Structure.t) (o : Z) : Prop :=
  ∃ m, m ∈ Structure.masterSegments structure
       ∧ Master.position m <= o < Master.position m + len (Master.data m).

Definition in_reference (structure : Structure.t) (o : Z) : Prop :=
  ∃ ref m, ref ∈ Structure.references structure
           ∧ 0 <= Reference.masterIndex ref
           ∧ Structure.masterSegments structure !! Z.to_nat (Reference.masterIndex ref) = Some m
           ∧ Reference.position ref <= o < Reference.position ref + len (Master.data m).

Definition in_residual (structure : Structure.t) (o : Z) : Prop :=
  ∃ res, res ∈ Structure.residual structure ∧ Residual.position res = o.

Definition reachable (structure : Structure.t) (o : Z) : Prop :=
  in_master structure o ∨ in_reference structure o ∨ in_residual structure o.

(** ** The ratio the specification words *)

(** Per cluster [S * (1 + matchCount)] original units, and a stored size
    with [cost] units per reference. *)
Definition totalOriginal (similarities : list Cluster.t) (S : Z) : Z :=
  foldr Z.add 0 (map (fun sim => S * (1 + len (Cluster.matches sim))) similarities).

Definition totalSaved (cost : Z) (similarities : list Cluster.t) (S : Z) : Z :=
  foldr Z.add 0
    (map (fun sim => S * (1 + len (Cluster.matches sim)) - (S + len (Cluster.matches sim) * cost))
         similarities).

(** The stored sizes [S + matchCount * cost], summed. *)
Definition totalCompressed (cost : Z) (similarities : list Cluster.t) (S : Z) : Z :=
  foldr Z.add 0 (map (fun sim => S + len (Cluster.matches sim) * cost) similarities).

Definition ratio_with_cost (cost : Z) (similarities : list Cluster.t) (S : Z) : float :=
  if 0 <? totalOriginal similarities S
  then (Z2F (totalSaved cost similarities S) / Z2F (totalOriginal similarities S))%float
  else 0%float.

(** ** What the encoder's loops maintain *)

(** The used set holds exactly the recorded start offsets, and every
    reference names a master already stored. *)
Definition builder_ok (b : builder) : Prop :=
  (∀ p, p ∈ b_used b ↔
        (∃ m, m ∈ b_masters b ∧ Master.position m = p)
        ∨ (∃ ref, ref ∈ b_references b ∧ Reference.position ref = p))
  ∧ (∀ ref, ref ∈ b_references b -> 0 <= Reference.masterIndex ref < len (b_masters b)).

Definition master_of (sim : Cluster.t) : Master.t :=
  Master.mk (Cluster.masterPosition sim) (Cluster.masterData sim).

(** ** What the pattern selector keeps *)

(** A pattern of the ranked list: its scale passed the size test, and its
    clusters and ratio come from the segmenter's output at that size. *)
Definition selected (fuel : nat) (data : list float) (p : Pattern.t) : Prop :=
  4 <= Pattern.segmentSize p
  ∧ ∃ segments,
      segmentData fuel data (Pattern.segmentSize p) = Some segments
      ∧ Pattern.patterns p = findSimilarSegments segments
      ∧ 0 < len (Pattern.patterns p)
      ∧ Pattern.compressionRatio p
        = calculateCompressionRatio (Pattern.patterns p) (Pattern.segmentSize p).

(** ** Signs of doubles *)

(** A double that is a zero, an infinity or a finite number of sign [s]
    ([true] is minus). *)
Definition signed (s : bool) (x : spec_float) : Prop :=
  match x with
  | S754_zero s' | S754_infinity s' | S754_finite s' _ _ => s' = s
  | S754_nan => False
  end.

(** ** Running the model *)

(** One admissible [Math.pow] for base [x] and a small non-negative
    integral exponent: repeated multiplication. *)
Fixpoint pow_nat (x : float) (n : nat) : float :=
  match n with
  | O => 1%float
  | S n' => (x * pow_nat x n')%float
  end.

Definition pow_repeated (x y : float) : float :=
  match Math_floor y with
  | Int z => pow_nat x (Z.to_nat z)
  | _ => nan
  end.

(** A cluster with [n] matches, for running the estimator. *)
Definition cluster_with (n : nat) : Cluster.t :=
  Cluster.mk 0 0 [] (replicate n (Match.mk 1 1 1%float)).

(** The 8-sample pattern of the source's test data, twice. *)
Definition fibonacci_twice : list float :=
  [1; 1; 2; 3; 5; 8; 13; 21; 1; 1; 2; 3; 5; 8; 13; 21]%float.

(** What [encode] returns on it: scale 2, segment size 6, the window at
    offset 0 as master and the window at offset 9 as its match. *)
Definition fibonacci_structure : Structure.t :=
  Structure.mk
    (Header.mk PHI 2 6 16)
    [Master.mk 0 [1; 1; 2; 3; 5; 8]%float]
    [Reference.mk 0 9 0.99717646495273793%float]
    [Residual.mk 1 1%float; Residual.mk 2 2%float; Residual.mk 3 3%float;
     Residual.mk 4 5%float; Residual.mk 5 8%float; Residual.mk 6 13%float;
     Residual.mk 7 21%float; Residual.mk 8 1%float; Residual.mk 10 2%float;
     Residual.mk 11 3%float; Residual.mk 12 5%float; Residual.mk 13 8%float;
     Residual.mk 14 13%float; Residual.mk 15 21%float].

Definition fibonacci_result : Result.t :=
  Result.mk true None (Some fibonacci_structure) 16 180 (-0.16666666666666666)%float
            (Some 1) (Some 2).

(** A ramp of eight samples: any two of its windows correlate fully. *)
Definition ramp8 : list float := [0; 1; 2; 3; 4; 5; 6; 7]%float.

(** What [encode] returns on it: scale 1, segment size 4, windows at
    offsets 0, 2 and 4; the first two are masters. *)
Definition ramp8_structure : Structure.t :=
  Structure.mk
    (Header.mk PHI 1 4 8)
    [Master.mk 0 [0; 1; 2; 3]%float; Master.mk 2 [2; 3; 4; 5]%float]
    [Reference.mk 0 2 1%float; Reference.mk 0 4 1%float; Reference.mk 1 4 1%float]
    [Residual.mk 1 1%float; Residual.mk 3 3%float; Residual.mk 5 5%float;
     Residual.mk 6 6%float; Residual.mk 7 7%float].

Definition ramp8_result : Result.t :=
  Result.mk true None (Some ramp8_structure) 8 140 (-0.59999999999999998)%float
            (Some 1) (Some 1).

(** Eight samples with no two correlated windows. *)
Definition uncorrelated8 : list float := [3; 1; 4; 1; 5; 9; 2; 6]%float.

(** Six samples whose two windows of four correlate. *)
Definition steps6 : list float := [0; 0; 0.1; 0.1; 0.2; 0.2]%float.

(** ** What the encoder is given and what it builds *)

(** A cluster over [data] at segment size [S]: the master is the window of
    [data] at its offset, and every match is a later window that fits and
    whose recorded score is the above-threshold correlation with the
    master. *)
Definition cluster_ok (data : list float) (S : Z) (c : Cluster.t) : Prop :=
  0 <= Cluster.masterPosition c
  ∧ Cluster.masterPosition c + S <= len data
  ∧ Cluster.masterData c
    = slice data (Cluster.masterPosition c) (Cluster.masterPosition c + S)
  ∧ ∀ m, m ∈ Cluster.matches c ->
      Cluster.masterPosition c < Match.position m
      ∧ Match.position m + S <= len data
      ∧ Match.correlation m
        = calculateCorrelation (Cluster.masterData c)
            (slice data (Match.position m) (Match.position m + S))
      ∧ (0.99 <? Match.correlation m)%float = true.

(** The reference records of the cluster stored as master number [k]. *)
Definition references_of (k : Z) (sim : Cluster.t) : list Reference.t :=
  map (fun m => Reference.mk k (Match.position m) (Match.correlation m)) (Cluster.matches sim).

(** The start offsets the encoder marks as used. *)
Definition start_offsets (sims : list Cluster.t) : list Z :=
  mjoin (map (fun sim => Cluster.masterPosition sim :: map Match.position (Cluster.matches sim)) sims).

(** ** Fibonacci terms *)

(** [a[k]] read as a number: a slot that does not exist is [undefined],
    which an addition turns into NaN. *)
Definition js_get (a : list float) (k : Z) : float :=
  if bool_decide (0 <= k) then default nan (a !! Z.to_nat k) else nan.

(** [a[i] = v] on an array without holes, for an index [i] that is at
    most the length: at the length the store appends.  An index from
    2^32 - 1 on is no array index: the store makes a property and leaves
    the elements and the length as they are. *)
Definition js_put (a : list float) (i : Z) (v : float) : list float :=
  if bool_decide (i < len a) then <[Z.to_nat i := v]> a
  else if bool_decide (i < 2 ^ 32 - 1) then a ++ [v]
  else a.

(** The [for] loop of [fibonacci], [count] iterations from index [i]. *)
Fixpoint fibonacci_loop (count : nat) (i : Z) (fib : list float) : list float :=
  match count with
  | O => fib
  | S count' =>
    fibonacci_loop count' (i + 1) (js_put fib i (js_get fib (i - 1) + js_get fib (i - 2))%float)
  end.

(** [fibonacci(n)] on an integer [n]; the loop runs for [i = 2 .. n - 1].
    The counter is a double, which counts exactly up to 2^53. *)
Definition fibonacci (n : Z) : list float :=
  if bool_decide (n <= 0) then []
  else if bool_decide (n = 1) then [1%float]
  else fibonacci_loop (Z.to_nat (n - 2)) 2 [1%float; 1%float].



(** ** Error metrics *)

(** [decoded[i] || 0]: an unset slot, a zero and NaN are falsy. *)
Definition or_zero (x : option float) : float :=
  match x with
  | None => 0%float
  | Some v => if (v =? 0)%float || is_nan v then 0%float else v
  end.

(** One iteration of the loop of [calculateMSE]. *)
Definition mse_step (sum : float) (od : float * option float) : float :=
  let diff := (fst od - or_zero (snd od))%float in
  (sum + diff * diff)%float.

(** [calculateMSE(original, decoded)]; [decoded] is an array as [decode]
    returns it, with slots that may be unset. *)
Definition calculateMSE (original : list float) (decoded : list (option float)) : float :=
  if bool_decide (len original ≠ len decoded) then infinity
  else (foldl mse_step 0%float (zip original decoded) / Z2F (len original))%float.

Section Metrics.

(** [Math.max(...original)] and [Math.log10] of the host engine; the
    spread call throws when the array is longer than the engine's argument
    limit, which is [None] here. *)
Variable Math_max : list float -> option float.
Variable Math_log10 : float -> float.

(** [calculatePSNR(original, decoded)]; [None] is the exception of the
    spread call. *)
Definition calculatePSNR (original : list float) (decoded : list (option float))
  : option float :=
  let mse := calculateMSE original decoded in
  if (mse =? 0)%float then Some infinity
  else
    maxValue ← Math_max original;
    Some (20 * Math_log10 (maxValue / PrimFloat.sqrt mse))%float.

End Metrics.

(** A double that is a number: a zero or a finite non-zero double. *)
Definition is_number (x : float) : Prop :=
  match Prim2SF x with
  | S754_zero _ | S754_finite _ _ _ => True
  | S754_infinity _ | S754_nan => False
  end.

(** ** The order of doubles *)

(** Where a double that is not NaN stands in the IEEE comparison: its
    class and sign first, then exponent and mantissa. *)
Definition rank (x : spec_float) : Z * Z * Z :=
  match x with
  | S754_nan => (0, 0, 0)
  | S754_zero _ => (0, 0, 0)
  | S754_infinity s => (if s then -2 else 2, 0, 0)
  | S754_finite s m e => if s then (-1, - e, - Z.pos m) else (1, e, Z.pos m)
  end.

Definition lex_le (a b : Z * Z * Z) : Prop :=
  a.1.1 < b.1.1
  ∨ (a.1.1 = b.1.1 ∧ (a.1.2 < b.1.2 ∨ (a.1.2 = b.1.2 ∧ a.2 <= b.2))).

Definition lex_lt (a b : Z * Z * Z) : Prop :=
  a.1.1 < b.1.1
  ∨ (a.1.1 = b.1.1 ∧ (a.1.2 < b.1.2 ∨ (a.1.2 = b.1.2 ∧ a.2 < b.2))).

(** ** More examples *)

(** The segmenter's output on the ramp at segment size 4. *)
Definition ramp8_segments : list Segment.t :=
  [Segment.mk [0; 1; 2; 3]%float 0; Segment.mk [2; 3; 4; 5]%float 2;
   Segment.mk [4; 5; 6; 7]%float 4].

(** Eight samples of period 2: every window of four repeats the first. *)
Definition square8 : list float := [1; 2; 1; 2; 1; 2; 1; 2]%float.

Definition square8_structure : Structure.t :=
  Structure.mk
    (Header.mk PHI 1 4 8)
    [Master.mk 0 [1; 2; 1; 2]%float; Master.mk 2 [1; 2; 1; 2]%float]
    [Reference.mk 0 2 1%float; Reference.mk 0 4 1%float; Reference.mk 1 4 1%float]
    [Residual.mk 1 2%float; Residual.mk 3 2%float; Residual.mk 5 2%float;
     Residual.mk 6 1%float; Residual.mk 7 2%float].

Definition square8_result : Result.t :=
  Result.mk true None (Some square8_structure) 8 140 (-0.59999999999999998)%float
            (Some 1) (Some 1).

(** A ramp of 52 samples: patterns are found at five scales, and the
    second scale has the highest estimate. *)
Definition ramp52 : list float := map Z2F (seqZ 0 52).

(** What the scale loop collects on it, in scale order, and what [encode]
    returns. *)
Definition ramp52_found : list Pattern.t :=
  Eval vm_compute in default [] (detect_loop pow_repeated 53 ramp52 1 8).

Definition ramp52_result : Result.t :=
  Eval vm_compute in
    default (Result.mk false None None 0 0 0%float None None) (encode pow_repeated 53 ramp52).

(** * Properties *)

(** ** Arrays and stores *)

Lemma len_nonneg {A} (l : list A) : 0 <= len l.
Proof. unfold len. lia. Qed.

Lemma store_length r w : length (store r w) = length r.
Proof.
  unfold store, array_set. repeat case_bool_decide; try done.
  by rewrite length_insert.
Qed.

Lemma foldl_store_length ws r : length (foldl store r ws) = length r.
Proof.
  revert r. induction ws as [|w ws IH]; intros r; simpl; [done|].
  by rewrite IH, store_length.
Qed.

Lemma store_lookup_eq r (j : nat) v :
  (j < length r)%nat -> store r (Z.of_nat j, v) !! j = Some (Some v).
Proof.
  intros Hj. unfold store, array_set, len. simpl.
  rewrite bool_decide_eq_true_2 by lia.
  rewrite bool_decide_eq_true_2 by lia.
  rewrite Nat2Z.id. by apply list_lookup_insert_eq.
Qed.

Lemma store_lookup_ne r (j : nat) w :
  fst w ≠ Z.of_nat j -> store r w !! j = r !! j.
Proof.
  intros Hne. unfold store, array_set.
  repeat case_bool_decide; try done.
  apply list_lookup_insert_ne. lia.
Qed.

(** Replaying a list of stores: the last store to a slot decides it. *)
Lemma foldl_store_lookup ws r (j : nat) x :
  r !! j = Some x ->
  foldl store r ws !! j = Some (from_option Some x (last_write (Z.of_nat j) ws)).
Proof.
  revert r x. induction ws as [|w ws IH]; intros r x Hx; simpl; [done|].
  destruct (decide (fst w = Z.of_nat j)) as [Heq|Hne].
  - destruct w as [k v]. simpl in Heq. subst k.
    rewrite (IH _ (Some v)).
    + rewrite bool_decide_eq_true_2 by done. simpl.
      by destruct (last_write _ ws).
    + apply store_lookup_eq. by eapply lookup_lt_Some.
  - rewrite (IH _ x).
    + rewrite bool_decide_eq_false_2 by done.
      by destruct (last_write _ ws).
    + by rewrite store_lookup_ne.
Qed.

Lemma last_write_app o ws1 ws2 :
  last_write o (ws1 ++ ws2)
  = match last_write o ws2 with Some v => Some v | None => last_write o ws1 end.
Proof.
  induction ws1 as [|w ws1 IH]; simpl.
  - by destruct (last_write o ws2).
  - rewrite IH. by destruct (last_write o ws2).
Qed.

Lemma last_write_Some o ws v :
  last_write o ws = Some v -> (o, v) ∈ ws.
Proof.
  induction ws as [|[k w] ws IH]; simpl; [done|].
  destruct (last_write o ws) eqn:E.
  - intros [= ->]. right. by apply IH.
  - case_bool_decide as Hk; [|done]. simpl in Hk. intros [= ->]. subst k. left.
Qed.

Lemma last_write_is_Some o ws v :
  (o, v) ∈ ws -> is_Some (last_write o ws).
Proof.
  induction ws as [|w ws IH]; intros Hin; [by apply elem_of_nil in Hin|].
  simpl. apply elem_of_cons in Hin as [<-|Hin].
  - destruct (last_write o ws); [by eexists|].
    simpl. rewrite bool_decide_eq_true_2 by done. by eexists.
  - destruct (IH Hin) as [v' ->]. by eexists.
Qed.

(** ** The decoder replays its stores in [decode_order] *)

Lemma foldl_agree {A B} (f g : A -> B -> A) (l : list B) (a : A) :
  (forall x y, f x y = g x y) -> foldl f a l = foldl g a l.
Proof.
  intros Hfg. revert a. induction l as [|b l IH]; intros a; simpl; [done|].
  by rewrite Hfg, IH.
Qed.

Lemma foldl_store_join {A} (f : A -> list (Z * float)) (l : list A) r :
  foldl (fun r a => foldl store r (f a)) r l = foldl store r (mjoin (map f l)).
Proof.
  revert r. induction l as [|a l IH]; intros r; simpl; [done|].
  by rewrite foldl_app, IH.
Qed.

Lemma decode_master_replay references r im :
  decode_master references r im = foldl store r (master_round references im).
Proof.
  unfold decode_master, master_round, place.
  rewrite foldl_app.
  apply (foldl_store_join
           (fun ref => segment_writes (Reference.position ref) (Master.data (snd im)))).
Qed.

Lemma decode_residual_replay residual r :
  foldl decode_residual r residual = foldl store r (residual_writes residual).
Proof.
  revert r. induction residual as [|res l IH]; intros r; simpl; [done|].
  by rewrite IH.
Qed.

Lemma decode_structure_replay structure :
  decode_structure structure
  = foldl store (new_Array (Header.originalLength (Structure.header structure)))
          (decode_order structure).
Proof.
  unfold decode_structure, decode_order.
  rewrite foldl_app, decode_residual_replay. f_equal.
  rewrite <- foldl_store_join.
  apply foldl_agree. intros r im. apply decode_master_replay.
Qed.

Lemma decode_structure_length structure :
  length (decode_structure structure)
  = Z.to_nat (Header.originalLength (Structure.header structure)).
Proof.
  rewrite decode_structure_replay, foldl_store_length.
  unfold new_Array. apply length_replicate.
Qed.

Lemma decode_structure_lookup structure o :
  0 <= o < Header.originalLength (Structure.header structure) ->
  decode_structure structure !! Z.to_nat o = Some (last_write o (decode_order structure)).
Proof.
  intros Ho. rewrite decode_structure_replay.
  rewrite (foldl_store_lookup _ _ _ None).
  - rewrite Z2Nat.id by lia. by destruct (last_write o _).
  - unfold new_Array. apply lookup_replicate_2. lia.
Qed.

(** ** Decoder: the order of stores *)

(** C4, as the code has it.  [decode] of a successful result performs its
    stores in the order of [decode_order]: for each master segment in
    master-list order, that master's values and then, in reference-list
    order, the copies for the references that carry its index; after all
    masters, the residual values.  For a declared length that is an array
    length (at least 0 and below 2^32) the array has that length, and each
    slot holds the value of the last store to it in this order (it is
    unset when no store reaches it). *)
Theorem decode_last_store_wins r structure :
  Result.success r = true ->
  Result.encoded r = Some structure ->
  0 <= Header.originalLength (Structure.header structure) < 2 ^ 32 ->
  ∃ out,
    decode r = Some out
    ∧ len out = Header.originalLength (Structure.header structure)
    ∧ ∀ o, 0 <= o < Header.originalLength (Structure.header structure) ->
           out !! Z.to_nat o = Some (last_write o (decode_order structure)).
Proof.
  intros Hok Henc HL. exists (decode_structure structure). split_and!.
  - unfold decode. rewrite Hok, Henc. simpl. by rewrite bool_decide_eq_false_2 by lia.
  - unfold len. rewrite decode_structure_length. lia.
  - apply decode_structure_lookup.
Qed.

(** C4 fails as stated: in the structure [encode] builds for the ramp
    0 .. 7, offset 2 is stored to by the first master's reference at offset
    2 (value 0) and then by the second master (value 2).  [decode] leaves 2
    there; with every master before every reference the reference would be
    last and leave 0. *)
Lemma decode_is_not_three_phase :
  encode pow_repeated 9 ramp8 = Some ramp8_result
  ∧ Result.encoded ramp8_result = Some ramp8_structure
  ∧ (decode ramp8_result ≫= (.!! 2%nat)) = Some (Some 2%float)
  ∧ last_write 2 (decode_order ramp8_structure) = Some 2%float
  ∧ last_write 2 (three_phase_order ramp8_structure) = Some 0%float.
Proof. split_and!; vm_compute; reflexivity. Qed.

(** Witness of C4 on the ramp. *)
Lemma decode_last_store_wins_witness :
  ∃ out,
    decode ramp8_result = Some out
    ∧ len out = Header.originalLength (Structure.header ramp8_structure)
    ∧ ∀ o, 0 <= o < Header.originalLength (Structure.header ramp8_structure) ->
           out !! Z.to_nat o = Some (last_write o (decode_order ramp8_structure)).
Proof.
  apply (decode_last_store_wins ramp8_result ramp8_structure);
    [reflexivity|reflexivity|simpl; lia].
Defined.

(** ** The encoder's loops *)

Lemma len_app {A} (l k : list A) : len (l ++ k) = len l + len k.
Proof. unfold len. rewrite length_app. lia. Qed.

Lemma add_match_masters b m : b_masters (add_match b m) = b_masters b.
Proof. done. Qed.

Lemma foldl_add_match_masters ms b :
  b_masters (foldl add_match b ms) = b_masters b.
Proof.
  revert b. induction ms as [|m ms IH]; intros b; simpl; [done|].
  by rewrite IH.
Qed.

Lemma add_cluster_masters b sim :
  b_masters (add_cluster b sim) = b_masters b ++ [master_of sim].
Proof. unfold add_cluster. by rewrite foldl_add_match_masters. Qed.

Lemma foldl_add_cluster_masters sims b :
  b_masters (foldl add_cluster b sims) = b_masters b ++ map master_of sims.
Proof.
  revert b. induction sims as [|sim sims IH]; intros b; simpl.
  - by rewrite app_nil_r.
  - rewrite IH, add_cluster_masters. by rewrite <- app_assoc.
Qed.

Lemma add_match_ok b m :
  builder_ok b -> 0 < len (b_masters b) -> builder_ok (add_match b m).
Proof.
  intros [Hused Href] Hne. split.
  - intros p. simpl. rewrite elem_of_union, elem_of_singleton, Hused. split.
    + intros [[Hm|(ref & Hin & Hp)]| ->].
      * by left.
      * right. exists ref. split; [|done]. apply elem_of_app. by left.
      * right. eexists. split; [apply elem_of_app; right; apply list_elem_of_singleton; done|done].
    + intros [Hm|(ref & Hin & Hp)].
      * left. by left.
      * apply elem_of_app in Hin as [Hin|Hin].
        -- left. right. by exists ref.
        -- apply list_elem_of_singleton in Hin. subst ref. by right.
  - intros ref Hin. simpl in *. apply elem_of_app in Hin as [Hin|Hin].
    + by apply Href.
    + apply list_elem_of_singleton in Hin. subst ref. simpl. lia.
Qed.

Lemma foldl_add_match_ok ms b :
  builder_ok b -> 0 < len (b_masters b) -> builder_ok (foldl add_match b ms).
Proof.
  revert b. induction ms as [|m ms IH]; intros b Hok Hne; simpl; [done|].
  apply IH; [by apply add_match_ok|by rewrite add_match_masters].
Qed.

Lemma add_cluster_ok b sim : builder_ok b -> builder_ok (add_cluster b sim).
Proof.
  intros [Hused Href]. unfold add_cluster. apply foldl_add_match_ok.
  - split.
    + intros p. simpl. rewrite elem_of_union, elem_of_singleton, Hused. split.
      * intros [[(m & Hin & Hp)|Hr]| ->].
        -- left. exists m. split; [|done]. apply elem_of_app. by left.
        -- by right.
        -- left. eexists. split; [apply elem_of_app; right; apply list_elem_of_singleton; done|done].
      * intros [(m & Hin & Hp)|Hr].
        -- apply elem_of_app in Hin as [Hin|Hin].
           ++ left. left. by exists m.
           ++ apply list_elem_of_singleton in Hin. subst m. by right.
        -- left. by right.
    + intros ref Hin. simpl in *. rewrite len_app. specialize (Href ref Hin).
      unfold len at 2. simpl. lia.
  - simpl. rewrite len_app. pose proof (len_nonneg (b_masters b)).
    unfold len at 2. simpl. lia.
Qed.

Lemma foldl_add_cluster_ok sims b :
  builder_ok b -> builder_ok (foldl add_cluster b sims).
Proof.
  revert b. induction sims as [|sim sims IH]; intros b Hok; simpl; [done|].
  apply IH. by apply add_cluster_ok.
Qed.

Lemma builder_empty_ok : builder_ok (mkBuilder [] [] ∅).
Proof.
  split.
  - intros p. simpl. split.
    + intros Hp. by apply not_elem_of_empty in Hp.
    + intros [(m & Hin & _)|(ref & Hin & _)]; by apply elem_of_nil in Hin.
  - intros ref Hin. by apply elem_of_nil in Hin.
Qed.

(** The residual list holds exactly the offsets outside the used set, each
    with the sample at that offset. *)
Lemma elem_of_residual_of data used res :
  res ∈ residual_of data used ↔
  0 <= Residual.position res
  ∧ data !! Z.to_nat (Residual.position res) = Some (Residual.value res)
  ∧ Residual.position res ∉ used.
Proof.
  unfold residual_of. rewrite list_elem_of_omap. split.
  - intros ([k v] & Hin & Hres). simpl in Hres.
    case_bool_decide as Hu; [done|]. injection Hres as <-. simpl.
    apply list_elem_of_lookup in Hin as [i Hi].
    rewrite list_lookup_imap in Hi.
    destruct (data !! i) as [x|] eqn:Ex; [|done]. simpl in Hi.
    injection Hi as <- <-. rewrite Nat2Z.id. split; [lia|done].
  - intros (Hpos & Hv & Hu). exists (Residual.position res, Residual.value res). split.
    + apply list_elem_of_lookup. exists (Z.to_nat (Residual.position res)).
      rewrite list_lookup_imap, Hv. simpl. by rewrite Z2Nat.id.
    + simpl. rewrite bool_decide_eq_false_2 by done. by destruct res.
Qed.

(** ** Signs through rounding and division *)

Lemma shr_1_nonneg mrs : 0 <= shr_m mrs -> 0 <= shr_m (shr_1 mrs).
Proof.
  destruct mrs as [m r s]. simpl. destruct m as [|p|p]; simpl; try lia.
  destruct p; simpl; lia.
Qed.

Lemma iter_pos_shr_1_nonneg p mrs :
  0 <= shr_m mrs -> 0 <= shr_m (SpecFloat.iter_pos shr_1 p mrs).
Proof.
  revert mrs. induction p as [p IH|p IH|]; intros mrs H; simpl.
  - apply IH, IH, shr_1_nonneg, H.
  - apply IH, IH, H.
  - apply shr_1_nonneg, H.
Qed.

Lemma shr_fexp_nonneg m e l :
  0 <= m -> 0 <= shr_m (fst (shr_fexp prec emax m e l)).
Proof.
  intros H. unfold shr_fexp, shr.
  assert (H0 : 0 <= shr_m (shr_record_of_loc m l)).
  { destruct l as [|[]]; simpl; exact H. }
  destruct (fexp prec emax (Zdigits2 m + e) - e); simpl; try exact H0.
  apply iter_pos_shr_1_nonneg, H0.
Qed.

Lemma round_nearest_even_nonneg m l : 0 <= m -> 0 <= round_nearest_even m l.
Proof.
  intros H. unfold round_nearest_even. destruct l as [|[]]; try lia.
  destruct (Z.even m); lia.
Qed.

(** Rounding a non-negative mantissa keeps the sign it is given. *)
Lemma binary_round_aux_signed s m e l :
  0 <= m -> signed s (binary_round_aux prec emax s m e l).
Proof.
  intros H. unfold binary_round_aux.
  pose proof (shr_fexp_nonneg m e l H) as H1.
  destruct (shr_fexp prec emax m e l) as [mrs' e'] eqn:E1. simpl in H1.
  pose proof (shr_fexp_nonneg (round_nearest_even (shr_m mrs') (loc_of_shr_record mrs'))
                e' loc_Exact (round_nearest_even_nonneg _ _ H1)) as H2.
  destruct (shr_fexp prec emax (round_nearest_even _ _) e' loc_Exact) as [mrs'' e''] eqn:E2.
  simpl in H2. destruct (shr_m mrs'') as [|p|p]; simpl; try reflexivity; try lia.
  destruct (_ <=? _); reflexivity.
Qed.

Lemma binary_normalize_signed z :
  0 <= z -> signed false (binary_normalize prec emax z 0 false).
Proof.
  intros H. destruct z as [|p|p]; simpl; try reflexivity; try lia.
  unfold binary_round. destruct (shl_align _ _ _) as [mz ez].
  apply binary_round_aux_signed. lia.
Qed.

Lemma Z2F_signed z : 0 <= z -> signed false (Prim2SF (Z2F z)).
Proof.
  intros H. unfold Z2F. rewrite (proj2 (Z.ltb_ge z 0)) by lia.
  rewrite of_uint63_spec. apply binary_normalize_signed.
  apply Uint63.to_Z_bounded.
Qed.

Lemma SFdiv_finite_signed mx ex my ey :
  signed false (SF64div (S754_finite false mx ex) (S754_finite false my ey)).
Proof.
  unfold SF64div, SFdiv.
  destruct (SFdiv_core_binary prec emax (Z.pos mx) ex (Z.pos my) ey) as [[mz ez] lz] eqn:E.
  apply binary_round_aux_signed.
  unfold SFdiv_core_binary in E.
  set (m' := match _ - _ - _ with Z0 => _ | Zpos _ => _ | Zneg _ => _ end) in E.
  assert (Hm' : 0 <= m').
  { subst m'. destruct (_ - _ - _); try lia. apply Z.shiftl_nonneg. lia. }
  pose proof (Z_div_mod m' (Z.pos my) ltac:(lia)) as Hdiv.
  destruct (Z.div_eucl m' (Z.pos my)) as [q r]. injection E as <- _ _.
  nia.
Qed.

Lemma SFdiv_signed x y :
  signed false x -> signed false y ->
  SF64div x y = S754_nan ∨ signed false (SF64div x y).
Proof.
  destruct x as [sx|sx| |sx mx ex], y as [sy|sy| |sy my ey]; simpl;
    intros Hx Hy; subst; try (right; reflexivity); try (left; reflexivity); try contradiction.
  right. apply SFdiv_finite_signed.
Qed.

Lemma SFdiv_by_finite x m e :
  signed false x -> signed false (SF64div x (S754_finite false m e)).
Proof.
  destruct x as [sx|sx| |sx mx ex]; simpl; intros Hx; subst; try reflexivity; try contradiction.
  apply SFdiv_finite_signed.
Qed.

Lemma not_below_zero x :
  x = S754_nan ∨ signed false x -> SFltb x (S754_zero false) = false.
Proof.
  intros [->|H]; [reflexivity|].
  destruct x; simpl in *; subst; try reflexivity; try contradiction.
Qed.

(** The double quotient of two non-negative integers is not below zero. *)
Lemma quotient_not_negative a b :
  0 <= a -> 0 <= b -> (Z2F a / Z2F b <? 0)%float = false.
Proof.
  intros Ha Hb. rewrite ltb_spec, div_spec.
  apply not_below_zero, SFdiv_signed; apply Z2F_signed; assumption.
Qed.

(** ** Rounding in the normal range *)

Lemma pow2_xI n : 2 ^ Z.pos n~1 = 2 * (2 ^ Z.pos n * 2 ^ Z.pos n).
Proof.
  rewrite (Pos2Z.inj_xI n). rewrite Z.pow_add_r by lia. rewrite Z.pow_twice_r. change (2 ^ 1) with 2. lia.
Qed.
Lemma pow2_xO n : 2 ^ Z.pos n~0 = 2 ^ Z.pos n * 2 ^ Z.pos n.
Proof.
  rewrite (Pos2Z.inj_xO n). rewrite Z.pow_twice_r. lia.
Qed.

Lemma digits2_pos_bounds p :
  2 ^ (Z.pos (digits2_pos p) - 1) <= Z.pos p < 2 ^ Z.pos (digits2_pos p).
Proof.
  induction p as [p IH|p IH|]; simpl digits2_pos.
  - rewrite Pos2Z.inj_succ.
    replace (Z.succ (Z.pos (digits2_pos p)) - 1) with (Z.succ (Z.pos (digits2_pos p) - 1)) by lia.
    rewrite !Z.pow_succ_r by lia. lia.
  - rewrite Pos2Z.inj_succ.
    replace (Z.succ (Z.pos (digits2_pos p)) - 1) with (Z.succ (Z.pos (digits2_pos p) - 1)) by lia.
    rewrite !Z.pow_succ_r by lia. lia.
  - simpl. lia.
Qed.

Lemma digits2_pos_unique p k :
  2 ^ (k - 1) <= Z.pos p < 2 ^ k -> Z.pos (digits2_pos p) = k.
Proof.
  intros [Hlo Hhi]. pose proof (digits2_pos_bounds p) as [Hlo' Hhi'].
  assert (0 < k).
  { destruct (Z.le_gt_cases k 0) as [Hk|Hk]; [|lia].
    assert (2 ^ k <= 2 ^ 0) by (apply Z.pow_le_mono_r; lia). simpl in *. lia. }
  destruct (Z.lt_trichotomy (Z.pos (digits2_pos p)) k) as [Hlt|[Heq|Hgt]]; [|exact Heq|].
  - assert (2 ^ Z.pos (digits2_pos p) <= 2 ^ (k - 1)) by (apply Z.pow_le_mono_r; lia). lia.
  - assert (2 ^ k <= 2 ^ (Z.pos (digits2_pos p) - 1)) by (apply Z.pow_le_mono_r; lia). lia.
Qed.

Lemma shr_1_div2 mrs : 0 <= shr_m mrs -> shr_m (shr_1 mrs) = shr_m mrs / 2.
Proof.
  destruct mrs as [m r s]. simpl. intros Hm.
  destruct m as [|p|p]; [reflexivity| |lia].
  destruct p as [p|p|]; simpl.
  - rewrite Pos2Z.inj_xI. apply Z.div_unique with 1; lia.
  - rewrite Pos2Z.inj_xO. apply Z.div_unique with 0; lia.
  - reflexivity.
Qed.

Lemma iter_pos_shr_1 n mrs :
  0 <= shr_m mrs ->
  shr_m (SpecFloat.iter_pos shr_1 n mrs) = shr_m mrs / 2 ^ Z.pos n.
Proof.
  revert mrs. induction n as [n IH|n IH|]; intros mrs Hm; simpl SpecFloat.iter_pos.
  - assert (H1 : 0 <= shr_m (shr_1 mrs)) by (rewrite shr_1_div2 by lia; apply Z.div_pos; lia).
    assert (H2 : 0 <= shr_m (SpecFloat.iter_pos shr_1 n (shr_1 mrs))).
    { rewrite IH by lia. apply Z.div_pos; [lia|]. apply Z.pow_pos_nonneg; lia. }
    rewrite IH, IH, shr_1_div2 by lia.
    rewrite !Z.div_div by (try apply Z.pow_pos_nonneg; lia).
    f_equal. symmetry. apply pow2_xI.
  - assert (H2 : 0 <= shr_m (SpecFloat.iter_pos shr_1 n mrs)).
    { rewrite IH by lia. apply Z.div_pos; [lia|]. apply Z.pow_pos_nonneg; lia. }
    rewrite IH, IH by lia.
    rewrite !Z.div_div by (try apply Z.pow_pos_nonneg; lia).
    f_equal. symmetry. apply pow2_xO.
  - rewrite shr_1_div2 by lia. reflexivity.
Qed.

(** shr_fexp in the normal range: the mantissa is cut down to 53 bits. *)
Lemma shr_fexp_normal m e l :
  0 < m -> prec <= Zdigits2 m -> emin <= Zdigits2 m + e - prec ->
  let r := shr_fexp prec emax m e l in
  shr_m (fst r) = m / 2 ^ (Zdigits2 m - prec) ∧ snd r = Zdigits2 m + e - prec.
Proof.
  intros Hm Hd He. unfold shr_fexp, fexp.
  rewrite Z.max_l by lia.
  replace (Zdigits2 m + e - prec - e) with (Zdigits2 m - prec) by lia.
  assert (Hrec : shr_m (shr_record_of_loc m l) = m) by (destruct l as [|[]]; reflexivity).
  unfold shr. destruct (Zdigits2 m - prec) as [|n|n] eqn:En; simpl.
  - rewrite Hrec, Z.div_1_r. split; lia.
  - rewrite iter_pos_shr_1 by (rewrite Hrec; lia). rewrite Hrec. split; [reflexivity|lia].
  - lia.
Qed.

Lemma Zdigits2_pos m : 0 < m -> 2 ^ (Zdigits2 m - 1) <= m < 2 ^ Zdigits2 m.
Proof.
  destruct m as [|p|p]; try lia. intros _. apply digits2_pos_bounds.
Qed.

Lemma Zdigits2_above m k : 0 <= k -> 2 ^ k <= m -> k < Zdigits2 m.
Proof.
  intros Hk Hm. assert (0 < m) by (pose proof (Z.pow_pos_nonneg 2 k); lia).
  pose proof (Zdigits2_pos m ltac:(lia)) as [_ Hhi].
  destruct (Z.lt_ge_cases k (Zdigits2 m)) as [|Hge]; [assumption|].
  assert (0 <= Zdigits2 m) by (destruct m; simpl; lia).
  assert (2 ^ Zdigits2 m <= 2 ^ k) by (apply Z.pow_le_mono_r; lia). lia.
Qed.

Lemma Zdigits2_below m k : 0 < m -> m < 2 ^ k -> Zdigits2 m <= k.
Proof.
  intros Hm Hk. pose proof (Zdigits2_pos m Hm) as [Hlo _].
  destruct (Z.le_gt_cases (Zdigits2 m) k) as [|Hgt]; [assumption|].
  assert (0 <= k).
  { destruct (Z.le_gt_cases 0 k); [assumption|]. rewrite Z.pow_neg_r in Hk by lia. lia. }
  assert (2 ^ k <= 2 ^ (Zdigits2 m - 1)) by (apply Z.pow_le_mono_r; lia). lia.
Qed.

(** Cutting a mantissa of [D >= 53] bits down by [D - 53] bits leaves 53. *)
Lemma cut_to_prec m :
  0 < m -> prec <= Zdigits2 m ->
  2 ^ 52 <= m / 2 ^ (Zdigits2 m - prec) < 2 ^ 53.
Proof.
  intros Hm Hd. pose proof (Zdigits2_pos m Hm) as [Hlo Hhi].
  set (n := Zdigits2 m - prec) in *.
  assert (Hn : 0 <= n) by (unfold n; lia).
  assert (Hp : 0 < 2 ^ n) by (apply Z.pow_pos_nonneg; lia).
  replace (Zdigits2 m - 1) with (52 + n) in Hlo by (unfold n, prec; lia).
  replace (Zdigits2 m) with (53 + n) in Hhi by (unfold n, prec; lia).
  rewrite Z.pow_add_r in Hlo, Hhi by lia.
  split.
  - apply Z.div_le_lower_bound; lia.
  - apply Z.div_lt_upper_bound; lia.
Qed.

Lemma round_nearest_even_bounds m l :
  m <= round_nearest_even m l <= m + 1.
Proof.
  unfold round_nearest_even. destruct l as [|[]]; try lia.
  destruct (Z.even m); lia.
Qed.

(** Rounding in the normal range: a 53-bit mantissa, and an exponent that
    follows the magnitude. *)
Lemma binary_round_aux_normal s m e l :
  0 < m -> prec <= Zdigits2 m ->
  emin <= Zdigits2 m + e - prec ->
  Zdigits2 m + e - prec < emax - prec ->
  ∃ m3 e3,
    binary_round_aux prec emax s m e l = S754_finite s m3 e3
    ∧ 2 ^ 52 <= Z.pos m3 < 2 ^ 53
    ∧ Zdigits2 m + e - prec <= e3 <= Zdigits2 m + e - prec + 1.
Proof.
  intros Hm Hd Hlo Hhi. unfold binary_round_aux.
  destruct (shr_fexp_normal m e l Hm Hd Hlo) as [Hm1 He1].
  destruct (shr_fexp prec emax m e l) as [mrs' e']. simpl in Hm1, He1.
  pose proof (cut_to_prec m Hm Hd) as Hcut. rewrite <- Hm1 in Hcut.
  pose proof (round_nearest_even_bounds (shr_m mrs') (loc_of_shr_record mrs')) as Hr.
  set (m2 := round_nearest_even (shr_m mrs') (loc_of_shr_record mrs')) in *.
  assert (Hm2 : 0 < m2) by lia.
  assert (Hd2lo : 52 < Zdigits2 m2) by (apply Zdigits2_above; lia).
  assert (Hd2hi : Zdigits2 m2 <= 54).
  { apply Zdigits2_below; [lia|]. change (2 ^ 54) with (2 * 2 ^ 53). lia. }
  destruct (shr_fexp_normal m2 e' loc_Exact Hm2) as [Hm3 He3];
    [unfold prec; lia|unfold prec in *; lia|].
  destruct (shr_fexp prec emax m2 e' loc_Exact) as [mrs'' e'']. simpl in Hm3, He3.
  pose proof (cut_to_prec m2 Hm2 ltac:(unfold prec; lia)) as Hcut2. rewrite <- Hm3 in Hcut2.
  destruct (shr_m mrs'') as [|m3|m3]; try lia.
  rewrite (proj2 (Z.leb_le e'' (emax - prec))) by (unfold prec, emax in *; lia).
  exists m3, e''. split; [reflexivity|]. split; [exact Hcut2|].
  unfold prec in *. lia.
Qed.

Lemma iter_xO_value p k : Z.pos (Pos.iter xO p k) = Z.pos p * 2 ^ Z.pos k.
Proof.
  induction k as [|k IH] using Pos.peano_ind.
  - simpl. lia.
  - rewrite Pos.iter_succ, Pos2Z.inj_xO, IH, Pos2Z.inj_succ, Z.pow_succ_r by lia. lia.
Qed.

(** The double of a positive integer below 2^63 is a normal number. *)
Lemma Z2F_normal z :
  1 <= z < 2 ^ 63 ->
  ∃ m e,
    Prim2SF (Z2F z) = S754_finite false m e
    ∧ 2 ^ 52 <= Z.pos m < 2 ^ 53
    ∧ Zdigits2 z - prec <= e <= Zdigits2 z - prec + 1.
Proof.
  intros Hz. unfold Z2F. rewrite (proj2 (Z.ltb_ge z 0)) by lia.
  rewrite of_uint63_spec, Uint63.of_Z_spec.
  rewrite Z.mod_small by (change Uint63.wB with (2 ^ 63); lia).
  destruct z as [|p|p]; try lia. simpl binary_normalize. unfold binary_round.
  pose proof (digits2_pos_bounds p) as Hp.
  assert (Hd : 0 < Z.pos (digits2_pos p) <= 63).
  { split; [lia|]. apply (Zdigits2_below (Z.pos p)); lia. }
  unfold shl_align, fexp. rewrite Z.add_0_r, Z.sub_0_r.
  rewrite Z.max_l by (unfold emin, prec, emax; lia).
  destruct (Z.pos (digits2_pos p) - prec) as [|k|k] eqn:Ek.
  - destruct (binary_round_aux_normal false (Z.pos p) 0 loc_Exact) as (m & e & Hr & Hm & He);
      simpl Zdigits2; unfold prec, emin, emax in *; try lia.
    exists m, e. split; [exact Hr|]. split; [exact Hm|]. simpl Zdigits2 in *. lia.
  - destruct (binary_round_aux_normal false (Z.pos p) 0 loc_Exact) as (m & e & Hr & Hm & He);
      simpl Zdigits2; unfold prec, emin, emax in *; try lia.
    exists m, e. split; [exact Hr|]. split; [exact Hm|]. simpl Zdigits2 in *. lia.
  - assert (Hdig : Zdigits2 (Z.pos (Pos.iter xO p k)) = prec).
    { simpl Zdigits2. apply digits2_pos_unique. rewrite iter_xO_value.
      assert (Hk : Z.pos k = prec - Z.pos (digits2_pos p)) by lia.
      destruct Hp as [Hlo Hhi]. unfold prec in *.
      assert (E1 : 2 ^ (53 - 1) = 2 ^ (Z.pos (digits2_pos p) - 1) * 2 ^ Z.pos k).
      { rewrite <- Z.pow_add_r by lia. f_equal. lia. }
      assert (E2 : 2 ^ 53 = 2 ^ Z.pos (digits2_pos p) * 2 ^ Z.pos k).
      { rewrite <- Z.pow_add_r by lia. f_equal. lia. }
      rewrite E1, E2.
      assert (0 < 2 ^ Z.pos k) by (apply Z.pow_pos_nonneg; lia). nia. }
    destruct (binary_round_aux_normal false (Z.pos (Pos.iter xO p k)) (Z.neg k) loc_Exact)
      as (m & e & Hr & Hm & He); rewrite ?Hdig; unfold prec, emin, emax in *; try lia.
    exists m, e. split; [exact Hr|]. split; [exact Hm|]. simpl Zdigits2. lia.
Qed.

(** A mantissa of 53 bits at an exponent in range is kept as it is. *)
Lemma binary_round_aux_exact s p e :
  Z.pos (digits2_pos p) = prec -> emin <= e <= emax - prec ->
  binary_round_aux prec emax s (Z.pos p) e loc_Exact = S754_finite s p e.
Proof.
  intros Hd He.
  assert (H0 : fexp prec emax (Z.pos (digits2_pos p) + e) - e = 0).
  { rewrite Hd. unfold fexp, emin, SpecFloat.emin, prec, emax in *. lia. }
  unfold binary_round_aux, shr_fexp. simpl Zdigits2. rewrite H0. simpl.
  rewrite H0. simpl.
  rewrite (proj2 (Z.leb_le e (emax - prec))) by lia. reflexivity.
Qed.

(** The double of a positive integer below 2^53 holds it exactly. *)
Lemma Z2F_positive_exact p :
  Z.pos p < 2 ^ 53 ->
  ∃ m e, Prim2SF (of_uint63 (Uint63.of_Z (Z.pos p))) = S754_finite false m e
         ∧ e <= 0 ∧ Z.pos m = Z.pos p * 2 ^ (- e).
Proof.
  intros Hz.
  rewrite of_uint63_spec, Uint63.of_Z_spec.
  rewrite Z.mod_small by (change Uint63.wB with (2 ^ 63); lia).
  simpl binary_normalize. unfold binary_round.
  pose proof (digits2_pos_bounds p) as Hp.
  assert (Hd : 0 < Z.pos (digits2_pos p) <= 53).
  { split; [lia|]. apply (Zdigits2_below (Z.pos p)); lia. }
  unfold shl_align, fexp. rewrite Z.add_0_r, Z.sub_0_r.
  rewrite Z.max_l by (unfold emin, prec, emax; lia).
  destruct (Z.pos (digits2_pos p) - prec) as [|k|k] eqn:Ek.
  - rewrite binary_round_aux_exact by (unfold prec, emin, emax in *; lia).
    exists p, 0. split; [done|]. split; [lia|]. simpl. lia.
  - unfold prec in *. lia.
  - assert (Hdig : Z.pos (digits2_pos (Pos.iter xO p k)) = prec).
    { apply digits2_pos_unique. rewrite iter_xO_value.
      assert (Hk : Z.pos k = prec - Z.pos (digits2_pos p)) by lia.
      destruct Hp as [Hlo Hhi]. unfold prec in *.
      assert (E1 : 2 ^ (53 - 1) = 2 ^ (Z.pos (digits2_pos p) - 1) * 2 ^ Z.pos k).
      { rewrite <- Z.pow_add_r by lia. f_equal. lia. }
      assert (E2 : 2 ^ 53 = 2 ^ Z.pos (digits2_pos p) * 2 ^ Z.pos k).
      { rewrite <- Z.pow_add_r by lia. f_equal. lia. }
      rewrite E1, E2.
      assert (0 < 2 ^ Z.pos k) by (apply Z.pow_pos_nonneg; lia). nia. }
    rewrite binary_round_aux_exact by (done || unfold prec, emin, emax in *; lia).
    exists (Pos.iter xO p k), (Z.neg k). split; [done|]. split; [lia|].
    rewrite iter_xO_value. done.
Qed.

(** An integer of magnitude below 2^53 and its double stand for each
    other. *)
Lemma Z2F_exact z : - 2 ^ 53 < z < 2 ^ 53 -> Math_floor (Z2F z) = Int z.
Proof.
  intros Hz. unfold Z2F, Math_floor. destruct z as [|p|p].
  - reflexivity.
  - change (Z.pos p <? 0) with false. cbv iota.
    destruct (Z2F_positive_exact p) as (m & e & -> & He & Hm); [lia|].
    f_equal. rewrite Z.shiftl_div_pow2, Hm by lia.
    apply Z.div_mul. apply Z.pow_nonzero; lia.
  - change (Z.neg p <? 0) with true. cbv iota. rewrite opp_spec.
    change (- Z.neg p) with (Z.pos p).
    destruct (Z2F_positive_exact p) as (m & e & -> & He & Hm); [lia|].
    simpl. f_equal. rewrite Z.shiftl_div_pow2 by lia.
    rewrite <- Pos2Z.opp_pos, Hm, <- Z.mul_opp_l.
    apply Z.div_mul. apply Z.pow_nonzero; lia.
Qed.

(** ** Segmenter *)

Lemma slice_length {A} (l : list A) i n :
  0 <= i -> 0 <= n -> i + n <= len l -> len (slice l i (i + n)) = n.
Proof.
  intros Hi Hn Hle. unfold slice, len in *.
  rewrite (proj2 (Z.ltb_ge i 0)) by lia.
  rewrite (proj2 (Z.ltb_ge (i + n) 0)) by lia.
  rewrite length_take, length_drop. lia.
Qed.

(** A step that does not advance never leaves the loop. *)
Lemma segmentData_loop_stuck fuel data S i step :
  segment_step S = Int step -> step <= 0 ->
  i < len data - S + 1 ->
  segmentData_loop fuel data S i = None.
Proof.
  intros Hstep Hle. revert i. induction fuel as [|fuel IH]; intros i Hi; simpl; [done|].
  rewrite bool_decide_eq_true_2 by done. rewrite Hstep.
  rewrite IH by lia. done.
Qed.

(** More fuel does not change a result. *)
Lemma segmentData_loop_mono fuel fuel' data S i segs :
  segmentData_loop fuel data S i = Some segs -> (fuel <= fuel')%nat ->
  segmentData_loop fuel' data S i = Some segs.
Proof.
  revert fuel' i segs. induction fuel as [|fuel IH]; intros fuel' i segs; simpl; [done|].
  intros Hrun Hle. destruct fuel' as [|fuel']; [lia|]. simpl.
  case_bool_decide; [|done].
  destruct (segment_step S) as [step| | |]; try done.
  destruct (segmentData_loop fuel data S (i + step)) as [rest|] eqn:E; [|done].
  rewrite (IH fuel' _ rest E) by lia. done.
Qed.

(** What a finished run returns: windows of the input that fit, at
    strictly increasing offsets from [i] on. *)
Lemma segmentData_loop_spec fuel data S i segs :
  segmentData_loop fuel data S i = Some segs ->
  Forall (fun seg => i <= Segment.position seg
                     ∧ Segment.position seg + S <= len data
                     ∧ Segment.data seg
                       = slice data (Segment.position seg) (Segment.position seg + S)) segs
  ∧ StronglySorted (fun a b => Segment.position a < Segment.position b) segs.
Proof.
  revert i segs. induction fuel as [|fuel IH]; intros i segs; simpl; [done|].
  case_bool_decide as Hi.
  2:{ intros [= <-]. split; constructor. }
  destruct (segment_step S) as [step| | |] eqn:Hstep.
  - destruct (segmentData_loop fuel data S (i + step)) as [rest|] eqn:E; [|done].
    simpl. intros [= <-].
    destruct (decide (step <= 0)) as [Hle|Hgt].
    { rewrite (segmentData_loop_stuck fuel data S (i + step) step) in E by (done || lia). done. }
    destruct (IH _ _ E) as [Hall Hsorted]. split.
    + constructor; [simpl; split_and!; (lia || done)|].
      eapply Forall_impl; [exact Hall|]. simpl. intros seg (? & ? & ?). split_and!; (lia || done).
    + constructor; [done|].
      eapply Forall_impl; [exact Hall|]. simpl. intros seg (? & ? & ?). lia.
  - intros [= <-]. split.
    + constructor; [simpl; split_and!; (lia || done)|constructor].
    + repeat constructor.
  - intros [= <-]. split.
    + constructor; [simpl; split_and!; (lia || done)|constructor].
    + repeat constructor.
  - done.
Qed.

(** With an advancing step the loop ends within the remaining offsets. *)
Lemma segmentData_loop_ends fuel data S i step :
  segment_step S = Int step -> 1 <= step ->
  (Z.to_nat (len data - S + 1 - i) < fuel)%nat ->
  ∃ segs, segmentData_loop fuel data S i = Some segs
          ∧ (length segs <= Z.to_nat (len data - S + 1 - i))%nat.
Proof.
  intros Hstep Hpos. revert i. induction fuel as [|fuel IH]; intros i Hfuel; [lia|].
  simpl. case_bool_decide as Hi.
  - rewrite Hstep. destruct (IH (i + step)) as (rest & -> & Hlen); [lia|].
    eexists. split; [done|]. simpl. lia.
  - eexists. split; [done|]. simpl. lia.
Qed.

Lemma PHI_INV_value : Prim2SF PHI_INV = S754_finite false 5566755282872655 (-53).
Proof. reflexivity. Qed.

(** The step of every segment size from 2 on is at least 1: the product
    S * 0.618... is at least 1.236 and rounding to nearest cannot take it
    below 1. *)
Lemma segment_step_advances S :
  2 <= S < 2 ^ 63 -> ∃ step, segment_step S = Int step ∧ 1 <= step.
Proof.
  intros HS. unfold segment_step, Math_floor.
  rewrite mul_spec, PHI_INV_value.
  destruct (Z2F_normal S ltac:(lia)) as (m & e & -> & Hm & He).
  assert (Hd : 1 < Zdigits2 S) by (apply Zdigits2_above; lia).
  assert (Hd' : Zdigits2 S <= 63) by (apply Zdigits2_below; lia).
  unfold SF64mul, SFmul. simpl xorb.
  set (M := Z.pos (m * 5566755282872655)).
  assert (HM : 2 ^ 104 <= M < 2 ^ 106).
  { unfold M. rewrite Pos2Z.inj_mul.
    change (2 ^ 104) with (2 ^ 52 * 2 ^ 52). change (2 ^ 106) with (2 ^ 53 * 2 ^ 53). nia. }
  assert (HD : 104 < Zdigits2 M <= 106).
  { split; [apply Zdigits2_above; lia|apply Zdigits2_below; lia]. }
  destruct (binary_round_aux_normal false M (e + -53) loc_Exact)
    as (m3 & e3 & -> & Hm3 & He3); unfold prec, emin, emax in *; try lia.
  eexists. split; [reflexivity|].
  destruct (Z.le_gt_cases 0 e3) as [Hpos|Hneg].
  - rewrite Z.shiftl_mul_pow2 by lia.
    assert (0 < 2 ^ e3) by (apply Z.pow_pos_nonneg; lia). nia.
  - rewrite Z.shiftl_div_pow2 by lia.
    apply Z.div_le_lower_bound; [apply Z.pow_pos_nonneg; lia|].
    assert (2 ^ (- e3) <= 2 ^ 52) by (apply Z.pow_le_mono_r; lia). lia.
Qed.

(** C7, as the code has it.  The segmenter has no guard of its own, and
    needs none from segment size 2 on: for every input (an array, so of
    fewer than 2^32 samples) and every segment size S >= 2 the step
    floor(S * 0.618...) is at least 1, the loop ends within one iteration
    per input offset and returns a list of at most L segments, the same for
    every sufficient fuel. *)
Theorem segmentData_terminates data S :
  len data < 2 ^ 32 -> 2 <= S ->
  ∃ segments,
    (∀ fuel, (length data < fuel)%nat -> segmentData fuel data S = Some segments)
    ∧ (length segments <= length data)%nat.
Proof.
  intros HL HS. destruct (decide (S <= len data)) as [Hle|Hgt].
  - destruct (segment_step_advances S) as (step & Hstep & Hpos); [lia|].
    destruct (segmentData_loop_ends (Datatypes.S (length data)) data S 0 step Hstep Hpos)
      as (segments & Hrun & Hlen).
    { unfold len. lia. }
    exists segments. split.
    + intros fuel Hfuel. unfold segmentData.
      eapply segmentData_loop_mono; [exact Hrun|lia].
    + unfold len in Hlen. lia.
  - exists []. split; [|simpl; lia].
    intros fuel Hfuel. destruct fuel as [|fuel]; [lia|].
    unfold segmentData. simpl. by rewrite bool_decide_eq_false_2 by lia.
Qed.

(** The steps of the smallest sizes: 0 at size 1, 1 at size 2, and 2 at
    size 4, the smallest size the pattern selector passes on. *)
Lemma segment_step_small :
  segment_step 1 = Int 0 ∧ segment_step 2 = Int 1 ∧ segment_step 3 = Int 1
  ∧ segment_step 4 = Int 2.
Proof. split_and!; reflexivity. Qed.

(** C7 fails as stated: at segment size 1 the step is 0 and the loop on a
    one-sample input never ends, whatever the fuel. *)
Lemma segmentData_size_1_never_ends :
  segment_step 1 = Int 0 ∧ ∀ fuel, segmentData fuel [1%float] 1 = None.
Proof.
  split; [reflexivity|]. intros fuel.
  apply (segmentData_loop_stuck fuel [1%float] 1 0 0); [reflexivity|lia|].
  unfold len. simpl. lia.
Qed.

(** Witness of C7: segment size 4 on the ramp of eight samples. *)
Lemma segmentData_terminates_witness :
  ∃ segments,
    (∀ fuel, (length ramp8 < fuel)%nat -> segmentData fuel ramp8 4 = Some segments)
    ∧ (length segments <= length ramp8)%nat.
Proof.
  apply (segmentData_terminates ramp8 4); [unfold len; simpl; lia|lia].
Defined.

(** ** Similarity matcher *)

Lemma threshold_value : (1 - THRESHOLD)%float = 0.99%float.
Proof. reflexivity. Qed.

Lemma collect_matches_cons master j s later :
  collect_matches master j (s :: later)
  = if (1 - THRESHOLD <? calculateCorrelation (Segment.data master) (Segment.data s))%float
    then Match.mk j (Segment.position s)
                  (calculateCorrelation (Segment.data master) (Segment.data s))
         :: collect_matches master (j + 1) later
    else collect_matches master (j + 1) later.
Proof. reflexivity. Qed.

Lemma collect_matches_spec master j later m :
  m ∈ collect_matches master j later ->
  ∃ s, s ∈ later
       ∧ Match.position m = Segment.position s
       ∧ Match.correlation m = calculateCorrelation (Segment.data master) (Segment.data s)
       ∧ (1 - THRESHOLD <? Match.correlation m)%float = true
       ∧ j <= Match.index m.
Proof.
  revert j. induction later as [|s later IH]; intros j.
  - intros Hin. by apply elem_of_nil in Hin.
  - rewrite collect_matches_cons.
    destruct (1 - THRESHOLD <? calculateCorrelation (Segment.data master) (Segment.data s))%float
      eqn:Hgt.
    + intros Hin. apply elem_of_cons in Hin as [->|Hin].
      * exists s. simpl. split_and!; (done || lia || left).
      * destruct (IH _ Hin) as (s' & ? & ? & ? & ? & ?).
        exists s'. split_and!; (done || lia || by right).
    + intros Hin. destruct (IH _ Hin) as (s' & ? & ? & ? & ? & ?).
      exists s'. split_and!; (done || lia || by right).
Qed.

Lemma similar_from_spec i segments c :
  c ∈ similar_from i segments ->
  ∃ before s later,
    segments = before ++ s :: later
    ∧ Cluster.masterIndex c = i + len before
    ∧ Cluster.masterPosition c = Segment.position s
    ∧ Cluster.masterData c = Segment.data s
    ∧ Cluster.matches c = collect_matches s (Cluster.masterIndex c + 1) later
    ∧ 0 < len (Cluster.matches c).
Proof.
  revert i. induction segments as [|s later IH]; intros i; simpl.
  - intros Hin. by apply elem_of_nil in Hin.
  - assert (Hrest : c ∈ similar_from (i + 1) later ->
      ∃ before s0 later0,
        s :: later = before ++ s0 :: later0
        ∧ Cluster.masterIndex c = i + len before
        ∧ Cluster.masterPosition c = Segment.position s0
        ∧ Cluster.masterData c = Segment.data s0
        ∧ Cluster.matches c = collect_matches s0 (Cluster.masterIndex c + 1) later0
        ∧ 0 < len (Cluster.matches c)).
    { intros Hin. destruct (IH _ Hin) as (before & s0 & later0 & -> & Hidx & ? & ? & ? & ?).
      exists (s :: before), s0, later0. split_and!; try done.
      rewrite Hidx. unfold len. simpl. lia. }
    case_bool_decide as Hne; [|done].
    intros Hin. apply elem_of_cons in Hin as [->|Hin]; [|by apply Hrest].
    exists [], s, later. simpl. split_and!; try done. unfold len. simpl. lia.
Qed.

Lemma sorted_middle {A} (R : A -> A -> Prop) before s later x :
  StronglySorted R (before ++ s :: later) -> x ∈ later -> R s x.
Proof.
  induction before as [|b before IH]; simpl; intros Hs Hx.
  - apply StronglySorted_inv in Hs as [_ Hall].
    rewrite Forall_forall in Hall. by apply Hall.
  - apply StronglySorted_inv in Hs as [Hs _]. by apply IH.
Qed.

(** C6, as the code has it.  Every match the similarity matcher records on
    the segmenter's output carries a correlation score strictly greater
    than 0.99 (the double 1 - 0.01), and the offset of a cluster's master is
    strictly below the offset of each of its matches, so it is never among
    them. *)
Theorem match_above_threshold fuel data S segments c m :
  segmentData fuel data S = Some segments ->
  c ∈ findSimilarSegments segments ->
  m ∈ Cluster.matches c ->
  (0.99 <? Match.correlation m)%float = true
  ∧ Cluster.masterPosition c < Match.position m.
Proof.
  intros Hseg Hc Hm.
  apply similar_from_spec in Hc as (before & s & later & -> & _ & Hpos & _ & Hms & _).
  rewrite Hms in Hm. apply collect_matches_spec in Hm as (s' & Hin & Hp & _ & Hgt & _).
  split; [by rewrite <- threshold_value|].
  apply segmentData_loop_spec in Hseg as [_ Hsorted].
  rewrite Hpos, Hp.
  exact (sorted_middle _ _ _ _ _ Hsorted Hin).
Qed.

(** C6 fails as stated: on six samples at segment size 4 the matcher
    records a match whose correlation score is above 1. *)
Lemma correlation_above_one :
  segmentData 3 steps6 4
  = Some [Segment.mk [0; 0; 0.1; 0.1]%float 0; Segment.mk [0.1; 0.1; 0.2; 0.2]%float 2]
  ∧ findSimilarSegments
      [Segment.mk [0; 0; 0.1; 0.1]%float 0; Segment.mk [0.1; 0.1; 0.2; 0.2]%float 2]
    = [Cluster.mk 0 0 [0; 0; 0.1; 0.1]%float [Match.mk 1 2 1.0000000000000004%float]]
  ∧ (1 <? 1.0000000000000004)%float = true.
Proof. split_and!; reflexivity. Qed.

(** Witness of C6 on the same six samples. *)
Lemma match_above_threshold_witness :
  (0.99 <? 1.0000000000000004)%float = true ∧ 0 < 2.
Proof.
  apply (match_above_threshold 3 steps6 4
           [Segment.mk [0; 0; 0.1; 0.1]%float 0; Segment.mk [0.1; 0.1; 0.2; 0.2]%float 2]
           (Cluster.mk 0 0 [0; 0; 0.1; 0.1]%float [Match.mk 1 2 1.0000000000000004%float])
           (Match.mk 1 2 1.0000000000000004%float)).
  - reflexivity.
  - apply list_elem_of_In. left. reflexivity.
  - apply list_elem_of_In. simpl. tauto.
Defined.

(** ** Correlation: the zero-denominator guard *)

(** What the guard [den === 0 ? 0 : num / den] gives: 0 when the computed
    denominator compares equal to zero, the quotient otherwise; arrays of
    different lengths give 0 before any sum is taken. *)
Lemma calculateCorrelation_guard arr1 arr2 :
  length arr1 = length arr2 ->
  calculateCorrelation arr1 arr2
  = if (pearson_den arr1 arr2 =? 0)%float then 0%float
    else (pearson_num arr1 arr2 / pearson_den arr1 arr2)%float.
Proof.
  intros Hlen. unfold calculateCorrelation.
  by rewrite bool_decide_eq_false_2 by (intros H; by apply H).
Qed.

Lemma calculateCorrelation_zero_den arr1 arr2 :
  length arr1 = length arr2 ->
  (pearson_den arr1 arr2 =? 0)%float = true ->
  calculateCorrelation arr1 arr2 = 0%float.
Proof. intros Hlen Hden. by rewrite calculateCorrelation_guard, Hden. Qed.

Lemma calculateCorrelation_lengths arr1 arr2 :
  length arr1 ≠ length arr2 -> calculateCorrelation arr1 arr2 = 0%float.
Proof.
  intros Hlen. unfold calculateCorrelation. by rewrite bool_decide_eq_true_2.
Qed.

(** A constant vector of integers: the sums are exact, the denominator is
    0 and the guard answers 0. *)
Lemma constant_integers_give_zero :
  pearson_den [5; 5; 5; 5]%float [1; 2; 3; 4]%float = 0%float
  ∧ calculateCorrelation [5; 5; 5; 5]%float [1; 2; 3; 4]%float = 0%float.
Proof. split; reflexivity. Qed.

(** C8 on the code.  The three samples 0.1, 0.1, 0.1 have zero variance,
    but their sums round: sum1Sq - sum1 * sum1 / n is a negative double,
    the denominator is the square root of a negative product, which is not
    a number and is not equal to 0, and [calculateCorrelation] returns a
    value that is not a number. *)
Theorem constant_vector_correlation_is_nan :
  length [0.1; 0.1; 0.1]%float = length [1; 2; 3]%float
  ∧ (sumSq_of [0.1; 0.1; 0.1] - sum_of [0.1; 0.1; 0.1] * sum_of [0.1; 0.1; 0.1] / 3 <? 0)%float = true
  ∧ is_nan (pearson_den [0.1; 0.1; 0.1]%float [1; 2; 3]%float) = true
  ∧ is_nan (calculateCorrelation [0.1; 0.1; 0.1]%float [1; 2; 3]%float) = true
  ∧ calculateCorrelation [0.1; 0.1; 0.1]%float [1; 2; 3]%float ≠ 0%float.
Proof.
  split_and!; try reflexivity.
  intros H. apply (f_equal is_nan) in H. vm_compute in H. discriminate.
Qed.

(** Two windows of the constant 0.1 are scored 1 and recorded as a match. *)
Lemma constant_windows_match :
  calculateCorrelation [0.1; 0.1; 0.1; 0.1; 0.1]%float [0.1; 0.1; 0.1; 0.1; 0.1]%float = 1%float
  ∧ findSimilarSegments
      [Segment.mk [0.1; 0.1; 0.1; 0.1; 0.1]%float 0; Segment.mk [0.1; 0.1; 0.1; 0.1; 0.1]%float 3]
    = [Cluster.mk 0 0 [0.1; 0.1; 0.1; 0.1; 0.1]%float [Match.mk 1 3 1%float]].
Proof. split; reflexivity. Qed.

(** ** Ratio estimator *)

Lemma ratio_totals sims S a b :
  foldl (ratio_step S) (a, b) sims
  = (a + totalSaved 8 sims S, b + totalOriginal sims S).
Proof.
  revert a b. induction sims as [|sim sims IH]; intros a b; simpl.
  - f_equal; unfold totalSaved, totalOriginal; simpl; lia.
  - unfold ratio_step at 2. simpl. rewrite IH.
    unfold totalSaved, totalOriginal. simpl. f_equal; lia.
Qed.

Lemma totalSaved_nonneg sims S : 8 <= S -> 0 <= totalSaved 8 sims S.
Proof.
  intros HS. unfold totalSaved. induction sims as [|sim sims IH]; simpl; [lia|].
  pose proof (len_nonneg (Cluster.matches sim)). nia.
Qed.

Lemma calculateCompressionRatio_closed similarities S :
  calculateCompressionRatio similarities S = ratio_with_cost 8 similarities S.
Proof.
  unfold calculateCompressionRatio, ratio_with_cost.
  rewrite ratio_totals. simpl. rewrite !Z.add_0_l. reflexivity.
Qed.

Lemma totalSaved_split cost sims S :
  totalSaved cost sims S = totalOriginal sims S - totalCompressed cost sims S.
Proof.
  unfold totalSaved, totalOriginal, totalCompressed.
  induction sims as [|sim sims IH]; simpl; lia.
Qed.

Lemma totalOriginal_nonneg sims S : 0 <= S -> 0 <= totalOriginal sims S.
Proof.
  intros HS. unfold totalOriginal. induction sims as [|sim sims IH]; simpl; [lia|].
  pose proof (len_nonneg (Cluster.matches sim)). nia.
Qed.

Lemma totalCompressed_nonneg cost sims S :
  0 <= S -> 0 <= cost -> 0 <= totalCompressed cost sims S.
Proof.
  intros HS Hc. unfold totalCompressed. induction sims as [|sim sims IH]; simpl; [lia|].
  pose proof (len_nonneg (Cluster.matches sim)). nia.
Qed.

(** C3, as the code has it.  For every cluster list and segment size
    S >= 0 whose totals stay below 2^53, where the doubles of the source
    hold them exactly, the estimator returns totalSaved / totalOriginal,
    where per cluster originalSize = S * (1 + matchCount) and
    compressedSize = S + matchCount * 8 (a fixed cost of 8 units per
    reference), both totals summed over the clusters; the two totals and
    their doubles stand for each other; and it returns 0 when
    totalOriginal is not positive, and so when the cluster list is
    empty. *)
Theorem ratio_is_saved_over_original similarities S :
  0 <= S ->
  totalOriginal similarities S < 2 ^ 53 ->
  totalCompressed 8 similarities S < 2 ^ 53 ->
  calculateCompressionRatio similarities S = ratio_with_cost 8 similarities S
  ∧ Math_floor (Z2F (totalSaved 8 similarities S)) = Int (totalSaved 8 similarities S)
  ∧ Math_floor (Z2F (totalOriginal similarities S)) = Int (totalOriginal similarities S)
  ∧ calculateCompressionRatio [] S = 0%float.
Proof.
  intros HS Horiginal Hcompressed.
  pose proof (totalOriginal_nonneg similarities S HS).
  pose proof (totalCompressed_nonneg 8 similarities S HS ltac:(lia)).
  split_and!.
  - apply calculateCompressionRatio_closed.
  - apply Z2F_exact. rewrite totalSaved_split. lia.
  - apply Z2F_exact. lia.
  - reflexivity.
Qed.

(** C5, as the code has it.  For every cluster list and every segment size
    S >= 8 the estimator's value is not negative. *)
Theorem ratio_not_negative similarities S :
  8 <= S ->
  (calculateCompressionRatio similarities S <? 0)%float = false.
Proof.
  intros HS. rewrite calculateCompressionRatio_closed.
  unfold ratio_with_cost. destruct (0 <? totalOriginal similarities S) eqn:E.
  - apply quotient_not_negative; [by apply totalSaved_nonneg|].
    apply Z.ltb_lt in E. lia.
  - reflexivity.
Qed.

Lemma at_least_zero x : signed false x -> SFleb (S754_zero false) x = true.
Proof. destruct x; simpl; intros H; subst; try reflexivity; contradiction. Qed.

(** While totalOriginal stays below 2^63 the estimate for a segment size
    S >= 8 is a number, and it is at least 0. *)
Lemma ratio_at_least_zero similarities S :
  8 <= S -> totalOriginal similarities S < 2 ^ 63 ->
  (0 <=? calculateCompressionRatio similarities S)%float = true.
Proof.
  intros HS Hbound. rewrite calculateCompressionRatio_closed. unfold ratio_with_cost.
  destruct (0 <? totalOriginal similarities S) eqn:E; [|reflexivity].
  apply Z.ltb_lt in E. rewrite leb_spec, div_spec.
  destruct (Z2F_normal (totalOriginal similarities S)) as (m & e & -> & _); [lia|].
  apply at_least_zero, SFdiv_by_finite, Z2F_signed. by apply totalSaved_nonneg.
Qed.

(** Two doubles that the IEEE comparison tells apart are different. *)
Lemma float_neq (x y : float) : (x =? y)%float = false -> (x =? x)%float = true -> x ≠ y.
Proof. intros Hxy Hxx ->. congruence. Qed.

(** C3 fails as stated: with one cluster of one match at segment size 16
    the code returns (32 - 24) / 32 = 0.25, a cost of 12 per reference
    gives (32 - 28) / 32 = 0.125. *)
Lemma ratio_cost_is_not_12 :
  calculateCompressionRatio [cluster_with 1] 16 = 0.25%float
  ∧ ratio_with_cost 12 [cluster_with 1] 16 = 0.125%float
  ∧ calculateCompressionRatio [cluster_with 1] 16 ≠ ratio_with_cost 12 [cluster_with 1] 16.
Proof.
  split_and!; [reflexivity|reflexivity|].
  apply float_neq; reflexivity.
Qed.

(** C5 fails as stated: a cluster list of one cluster with one match at
    segment size 4 is estimated at (8 - 12) / 8 = -0.5. *)
Lemma ratio_negative_at_size_4 :
  calculateCompressionRatio [cluster_with 1] 4 = (-0.5)%float
  ∧ (calculateCompressionRatio [cluster_with 1] 4 <? 0)%float = true.
Proof. split; reflexivity. Qed.

(** Witness of C3: one cluster with one match at segment size 16, totals
    8 and 32. *)
Lemma ratio_is_saved_over_original_witness :
  calculateCompressionRatio [cluster_with 1] 16 = ratio_with_cost 8 [cluster_with 1] 16
  ∧ Math_floor (Z2F (totalSaved 8 [cluster_with 1] 16)) = Int (totalSaved 8 [cluster_with 1] 16)
  ∧ Math_floor (Z2F (totalOriginal [cluster_with 1] 16)) = Int (totalOriginal [cluster_with 1] 16)
  ∧ calculateCompressionRatio [] 16 = 0%float.
Proof.
  apply (ratio_is_saved_over_original [cluster_with 1] 16); [lia| |]; vm_compute; reflexivity.
Defined.

(** Witness of C5 at segment size 8, where the estimate is 0. *)
Lemma ratio_not_negative_witness :
  8 <= 8 ∧ (calculateCompressionRatio [cluster_with 1] 8 <? 0)%float = false.
Proof.
  split; [lia|]. apply (ratio_not_negative [cluster_with 1] 8). lia.
Defined.

(** ** Pattern selector *)

Lemma elem_of_sort_insert p q l : q ∈ sort_insert p l ↔ q = p ∨ q ∈ l.
Proof.
  induction l as [|x l IH]; simpl.
  - rewrite list_elem_of_singleton. split; [by left|]. intros [?|H]; [done|by apply elem_of_nil in H].
  - destruct (comparator x p <? 0)%float.
    + rewrite !elem_of_cons, IH. tauto.
    + rewrite !elem_of_cons. tauto.
Qed.

Lemma elem_of_sort_patterns q l : q ∈ sort_patterns l ↔ q ∈ l.
Proof.
  induction l as [|p l IH]; simpl; [done|].
  rewrite elem_of_sort_insert, elem_of_cons, IH. tauto.
Qed.

Lemma sort_insert_length p l : length (sort_insert p l) = S (length l).
Proof.
  induction l as [|x l IH]; simpl; [done|].
  destruct (comparator x p <? 0)%float; simpl; by rewrite ?IH.
Qed.

Lemma sort_patterns_length l : length (sort_patterns l) = length l.
Proof.
  induction l as [|p l IH]; simpl; [done|].
  by rewrite sort_insert_length, IH.
Qed.

Section Selector.

Variable Math_pow : float -> float -> float.

Lemma detect_loop_selected fuel data scale n patterns p :
  detect_loop Math_pow fuel data scale n = Some patterns ->
  p ∈ patterns -> selected fuel data p.
Proof.
  revert scale patterns. induction n as [|n IH]; intros scale patterns; simpl.
  - intros [= <-] Hin. by apply elem_of_nil in Hin.
  - destruct (Math_floor _) as [S| | |].
    + case_bool_decide as HS.
      { intros [= <-] Hin. by apply elem_of_nil in Hin. }
      destruct (segmentData fuel data S) as [segments|] eqn:Hseg; [|done]. simpl.
      destruct (detect_loop Math_pow fuel data (scale + 1) n) as [rest|] eqn:Hrest; [|done].
      simpl. intros [= <-]. case_bool_decide as Hne.
      * intros Hin. apply elem_of_cons in Hin as [->|Hin]; [|by eapply IH].
        split; [simpl; lia|]. exists segments. simpl. by split_and!.
      * intros Hin. by eapply IH.
    + intros Hrun Hin. by eapply IH.
    + intros Hrun Hin. by eapply IH.
    + intros [= <-] Hin. by apply elem_of_nil in Hin.
Qed.

Lemma detectFractalPatterns_selected fuel data patterns p :
  detectFractalPatterns Math_pow fuel data = Some patterns ->
  p ∈ patterns -> selected fuel data p.
Proof.
  unfold detectFractalPatterns.
  destruct (detect_loop Math_pow fuel data 1 8) as [found|] eqn:Hrun; [|done].
  simpl. intros [= <-] Hin. rewrite elem_of_sort_patterns in Hin.
  eapply detect_loop_selected; [exact Hrun|exact Hin].
Qed.

(** A successful [encode] stores the structure built from the head of the
    ranked list. *)
Lemma encode_success fuel data r :
  encode Math_pow fuel data = Some r -> Result.success r = true ->
  ∃ best, selected fuel data best
          ∧ Result.encoded r = Some (createEncodedStructure data best).
Proof.
  unfold encode.
  destruct (detectFractalPatterns Math_pow fuel data) as [[|best rest]|] eqn:Hrun; simpl.
  - by intros [= <-].
  - intros [= <-] _. exists best. split; [|done].
    eapply detectFractalPatterns_selected; [done|left].
  - done.
Qed.

End Selector.

(** Every cluster of a kept pattern has a master window of the pattern's
    segment size that fits in the input. *)
Lemma selected_cluster fuel data p c :
  selected fuel data p -> c ∈ Pattern.patterns p ->
  len (Cluster.masterData c) = Pattern.segmentSize p
  ∧ 0 <= Cluster.masterPosition c
  ∧ Cluster.masterPosition c + Pattern.segmentSize p <= len data.
Proof.
  intros (HS & segments & Hseg & Hpat & _ & _) Hin.
  rewrite Hpat in Hin. apply similar_from_spec in Hin
    as (before & s & later & -> & _ & Hpos & Hdata & _ & _).
  apply segmentData_loop_spec in Hseg as [Hall _].
  rewrite Forall_forall in Hall.
  destruct (Hall s) as (Hs0 & Hs1 & Hs2).
  { apply elem_of_app. right. left. }
  rewrite Hdata, Hpos, Hs2. split_and!; [|done|done].
  apply slice_length; lia.
Qed.

(** The whole pipeline ends: on an array, with one unit of fuel per sample
    and one more, [encode] returns a result. *)
Lemma segmentData_returns fuel data S :
  len data < 2 ^ 32 -> 4 <= S -> (length data < fuel)%nat ->
  is_Some (segmentData fuel data S).
Proof.
  intros HL HS Hfuel. destruct (decide (S <= len data)) as [Hle|Hgt].
  - destruct (segment_step_advances S) as (step & Hstep & Hpos); [lia|].
    destruct (segmentData_loop_ends fuel data S 0 step Hstep Hpos) as (segments & Hrun & _).
    { unfold len. lia. }
    by exists segments.
  - destruct fuel as [|fuel]; [lia|]. exists [].
    unfold segmentData. simpl. by rewrite bool_decide_eq_false_2 by lia.
Qed.

Lemma detect_loop_returns Math_pow fuel data scale n :
  len data < 2 ^ 32 -> (length data < fuel)%nat ->
  is_Some (detect_loop Math_pow fuel data scale n).
Proof.
  intros HL Hfuel. revert scale. induction n as [|n IH]; intros scale; simpl; [done|].
  destruct (Math_floor _) as [S| | |]; try done.
  case_bool_decide as HS; [done|].
  destruct (segmentData_returns fuel data S HL ltac:(lia) Hfuel) as [segments ->].
  destruct (IH (scale + 1)) as [patterns ->]. done.
Qed.

Lemma encode_returns Math_pow fuel data :
  len data < 2 ^ 32 -> (length data < fuel)%nat ->
  is_Some (encode Math_pow fuel data).
Proof.
  intros HL Hfuel. unfold encode, detectFractalPatterns.
  destruct (detect_loop_returns Math_pow fuel data 1 8 HL Hfuel) as [patterns ->].
  simpl. by destruct (sort_patterns patterns).
Qed.

(** ** The examples *)

Lemma fibonacci_encode : encode pow_repeated 17 fibonacci_twice = Some fibonacci_result.
Proof. vm_compute. reflexivity. Qed.

Lemma ramp8_encode : encode pow_repeated 9 ramp8 = Some ramp8_result.
Proof. vm_compute. reflexivity. Qed.

(** The estimate of the successful encoding of the twice-repeated
    Fibonacci pattern (scale 2, segment size 6) is negative. *)
Lemma fibonacci_ratio :
  Result.success fibonacci_result = true
  ∧ Result.goldenRatioScale fibonacci_result = Some 2
  ∧ (Result.compressionRatio fibonacci_result <? 0)%float = true.
Proof. vm_compute. done. Qed.

Lemma fibonacci_round_trip :
  decode fibonacci_result = Some (map Some fibonacci_twice).
Proof. vm_compute. reflexivity. Qed.

(** ** Encoder *)

Lemma createEncodedStructure_builder data p :
  ∃ b, builder_ok b
       ∧ Structure.masterSegments (createEncodedStructure data p) = b_masters b
       ∧ b_masters b = map master_of (Pattern.patterns p)
       ∧ Structure.references (createEncodedStructure data p) = b_references b
       ∧ Structure.residual (createEncodedStructure data p) = residual_of data (b_used b).
Proof.
  exists (foldl add_cluster (mkBuilder [] [] ∅) (Pattern.patterns p)).
  split_and!; try done.
  - apply foldl_add_cluster_ok, builder_empty_ok.
  - by rewrite foldl_add_cluster_masters.
Qed.

Lemma createEncodedStructure_length data p :
  Header.originalLength (Structure.header (createEncodedStructure data p)) = len data.
Proof. done. Qed.

Lemma residual_writes_value data used o v :
  (o, v) ∈ residual_writes (residual_of data used) ->
  0 <= o ∧ data !! Z.to_nat o = Some v ∧ o ∉ used.
Proof.
  unfold residual_writes. rewrite list_elem_of_fmap.
  intros (res & [= -> ->] & Hin). by apply elem_of_residual_of.
Qed.

Section Claims.

Variable Math_pow : float -> float -> float.

(** C10.  In the structure of a successful [encode], the [masterIndex] of
    every reference record is an index into the master-segment list: it is
    at least 0 and below the number of master segments, so the master the
    reference copies from exists. *)
Theorem reference_names_stored_master fuel data r structure ref :
  encode Math_pow fuel data = Some r ->
  Result.success r = true ->
  Result.encoded r = Some structure ->
  ref ∈ Structure.references structure ->
  0 <= Reference.masterIndex ref < len (Structure.masterSegments structure)
  ∧ is_Some (Structure.masterSegments structure !! Z.to_nat (Reference.masterIndex ref)).
Proof.
  intros Hrun Hok Henc Hin.
  destruct (encode_success _ _ _ _ Hrun Hok) as (best & _ & Hbest).
  rewrite Hbest in Henc. injection Henc as <-.
  destruct (createEncodedStructure_builder data best) as (b & [_ Href] & Hm & _ & Hr & _).
  rewrite Hr in Hin. rewrite Hm. specialize (Href ref Hin).
  split; [done|]. apply lookup_lt_is_Some. unfold len in Href. lia.
Qed.

(** C1.  After a successful [encode] of a sequence of length L, every
    offset in 0 .. L-1 is reachable by a record of the structure: it lies
    in the covered range of a master segment, or in the covered range of a
    reference, or it is the offset of a residual record. *)
Theorem every_offset_reachable fuel data r structure o :
  encode Math_pow fuel data = Some r ->
  Result.success r = true ->
  Result.encoded r = Some structure ->
  0 <= o < len data ->
  reachable structure o.
Proof.
  intros Hrun Hok Henc Ho.
  destruct (encode_success _ _ _ _ Hrun Hok) as (best & Hsel & Hbest).
  rewrite Hbest in Henc. injection Henc as <-.
  destruct (createEncodedStructure_builder data best)
    as (b & [Hused Href] & Hm & Hmap & Hr & Hres).
  assert (Hdata : ∀ m, m ∈ b_masters b -> 0 < len (Master.data m)).
  { intros m Hin. rewrite Hmap in Hin. apply list_elem_of_fmap in Hin as (c & -> & Hc).
    destruct (selected_cluster _ _ _ _ Hsel Hc) as (Hlen & _). simpl. rewrite Hlen.
    destruct Hsel as [HS _]. lia. }
  unfold reachable, in_master, in_reference, in_residual.
  rewrite Hm, Hr, Hres.
  destruct (decide (o ∈ b_used b)) as [Hin|Hout].
  - apply Hused in Hin as [(m & Hin & Hp)|(ref & Hin & Hp)].
    + left. exists m. split; [done|]. specialize (Hdata m Hin). lia.
    + right. left. specialize (Href ref Hin).
      destruct (lookup_lt_is_Some_2 (b_masters b) (Z.to_nat (Reference.masterIndex ref)))
        as [m Hlook]; [unfold len in Href; lia|].
      exists ref, m. split_and!; try done; try lia.
      assert (m ∈ b_masters b) as Hmin by (by eapply list_elem_of_lookup_2).
      specialize (Hdata m Hmin). lia.
  - right. right.
    destruct (lookup_lt_is_Some_2 data (Z.to_nat o)) as [v Hv]; [unfold len in Ho; lia|].
    exists (Residual.mk o v). split; [|done].
    apply elem_of_residual_of. simpl. split_and!; (done || lia).
Qed.

(** C2.  After a successful [encode] of [data], [decode] returns an array
    that holds, at the offset of every residual record, exactly the sample
    [data] has at that offset (the value the record carries). *)
Theorem residual_offsets_exact fuel data r structure res :
  encode Math_pow fuel data = Some r ->
  Result.success r = true ->
  Result.encoded r = Some structure ->
  res ∈ Structure.residual structure ->
  ∃ out v,
    decode r = Some out
    ∧ 0 <= Residual.position res < len data
    ∧ data !! Z.to_nat (Residual.position res) = Some v
    ∧ out !! Z.to_nat (Residual.position res) = Some (Some v)
    ∧ Residual.value res = v.
Proof.
  intros Hrun Hok Henc Hin.
  destruct (encode_success _ _ _ _ Hrun Hok) as (best & _ & Hbest).
  assert (structure = createEncodedStructure data best) as -> by congruence.
  destruct (createEncodedStructure_builder data best) as (b & _ & _ & _ & _ & Hres).
  rewrite Hres in Hin. pose proof Hin as Hin'.
  apply elem_of_residual_of in Hin' as (Hpos & Hv & Hout).
  assert (Hlt : Residual.position res < len data).
  { apply lookup_lt_Some in Hv. unfold len. lia. }
  exists (decode_structure (createEncodedStructure data best)), (Residual.value res).
  split_and!; try done.
  - unfold decode. rewrite Hok, Henc. simpl.
    rewrite bool_decide_eq_false_2; [done|]. pose proof (len_nonneg data). lia.
  - rewrite decode_structure_lookup by (rewrite createEncodedStructure_length; lia).
    f_equal. unfold decode_order. rewrite last_write_app, Hres.
    assert (Hw : (Residual.position res, Residual.value res)
                 ∈ residual_writes (residual_of data (b_used b))).
    { unfold residual_writes. apply list_elem_of_fmap. by exists res. }
    destruct (last_write_is_Some _ _ _ Hw) as [v' Hv']. rewrite Hv'.
    apply last_write_Some, residual_writes_value in Hv' as (_ & Hv'' & _).
    congruence.
Qed.

End Claims.

(** Witness of C10 on the ramp of eight samples. *)
Lemma reference_names_stored_master_witness :
  0 <= 1 < len (Structure.masterSegments ramp8_structure)
  ∧ is_Some (Structure.masterSegments ramp8_structure !! Z.to_nat 1).
Proof.
  apply (reference_names_stored_master pow_repeated 9 ramp8 ramp8_result ramp8_structure
           (Reference.mk 1 4 1%float) ramp8_encode eq_refl eq_refl).
  apply list_elem_of_In. simpl. tauto.
Defined.

(** Witness of C1: offset 9 of the Fibonacci example. *)
Lemma every_offset_reachable_witness : reachable fibonacci_structure 9.
Proof.
  apply (every_offset_reachable pow_repeated 17 fibonacci_twice fibonacci_result
           fibonacci_structure 9 fibonacci_encode eq_refl eq_refl).
  unfold len. simpl. lia.
Defined.

(** Witness of C2: the residual record at offset 10 of the Fibonacci
    example. *)
Lemma residual_offsets_exact_witness :
  ∃ out v,
    decode fibonacci_result = Some out
    ∧ 0 <= 10 < len fibonacci_twice
    ∧ fibonacci_twice !! Z.to_nat 10 = Some v
    ∧ out !! Z.to_nat 10 = Some (Some v)
    ∧ 2%float = v.
Proof.
  apply (residual_offsets_exact pow_repeated 17 fibonacci_twice fibonacci_result
           fibonacci_structure (Residual.mk 10 2%float) fibonacci_encode eq_refl eq_refl).
  apply list_elem_of_In. simpl. tauto.
Defined.

(** ** Encoder: no pattern *)

(** [encode] succeeds exactly when the ranked list is not empty. *)
Lemma encode_success_iff Math_pow fuel data r :
  encode Math_pow fuel data = Some r ->
  (Result.success r = false ↔ detectFractalPatterns Math_pow fuel data = Some []).
Proof.
  unfold encode.
  destruct (detectFractalPatterns Math_pow fuel data) as [[|best rest]|]; simpl;
    intros [= <-]; simpl; split; done.
Qed.

(** When no scale of the loop yields a cluster the loop ends with no
    pattern. *)
Lemma detect_loop_none Math_pow fuel data scale n :
  len data < 2 ^ 32 -> (length data < fuel)%nat ->
  (∀ s S segments,
     scale <= s < scale + Z.of_nat n ->
     Math_floor (Z2F (len data) * Math_pow PHI_INV (Z2F s))%float = Int S ->
     4 <= S ->
     segmentData fuel data S = Some segments ->
     findSimilarSegments segments = []) ->
  detect_loop Math_pow fuel data scale n = Some [].
Proof.
  intros HL Hfuel. revert scale. induction n as [|n IH]; intros scale Hnone; simpl; [done|].
  assert (Hrest : detect_loop Math_pow fuel data (scale + 1) n = Some []).
  { apply IH. intros s S segments Hs. apply Hnone. lia. }
  destruct (Math_floor _) as [S| | |] eqn:Hfloor; try done.
  case_bool_decide as HS; [done|].
  destruct (segmentData_returns fuel data S HL ltac:(lia) Hfuel) as [segments Hseg].
  rewrite Hseg, Hrest. simpl.
  rewrite (Hnone scale S segments) by (done || lia). done.
Qed.

(** C9.  When no scale yields a cluster, that is, when the similarity
    matcher returns no cluster on the segments of every segment size of at
    least 4 that a scale 1 .. 8 gives, [encode] of an array returns a
    result (it does not fail) whose success flag is false, whose compressed
    size equals the original size, the input length, whose ratio is 0, and
    which carries a message and no encoded structure; [decode] refuses
    it. *)
Theorem no_pattern_is_failure Math_pow fuel data :
  len data < 2 ^ 32 -> (length data < fuel)%nat ->
  (∀ scale S segments,
     1 <= scale <= 8 ->
     Math_floor (Z2F (len data) * Math_pow PHI_INV (Z2F scale))%float = Int S ->
     4 <= S ->
     segmentData fuel data S = Some segments ->
     findSimilarSegments segments = []) ->
  ∃ r,
    encode Math_pow fuel data = Some r
    ∧ Result.success r = false
    ∧ Result.originalSize r = len data
    ∧ Result.compressedSize r = Result.originalSize r
    ∧ Result.compressionRatio r = 0%float
    ∧ Result.message r = Some "No suitable fractal patterns found"%string
    ∧ Result.encoded r = None
    ∧ decode r = None.
Proof.
  intros HL Hfuel Hnone. unfold encode, detectFractalPatterns.
  rewrite (detect_loop_none Math_pow fuel data 1 8 HL Hfuel)
    by (intros s S segments Hs; apply Hnone; lia).
  simpl. eexists. split; [reflexivity|]. by split_and!.
Qed.

(** On the eight uncorrelated samples only the first scale passes the size
    test, with segment size 4, and its three windows do not correlate. *)
Lemma uncorrelated8_no_cluster scale S segments :
  1 <= scale <= 8 ->
  Math_floor (Z2F (len uncorrelated8) * pow_repeated PHI_INV (Z2F scale))%float = Int S ->
  4 <= S ->
  segmentData 9 uncorrelated8 S = Some segments ->
  findSimilarSegments segments = [].
Proof.
  intros Hs Hfloor HS Hseg.
  assert (Hcases : scale = 1 ∨ scale = 2 ∨ scale = 3 ∨ scale = 4
                   ∨ scale = 5 ∨ scale = 6 ∨ scale = 7 ∨ scale = 8) by lia.
  destruct Hcases as [->|[->|[->|[->|[->|[->|[->| ->]]]]]]];
    vm_compute in Hfloor; injection Hfloor as <-; try lia.
  vm_compute in Hseg. injection Hseg as <-. vm_compute. reflexivity.
Qed.

(** Witness of C9 on eight uncorrelated samples. *)
Lemma no_pattern_is_failure_witness :
  ∃ r,
    encode pow_repeated 9 uncorrelated8 = Some r
    ∧ Result.success r = false
    ∧ Result.originalSize r = len uncorrelated8
    ∧ Result.compressedSize r = Result.originalSize r
    ∧ Result.compressionRatio r = 0%float
    ∧ Result.message r = Some "No suitable fractal patterns found"%string
    ∧ Result.encoded r = None
    ∧ decode r = None.
Proof.
  apply (no_pattern_is_failure pow_repeated 9 uncorrelated8).
  - vm_compute. reflexivity.
  - simpl. lia.
  - exact uncorrelated8_no_cluster.
Defined.

(** * Further properties *)

(** ** Segmenter: the windows *)

Lemma segmentData_loop_windows fuel data S i step segs :
  segmentData_loop fuel data S i = Some segs ->
  segment_step S = Int step -> 1 <= step ->
  (∀ k seg, segs !! k = Some seg ->
     Segment.position seg = i + Z.of_nat k * step
     ∧ Segment.data seg = slice data (Segment.position seg) (Segment.position seg + S))
  ∧ (∀ k : nat, (k < length segs)%nat ↔ i + Z.of_nat k * step < len data - S + 1).
Proof.
  intros Hrun Hstep Hgt.
  revert i segs Hrun. induction fuel as [|fuel IH]; intros i segs; simpl; [done|].
  case_bool_decide as Hi.
  - rewrite Hstep. destruct (segmentData_loop fuel data S (i + step)) as [rest|] eqn:E; [|done].
    simpl. intros [= <-]. destruct (IH _ _ E) as [Hpos Hlen]. split.
    + intros [|k] seg Hk; simpl in Hk.
      * injection Hk as <-. simpl. split; [lia|done].
      * destruct (Hpos k seg Hk) as [Hp Hd]. split; [lia|exact Hd].
    + intros [|k]; simpl.
      * split; [lia|]. intros _. lia.
      * rewrite <- Nat.succ_lt_mono, Hlen. split; intros; lia.
  - intros [= <-]. split.
    + intros k seg Hk. by rewrite lookup_nil in Hk.
    + intros k. simpl. split; [lia|]. nia.
Qed.

(** X1.  When the step floor(S * 0.618...) is at least 1, the segmenter
    returns exactly the windows of [S] samples at the offsets 0, step,
    2 * step, ... that fit the input: window number [k] exists exactly when
    [k * step + S <= L], starts at [k * step] and is the [S] samples of the
    input from there. *)
Theorem segments_are_strided_windows fuel data S step segs :
  segmentData fuel data S = Some segs ->
  segment_step S = Int step -> 1 <= step -> 0 <= S ->
  (∀ k : nat, (k < length segs)%nat ↔ Z.of_nat k * step + S <= len data)
  ∧ (∀ (k : nat) seg, segs !! k = Some seg ->
       Segment.position seg = Z.of_nat k * step
       ∧ Segment.data seg = slice data (Z.of_nat k * step) (Z.of_nat k * step + S)
       ∧ len (Segment.data seg) = S).
Proof.
  intros Hrun Hstep Hpos HS.
  destruct (segmentData_loop_windows _ _ _ _ _ _ Hrun Hstep Hpos) as [Hwin Hlen]. split.
  - intros k. rewrite Hlen. lia.
  - intros k seg Hk. destruct (Hwin k seg Hk) as [Hp Hd].
    assert (Hfit : Z.of_nat k * step + S <= len data).
    { apply lookup_lt_Some in Hk. apply Hlen in Hk. lia. }
    rewrite Hd, Hp. split_and!; [lia|f_equal; lia|].
    replace (0 + Z.of_nat k * step) with (Z.of_nat k * step) by lia.
    apply slice_length; lia.
Qed.

(** ** Similarity matcher: which pairs are recorded *)

Lemma collect_matches_iff master j later m :
  m ∈ collect_matches master j later ↔
  ∃ (k : nat) s,
    later !! k = Some s
    ∧ m = Match.mk (j + Z.of_nat k) (Segment.position s)
                   (calculateCorrelation (Segment.data master) (Segment.data s))
    ∧ (1 - THRESHOLD <? calculateCorrelation (Segment.data master) (Segment.data s))%float = true.
Proof.
  revert j. induction later as [|s later IH]; intros j.
  - split.
    + intros Hin. by apply elem_of_nil in Hin.
    + intros (k & s & Hk & _). by rewrite lookup_nil in Hk.
  - rewrite collect_matches_cons.
    assert (Htail : m ∈ collect_matches master (j + 1) later ↔
      ∃ (k : nat) s0, (s :: later) !! Datatypes.S k = Some s0
        ∧ m = Match.mk (j + Z.of_nat (Datatypes.S k)) (Segment.position s0)
                (calculateCorrelation (Segment.data master) (Segment.data s0))
        ∧ (1 - THRESHOLD <? calculateCorrelation (Segment.data master) (Segment.data s0))%float = true).
    { rewrite IH. split; intros (k & s0 & Hk & -> & Hgt); exists k, s0; simpl;
        (split_and!; [done| |done]); f_equal; lia. }
    destruct (1 - THRESHOLD <? calculateCorrelation (Segment.data master) (Segment.data s))%float
      eqn:Hgt.
    + rewrite elem_of_cons, Htail. split.
      * intros [->|(k & s0 & Hk & -> & Hgt0)].
        -- exists 0%nat, s. split_and!; [done| |done]. f_equal. lia.
        -- by exists (Datatypes.S k), s0.
      * intros ([|k] & s0 & Hk & -> & Hgt0).
        -- left. simpl in Hk. injection Hk as <-. f_equal. lia.
        -- right. by exists k, s0.
    + rewrite Htail. split.
      * intros (k & s0 & Hk & -> & Hgt0). by exists (Datatypes.S k), s0.
      * intros ([|k] & s0 & Hk & -> & Hgt0).
        -- simpl in Hk. injection Hk as <-. congruence.
        -- by exists k, s0.
Qed.

Lemma similar_from_iff i segments c :
  c ∈ similar_from i segments ↔
  ∃ (k : nat) s,
    segments !! k = Some s
    ∧ c = Cluster.mk (i + Z.of_nat k) (Segment.position s) (Segment.data s)
            (collect_matches s (i + Z.of_nat k + 1) (drop (Datatypes.S k) segments))
    ∧ 0 < len (collect_matches s (i + Z.of_nat k + 1) (drop (Datatypes.S k) segments)).
Proof.
  revert i. induction segments as [|s later IH]; intros i.
  - split.
    + intros Hin. by apply elem_of_nil in Hin.
    + intros (k & s & Hk & _). by rewrite lookup_nil in Hk.
  - assert (Htail : c ∈ similar_from (i + 1) later ↔
      ∃ (k : nat) s0, (s :: later) !! Datatypes.S k = Some s0
        ∧ c = Cluster.mk (i + Z.of_nat (Datatypes.S k)) (Segment.position s0) (Segment.data s0)
            (collect_matches s0 (i + Z.of_nat (Datatypes.S k) + 1) (drop (Datatypes.S (Datatypes.S k)) (s :: later)))
        ∧ 0 < len (collect_matches s0 (i + Z.of_nat (Datatypes.S k) + 1) (drop (Datatypes.S (Datatypes.S k)) (s :: later)))).
    { rewrite IH. split; intros (k & s0 & Hk & Hc & Hne); exists k, s0;
        change ((s :: later) !! Datatypes.S k) with (later !! k) in *;
        change (drop (Datatypes.S (Datatypes.S k)) (s :: later))
          with (drop (Datatypes.S k) later) in *;
        replace (i + Z.of_nat (Datatypes.S k)) with (i + 1 + Z.of_nat k) in * by lia;
        done. }
    simpl similar_from. case_bool_decide as Hne.
    + rewrite elem_of_cons, Htail. split.
      * intros [->|(k & s0 & Hk & -> & Hne0)].
        -- exists 0%nat, s. simpl. rewrite Z.add_0_r. done.
        -- by exists (Datatypes.S k), s0.
      * intros ([|k] & s0 & Hk & -> & Hne0).
        -- left. simpl in Hk. injection Hk as <-. simpl. by rewrite Z.add_0_r.
        -- right. by exists k, s0.
    + rewrite Htail. split.
      * intros (k & s0 & Hk & -> & Hne0). by exists (Datatypes.S k), s0.
      * intros ([|k] & s0 & Hk & -> & Hne0).
        -- simpl in Hk. injection Hk as <-. simpl in Hne0. rewrite Z.add_0_r in Hne0. done.
        -- by exists k, s0.
Qed.

(** X2.  The similarity matcher records exactly the correlated pairs: every
    match of every cluster stands for two segments [i < j] of the list whose
    correlation, the recorded score, is above 0.99, and every pair [i < j]
    of segments whose correlation is above 0.99 is recorded as a match [j]
    in the cluster of master [i].  A segment that is the match of one
    cluster is not left out as the master or match of another. *)
Theorem matcher_records_correlated_pairs segments :
  (∀ c m, c ∈ findSimilarSegments segments -> m ∈ Cluster.matches c ->
     ∃ (i j : nat) si sj,
       Cluster.masterIndex c = Z.of_nat i ∧ Match.index m = Z.of_nat j ∧ (i < j)%nat
       ∧ segments !! i = Some si ∧ segments !! j = Some sj
       ∧ Cluster.masterPosition c = Segment.position si
       ∧ Cluster.masterData c = Segment.data si
       ∧ Match.position m = Segment.position sj
       ∧ Match.correlation m = calculateCorrelation (Segment.data si) (Segment.data sj)
       ∧ (0.99 <? Match.correlation m)%float = true)
  ∧ (∀ (i j : nat) si sj,
       (i < j)%nat -> segments !! i = Some si -> segments !! j = Some sj ->
       (0.99 <? calculateCorrelation (Segment.data si) (Segment.data sj))%float = true ->
       ∃ c m, c ∈ findSimilarSegments segments ∧ m ∈ Cluster.matches c
              ∧ Cluster.masterIndex c = Z.of_nat i ∧ Match.index m = Z.of_nat j).
Proof.
  unfold findSimilarSegments. split.
  - intros c m Hc Hm.
    apply similar_from_iff in Hc as (i & si & Hi & -> & _). simpl in Hm.
    apply collect_matches_iff in Hm as (k & sj & Hk & -> & Hgt).
    rewrite lookup_drop in Hk. rewrite threshold_value in Hgt.
    exists i, (Datatypes.S i + k)%nat, si, sj. simpl. split_and!; try done; lia.
  - intros i j si sj Hij Hi Hj Hgt.
    set (m := Match.mk (0 + Z.of_nat i + 1 + Z.of_nat (j - Datatypes.S i)) (Segment.position sj)
                (calculateCorrelation (Segment.data si) (Segment.data sj))).
    assert (Hm : m ∈ collect_matches si (0 + Z.of_nat i + 1) (drop (Datatypes.S i) segments)).
    { apply collect_matches_iff. exists (j - Datatypes.S i)%nat, sj. split_and!.
      - rewrite lookup_drop. rewrite <- Hj. f_equal. lia.
      - done.
      - by rewrite threshold_value. }
    eexists _, m. split_and!.
    + apply similar_from_iff. exists i, si. split_and!; [done|reflexivity|].
      destruct (collect_matches si _ _); [by apply elem_of_nil in Hm|].
      unfold len. simpl. lia.
    + exact Hm.
    + simpl. lia.
    + simpl. lia.
Qed.

(** ** Correlation is symmetric *)

Lemma SFmul_comm x y : SF64mul x y = SF64mul y x.
Proof.
  unfold SF64mul, SFmul.
  destruct x as [sx|sx| |sx mx ex], y as [sy|sy| |sy my ey];
    try reflexivity; try (by rewrite xorb_comm).
  by rewrite xorb_comm, Pos.mul_comm, Z.add_comm.
Qed.

Lemma float_mul_comm (x y : float) : (x * y)%float = (y * x)%float.
Proof. apply Prim2SF_inj. by rewrite !mul_spec, SFmul_comm. Qed.

Lemma pSum_of_comm arr1 arr2 : pSum_of arr1 arr2 = pSum_of arr2 arr1.
Proof.
  unfold pSum_of. generalize 0%float as acc. revert arr2.
  induction arr1 as [|a arr1 IH]; intros [|b arr2] acc; simpl; try done.
  rewrite (float_mul_comm a b). apply IH.
Qed.

(** X3.  [calculateCorrelation] is symmetric: the score of two arrays,
    including the 0 of the guards and a NaN, does not depend on their
    order. *)
Theorem calculateCorrelation_symmetric arr1 arr2 :
  calculateCorrelation arr1 arr2 = calculateCorrelation arr2 arr1.
Proof.
  unfold calculateCorrelation.
  destruct (decide (length arr1 = length arr2)) as [Heq|Hne].
  - rewrite !bool_decide_eq_false_2 by (intros H; apply H; done).
    assert (Hden : pearson_den arr1 arr2 = pearson_den arr2 arr1).
    { unfold pearson_den, len. rewrite Heq. f_equal. apply float_mul_comm. }
    assert (Hnum : pearson_num arr1 arr2 = pearson_num arr2 arr1).
    { unfold pearson_num, len. rewrite Heq, pSum_of_comm.
      by rewrite (float_mul_comm (sum_of arr1)). }
    by rewrite Hden, Hnum.
  - by rewrite !bool_decide_eq_true_2 by (done || by intros H; apply Hne).
Qed.

(** ** The clusters of a kept pattern *)

Lemma similar_from_sorted i segments :
  StronglySorted (fun a b => Segment.position a < Segment.position b) segments ->
  StronglySorted (fun a b => Cluster.masterPosition a < Cluster.masterPosition b)
                 (similar_from i segments).
Proof.
  revert i. induction segments as [|s later IH]; intros i Hs; simpl; [constructor|].
  apply StronglySorted_inv in Hs as [Hlater Hall].
  case_bool_decide; [|by apply IH].
  constructor; [by apply IH|].
  apply Forall_forall. intros c Hc. simpl.
  apply similar_from_spec in Hc as (before & s' & later' & -> & _ & -> & _).
  rewrite Forall_forall in Hall. apply Hall. apply elem_of_app. right. left.
Qed.

Lemma selected_clusters fuel data p :
  selected fuel data p ->
  Forall (cluster_ok data (Pattern.segmentSize p)) (Pattern.patterns p)
  ∧ StronglySorted (fun a b => Cluster.masterPosition a < Cluster.masterPosition b)
                   (Pattern.patterns p).
Proof.
  intros (HS & segments & Hseg & Hpat & _ & _).
  apply segmentData_loop_spec in Hseg as [Hall Hsorted].
  rewrite Hpat. split; [|by apply similar_from_sorted].
  rewrite Forall_forall in Hall.
  apply Forall_forall. intros c Hc.
  apply similar_from_iff in Hc as (k & s & Hk & -> & _).
  destruct (Hall s) as (Hs0 & Hs1 & Hs2); [by eapply list_elem_of_lookup_2|].
  unfold cluster_ok. simpl. split_and!; try done.
  intros m Hm. apply collect_matches_iff in Hm as (k' & s' & Hk' & -> & Hgt). simpl.
  rewrite lookup_drop in Hk'.
  destruct (Hall s') as (Hs0' & Hs1' & Hs2'); [by eapply list_elem_of_lookup_2|].
  rewrite threshold_value in Hgt. split_and!; try done.
  - assert (Hsplit : segments = take (Datatypes.S k) segments ++ drop (Datatypes.S k) segments)
      by (by rewrite take_drop).
    rewrite (take_S_r _ _ _ Hk) in Hsplit. rewrite <- app_assoc in Hsplit. simpl in Hsplit.
    rewrite Hsplit in Hsorted.
    apply (sorted_middle _ _ _ _ _ Hsorted).
    apply (list_elem_of_lookup_2 _ k'). rewrite lookup_drop. exact Hk'.
  - by rewrite <- Hs2'.
Qed.

(** ** The encoder's lists in closed form *)

Lemma foldl_add_match_references ms b :
  b_references (foldl add_match b ms)
  = b_references b
    ++ map (fun m => Reference.mk (len (b_masters b) - 1) (Match.position m) (Match.correlation m)) ms.
Proof.
  revert b. induction ms as [|m ms IH]; intros b; simpl.
  - by rewrite app_nil_r.
  - rewrite IH. simpl. by rewrite <- app_assoc.
Qed.

Lemma foldl_add_match_used ms b :
  b_used (foldl add_match b ms) = b_used b ∪ list_to_set (map Match.position ms).
Proof.
  revert b. induction ms as [|m ms IH]; intros b; simpl.
  - by rewrite union_empty_r_L.
  - rewrite IH. simpl. by rewrite <- (assoc_L (∪)).
Qed.

Lemma add_cluster_references b sim :
  b_references (add_cluster b sim) = b_references b ++ references_of (len (b_masters b)) sim.
Proof.
  unfold add_cluster. rewrite foldl_add_match_references. simpl.
  unfold references_of. f_equal. rewrite len_app.
  replace (len (b_masters b) + len [Master.mk (Cluster.masterPosition sim) (Cluster.masterData sim)] - 1)
    with (len (b_masters b)); [done|]. unfold len at 3. simpl. lia.
Qed.

Lemma add_cluster_used b sim :
  b_used (add_cluster b sim)
  = b_used b ∪ list_to_set (Cluster.masterPosition sim :: map Match.position (Cluster.matches sim)).
Proof.
  unfold add_cluster. rewrite foldl_add_match_used. simpl. by rewrite <- (assoc_L (∪)).
Qed.

Lemma foldl_add_cluster_references sims b :
  b_references (foldl add_cluster b sims)
  = b_references b
    ++ mjoin (imap (fun k sim => references_of (len (b_masters b) + Z.of_nat k) sim) sims).
Proof.
  revert b. induction sims as [|sim sims IH]; intros b; simpl.
  - by rewrite app_nil_r.
  - rewrite IH, add_cluster_references, add_cluster_masters, len_app, <- app_assoc.
    rewrite Z.add_0_r. do 3 f_equal.
    apply imap_ext. intros k c _. simpl. unfold len at 2. simpl. f_equal. lia.
Qed.

Lemma foldl_add_cluster_used sims b :
  b_used (foldl add_cluster b sims) = b_used b ∪ list_to_set (start_offsets sims).
Proof.
  revert b. induction sims as [|sim sims IH]; intros b; simpl.
  - unfold start_offsets. simpl. by rewrite union_empty_r_L.
  - rewrite IH, add_cluster_used. unfold start_offsets. simpl.
    rewrite list_to_set_app_L. simpl. by rewrite <- !(assoc_L (∪)).
Qed.

(** [createEncodedStructure] in closed form. *)
Lemma createEncodedStructure_closed data p :
  createEncodedStructure data p
  = Structure.mk
      (Header.mk PHI (Pattern.scale p) (Pattern.segmentSize p) (len data))
      (map master_of (Pattern.patterns p))
      (mjoin (imap (fun k sim => references_of (Z.of_nat k) sim) (Pattern.patterns p)))
      (residual_of data (list_to_set (start_offsets (Pattern.patterns p)))).
Proof.
  unfold createEncodedStructure.
  rewrite foldl_add_cluster_masters, foldl_add_cluster_references, foldl_add_cluster_used.
  simpl. f_equal. by rewrite union_empty_l_L.
Qed.

Lemma elem_of_references sims ref :
  ref ∈ mjoin (imap (fun k sim => references_of (Z.of_nat k) sim) sims) ↔
  ∃ (k : nat) c m,
    sims !! k = Some c ∧ m ∈ Cluster.matches c
    ∧ ref = Reference.mk (Z.of_nat k) (Match.position m) (Match.correlation m).
Proof.
  rewrite list_elem_of_join. split.
  - intros (l & Href & Hl). apply elem_of_lookup_imap in Hl as (k & c & -> & Hk).
    unfold references_of in Href. apply list_elem_of_fmap in Href as (m & -> & Hm).
    by exists k, c, m.
  - intros (k & c & m & Hk & Hm & ->). exists (references_of (Z.of_nat k) c). split.
    + unfold references_of. apply list_elem_of_fmap. by exists m.
    + apply (elem_of_lookup_imap_2 (fun k sim => references_of (Z.of_nat k) sim) _ _ _ Hk).
Qed.

(** ** The residual list *)

Lemma residual_of_snoc data x used :
  residual_of (data ++ [x]) used
  = residual_of data used
    ++ (if bool_decide (len data ∈ used) then [] else [Residual.mk (len data) x]).
Proof.
  unfold residual_of. rewrite imap_app, omap_app. f_equal. simpl.
  rewrite Nat.add_0_r. fold (len data). by case_bool_decide.
Qed.

Lemma residual_of_sorted data used :
  StronglySorted (fun a b => Residual.position a < Residual.position b) (residual_of data used).
Proof.
  induction data as [|x data IH] using rev_ind; [constructor|].
  rewrite residual_of_snoc. apply StronglySorted_app_2; [|done|].
  - intros r1 r2 Hr1 Hr2. apply elem_of_residual_of in Hr1 as (_ & Hlook & _).
    apply lookup_lt_Some in Hlook.
    case_bool_decide; [by apply elem_of_nil in Hr2|].
    apply list_elem_of_singleton in Hr2 as ->. simpl. unfold len. lia.
  - case_bool_decide; repeat constructor.
Qed.

(** The offsets below the length that are in the used set. *)
Lemma residual_of_length data used :
  (length (residual_of data used)
   + length (filter (fun i => i ∈ used) (seqZ 0 (len data))))%nat = length data.
Proof.
  induction data as [|x data IH] using rev_ind; [done|].
  assert (Hlen : len (data ++ [x]) = Z.of_nat (Datatypes.S (length data))).
  { unfold len. rewrite length_app. simpl. f_equal. lia. }
  rewrite residual_of_snoc, Hlen, seqZ_S, filter_app, !length_app.
  fold (len data) in *. rewrite Z.add_0_l, filter_cons, filter_nil.
  case_bool_decide as Hin.
  - rewrite decide_True by done. simpl. lia.
  - rewrite decide_False by done. simpl. lia.
Qed.

Lemma size_list_to_set_le (l : list Z) : (size (list_to_set l : gset Z) <= length l)%nat.
Proof.
  induction l as [|x l IH].
  - change (list_to_set [] : gset Z) with (∅ : gset Z). by rewrite size_empty.
  - change (list_to_set (x :: l) : gset Z) with ({[x]} ∪ list_to_set l : gset Z).
    rewrite size_union_alt, size_singleton. simpl.
    pose proof (subseteq_size (list_to_set l ∖ {[x]}) (list_to_set l : gset Z)) as Hsub.
    assert (list_to_set l ∖ {[x]} ⊆ (list_to_set l : gset Z)) as Hs
      by (intros y Hy; by apply elem_of_difference in Hy as [? _]).
    specialize (Hsub Hs). lia.
Qed.

Lemma used_hits_le (data : list float) (used : gset Z) :
  (length (filter (fun i => i ∈ used) (seqZ 0 (len data))) <= size used)%nat.
Proof.
  set (l := filter (fun i => i ∈ used) (seqZ 0 (len data))).
  assert (Hnd : NoDup l) by apply NoDup_filter, NoDup_seqZ.
  rewrite <- (size_list_to_set (C:=gset Z) l Hnd).
  apply subseteq_size. intros i Hi.
  apply elem_of_list_to_set in Hi. unfold l in Hi. by apply list_elem_of_filter in Hi as [? _].
Qed.

Lemma start_offsets_length sims :
  length (start_offsets sims)
  = (length sims + length (mjoin (imap (fun k sim => references_of (Z.of_nat k) sim) sims)))%nat.
Proof.
  unfold start_offsets.
  assert (Hgen : ∀ (f : nat -> Z),
    length (mjoin (map (fun sim => Cluster.masterPosition sim
                                     :: map Match.position (Cluster.matches sim)) sims))
    = (length sims + length (mjoin (imap (fun k sim => references_of (f k) sim) sims)))%nat).
  { induction sims as [|sim sims IH]; intros f; [done|].
    rewrite imap_cons. simpl. rewrite !length_app, (IH (f ∘ Datatypes.S)).
    unfold references_of at 2. rewrite !length_map.
    assert (Hsame : imap ((fun k sim0 => references_of (f k) sim0) ∘ Datatypes.S) sims
                    = imap (fun k sim0 => references_of ((f ∘ Datatypes.S) k) sim0) sims)
      by (by apply imap_ext).
    rewrite Hsame. lia. }
  apply Hgen.
Qed.

(** The residual list is at least the input less one sample per record. *)
Lemma residual_count data p :
  len data
  <= len (Structure.residual (createEncodedStructure data p))
     + len (Structure.masterSegments (createEncodedStructure data p))
     + len (Structure.references (createEncodedStructure data p)).
Proof.
  rewrite createEncodedStructure_closed. simpl.
  pose proof (residual_of_length data (list_to_set (start_offsets (Pattern.patterns p)))) as H1.
  pose proof (used_hits_le data (list_to_set (start_offsets (Pattern.patterns p)))) as H2.
  pose proof (size_list_to_set_le (start_offsets (Pattern.patterns p))) as H3.
  rewrite start_offsets_length in H3. unfold len. rewrite length_map. lia.
Qed.

(** ** Which stores reach an offset *)

Lemma elem_of_segment_writes p d o v :
  (o, v) ∈ segment_writes p d ↔ ∃ i : nat, d !! i = Some v ∧ o = p + Z.of_nat i.
Proof.
  unfold segment_writes. rewrite elem_of_lookup_imap. split.
  - intros (i & x & [= -> ->] & Hi). by exists i.
  - intros (i & Hi & ->). by exists i, v.
Qed.

Lemma segment_writes_range p d o :
  (∃ v, (o, v) ∈ segment_writes p d) ↔ p <= o < p + len d.
Proof.
  split.
  - intros (v & Hin). apply elem_of_segment_writes in Hin as (i & Hi & ->).
    apply lookup_lt_Some in Hi. unfold len. lia.
  - intros Ho. destruct (lookup_lt_is_Some_2 d (Z.to_nat (o - p))) as [v Hv];
      [unfold len in Ho; lia|].
    exists v. apply elem_of_segment_writes. exists (Z.to_nat (o - p)). split; [done|lia].
Qed.

Lemma elem_of_master_round references im o v :
  (o, v) ∈ master_round references im ↔
  (o, v) ∈ segment_writes (Master.position (snd im)) (Master.data (snd im))
  ∨ ∃ ref, ref ∈ references ∧ Reference.masterIndex ref = fst im
           ∧ (o, v) ∈ segment_writes (Reference.position ref) (Master.data (snd im)).
Proof.
  unfold master_round. rewrite elem_of_app, list_elem_of_join. split.
  - intros [Hm|(l & Hin & Hl)]; [by left|right].
    apply list_elem_of_fmap in Hl as (ref & -> & Href).
    apply list_elem_of_filter in Href as [Hidx Href]. by exists ref.
  - intros [Hm|(ref & Href & Hidx & Hin)]; [by left|right].
    eexists. split; [exact Hin|]. apply list_elem_of_fmap. exists ref. split; [done|].
    by apply list_elem_of_filter.
Qed.

Lemma elem_of_rounds references masters o v :
  (o, v) ∈ mjoin (map (master_round references) (imap (fun i m => (Z.of_nat i, m)) masters)) ↔
  ∃ (j : nat) m, masters !! j = Some m ∧ (o, v) ∈ master_round references (Z.of_nat j, m).
Proof.
  rewrite list_elem_of_join. split.
  - intros (l & Hin & Hl). apply list_elem_of_fmap in Hl as (im & -> & Him).
    apply elem_of_lookup_imap in Him as (j & m & -> & Hj). by exists j, m.
  - intros (j & m & Hj & Hin). eexists. split; [exact Hin|].
    apply list_elem_of_fmap. exists (Z.of_nat j, m). split; [done|].
    apply (elem_of_lookup_imap_2 (fun i m => (Z.of_nat i, m)) _ _ _ Hj).
Qed.

(** Some store of [decode_order] goes to offset [o] exactly when a record
    reaches it. *)
Lemma stored_iff_reachable structure o :
  (∃ v, (o, v) ∈ decode_order structure) ↔ reachable structure o.
Proof.
  unfold decode_order, reachable, in_master, in_reference, in_residual. split.
  - intros (v & Hin). apply elem_of_app in Hin as [Hin|Hin].
    + apply elem_of_rounds in Hin as (j & m & Hj & Hin).
      apply elem_of_master_round in Hin as [Hin|(ref & Href & Hidx & Hin)]; simpl in *.
      * left. exists m. split; [by eapply list_elem_of_lookup_2|].
        apply segment_writes_range. by exists v.
      * right. left. exists ref, m. rewrite Hidx, Nat2Z.id.
        split; [done|]. split; [lia|]. split; [done|].
        apply segment_writes_range. by exists v.
    + right. right. unfold residual_writes in Hin.
      apply list_elem_of_fmap in Hin as (res & [= -> ->] & Hres). by exists res.
  - intros [(m & Hm & Hrange)|[(ref & m & Href & Hidx & Hlook & Hrange)|(res & Hres & <-)]].
    + apply segment_writes_range in Hrange as [v Hv]. exists v.
      apply elem_of_app. left. apply list_elem_of_lookup in Hm as [j Hj].
      apply elem_of_rounds. exists j, m. split; [done|].
      apply elem_of_master_round. by left.
    + apply segment_writes_range in Hrange as [v Hv]. exists v.
      apply elem_of_app. left. apply elem_of_rounds.
      exists (Z.to_nat (Reference.masterIndex ref)), m. split; [done|].
      apply elem_of_master_round. right. exists ref. simpl.
      split; [done|]. split; [lia|done].
    + exists (Residual.value res). apply elem_of_app. right.
      unfold residual_writes. apply list_elem_of_fmap. by exists res.
Qed.

Lemma last_write_None o ws :
  last_write o ws = None ↔ ¬ ∃ v, (o, v) ∈ ws.
Proof.
  split.
  - intros Hnone (v & Hin). apply last_write_is_Some in Hin as [v' Hv']. congruence.
  - intros Hno. destruct (last_write o ws) as [v|] eqn:E; [|done].
    exfalso. apply Hno. exists v. by apply last_write_Some.
Qed.

Lemma decode_success r structure :
  Result.success r = true -> Result.encoded r = Some structure ->
  0 <= Header.originalLength (Structure.header structure) ->
  decode r = Some (decode_structure structure).
Proof.
  intros Hok Henc HL. unfold decode. rewrite Hok, Henc. simpl.
  by rewrite bool_decide_eq_false_2 by lia.
Qed.

(** X7.  For every success result whose declared length is an array length
    (at least 0 and below 2^32), [decode] returns an array of exactly that
    length (a record that points beyond it is cut, not appended), and a
    slot of it is left unset exactly when no master, reference or residual
    record reaches its offset. *)
Theorem slot_unset_iff_unreachable r structure :
  Result.success r = true ->
  Result.encoded r = Some structure ->
  0 <= Header.originalLength (Structure.header structure) < 2 ^ 32 ->
  ∃ out, decode r = Some out
         ∧ len out = Header.originalLength (Structure.header structure)
         ∧ ∀ o, 0 <= o < Header.originalLength (Structure.header structure) ->
             (out !! Z.to_nat o = Some None ↔ ¬ reachable structure o).
Proof.
  intros Hok Henc HL. exists (decode_structure structure).
  split; [apply decode_success; (done || lia)|]. split.
  - unfold len. rewrite decode_structure_length. lia.
  - intros o Ho. rewrite decode_structure_lookup by done.
    rewrite <- stored_iff_reachable, <- last_write_None.
    split; [by intros [= ->]|by intros ->].
Qed.

(** ** Stores above an offset *)

Lemma last_write_above o ws :
  Forall (fun w => o < fst w) ws -> last_write o ws = None.
Proof.
  intros Hall. apply last_write_None. intros (v & Hin).
  rewrite Forall_forall in Hall. specialize (Hall _ Hin). simpl in Hall. lia.
Qed.

Lemma segment_writes_above o p d :
  o < p -> Forall (fun w => o < fst w) (segment_writes p d).
Proof.
  intros Hop. apply Forall_forall. intros [o' v] Hin.
  apply elem_of_segment_writes in Hin as (i & _ & ->). simpl. lia.
Qed.

Lemma last_write_segment_head p v d :
  last_write p (segment_writes p (v :: d)) = Some v.
Proof.
  unfold segment_writes. rewrite imap_cons. simpl.
  rewrite last_write_above.
  - simpl. rewrite bool_decide_eq_true_2 by lia. done.
  - apply Forall_forall. intros [o' w] Hin.
    apply elem_of_lookup_imap in Hin as (i & x & [= -> ->] & _). simpl. lia.
Qed.

(** The references of a round start after its master, so the round leaves
    the master's first sample at the master's offset. *)
Lemma master_round_at references j m v d :
  Master.data m = v :: d ->
  (∀ ref, ref ∈ references -> Reference.masterIndex ref = j ->
          Master.position m < Reference.position ref) ->
  last_write (Master.position m) (master_round references (j, m)) = Some v.
Proof.
  intros Hd Hrefs. unfold master_round. simpl. rewrite last_write_app.
  rewrite last_write_above.
  - rewrite Hd. apply last_write_segment_head.
  - apply Forall_join, Forall_forall. intros l Hl.
    apply list_elem_of_fmap in Hl as (ref & -> & Href).
    apply list_elem_of_filter in Href as [Hidx Href].
    apply segment_writes_above. by apply Hrefs.
Qed.

Lemma master_round_above references j m o :
  o < Master.position m ->
  (∀ ref, ref ∈ references -> Reference.masterIndex ref = j ->
          Master.position m < Reference.position ref) ->
  Forall (fun w => o < fst w) (master_round references (j, m)).
Proof.
  intros Hom Hrefs. unfold master_round. simpl. apply Forall_app. split.
  - by apply segment_writes_above.
  - apply Forall_join, Forall_forall. intros l Hl.
    apply list_elem_of_fmap in Hl as (ref & -> & Href).
    apply list_elem_of_filter in Href as [Hidx Href].
    apply segment_writes_above. specialize (Hrefs ref Href Hidx). lia.
Qed.

(** With masters at increasing offsets and references after their
    masters, the rounds leave at a master's offset that master's first
    sample. *)
Lemma rounds_at_master references masters (k : nat) mk v d :
  StronglySorted (fun a b => Master.position a < Master.position b) masters ->
  masters !! k = Some mk -> Master.data mk = v :: d ->
  (∀ ref (j : nat) m, ref ∈ references -> Reference.masterIndex ref = Z.of_nat j ->
                      masters !! j = Some m -> Master.position m < Reference.position ref) ->
  last_write (Master.position mk)
    (mjoin (map (master_round references) (imap (fun i m => (Z.of_nat i, m)) masters)))
  = Some v.
Proof.
  intros Hsorted Hk Hd Hrefs.
  assert (Hsplit : masters = take k masters ++ mk :: drop (Datatypes.S k) masters)
    by (by rewrite take_drop_middle).
  assert (Hlen : length (take k masters) = k).
  { apply lookup_lt_Some in Hk. rewrite length_take. lia. }
  rewrite Hsplit at 1. rewrite imap_app, imap_cons, map_app, join_app. simpl.
  rewrite last_write_app, last_write_app, Hlen, Nat.add_0_r.
  rewrite last_write_above.
  - rewrite (master_round_at references (Z.of_nat k) mk v d Hd); [done|].
    intros ref Href Hidx. by apply (Hrefs ref k mk).
  - apply Forall_join, Forall_forall. intros l Hl.
    apply list_elem_of_fmap in Hl as (im & -> & Him).
    apply elem_of_lookup_imap in Him as (i & m & -> & Hi). simpl.
    assert (Hm : masters !! (Datatypes.S k + i)%nat = Some m) by (by rewrite <- lookup_drop).
    apply master_round_above.
    + rewrite Hsplit in Hsorted. apply (sorted_middle _ _ _ _ _ Hsorted).
      by eapply list_elem_of_lookup_2.
    + intros ref Href Hidx. apply (Hrefs ref (k + Datatypes.S i)%nat m Href Hidx).
      rewrite <- Hm. f_equal. lia.
Qed.

(** ** The records of a successful encode *)

Lemma slice_lookup {A} (l : list A) p S (i : nat) :
  0 <= p -> p + S <= len l -> Z.of_nat i < S ->
  slice l p (p + S) !! i = l !! Z.to_nat (p + Z.of_nat i).
Proof.
  intros Hp HS Hi. unfold slice, len in *.
  rewrite (proj2 (Z.ltb_ge p 0)) by lia.
  rewrite (proj2 (Z.ltb_ge (p + S) 0)) by lia.
  rewrite lookup_take_lt by lia. rewrite lookup_drop. f_equal. lia.
Qed.

Lemma elem_of_start_offsets sims o :
  o ∈ start_offsets sims ↔
  ∃ c, c ∈ sims ∧ (Cluster.masterPosition c = o ∨ ∃ m, m ∈ Cluster.matches c ∧ Match.position m = o).
Proof.
  unfold start_offsets. rewrite list_elem_of_join. split.
  - intros (l & Hin & Hl). apply list_elem_of_fmap in Hl as (c & -> & Hc).
    exists c. split; [done|]. apply elem_of_cons in Hin as [->|Hin]; [by left|right].
    apply list_elem_of_fmap in Hin as (m & -> & Hm). by exists m.
  - intros (c & Hc & Ho). eexists. split; [|apply list_elem_of_fmap; by exists c].
    destruct Ho as [<-|(m & Hm & <-)]; [left|right].
    apply list_elem_of_fmap. by exists m.
Qed.

(** The start offsets are the offsets of the master and reference
    records. *)
Lemma start_offsets_records data p o :
  o ∈ start_offsets (Pattern.patterns p) ↔
  (∃ m, m ∈ Structure.masterSegments (createEncodedStructure data p) ∧ Master.position m = o)
  ∨ (∃ ref, ref ∈ Structure.references (createEncodedStructure data p)
            ∧ Reference.position ref = o).
Proof.
  rewrite createEncodedStructure_closed. simpl. rewrite elem_of_start_offsets. split.
  - intros (c & Hc & [<-|(m & Hm & <-)]).
    + left. exists (master_of c). split; [|done]. apply list_elem_of_fmap. by exists c.
    + right. apply list_elem_of_lookup in Hc as [k Hk].
      eexists. split; [apply elem_of_references; by exists k, c, m|done].
  - intros [(m & Hm & <-)|(ref & Href & <-)].
    + apply list_elem_of_fmap in Hm as (c & -> & Hc). exists c. split; [done|by left].
    + apply elem_of_references in Href as (k & c & m & Hk & Hm & ->).
      exists c. split; [by eapply list_elem_of_lookup_2|]. right. by exists m.
Qed.

Lemma masters_sorted (sims : list Cluster.t) :
  StronglySorted (fun a b => Cluster.masterPosition a < Cluster.masterPosition b) sims ->
  StronglySorted (fun a b => Master.position a < Master.position b) (map master_of sims).
Proof.
  induction 1 as [|c sims Hs IH Hall]; simpl; constructor; [done|].
  apply Forall_fmap. eapply Forall_impl; [exact Hall|]. by intros c'.
Qed.

Section Coder.

Variable Math_pow : float -> float -> float.

(** X4.  In the structure of a successful [encode] the header carries the
    input length and a segment size of at least 4, the master segments are
    at strictly increasing offsets, and each one is the window of the input
    at its offset: it fits the input and holds the input's own samples. *)
Theorem masters_are_input_windows fuel data r structure :
  encode Math_pow fuel data = Some r ->
  Result.success r = true ->
  Result.encoded r = Some structure ->
  let S := Header.segmentSize (Structure.header structure) in
  4 <= S
  ∧ Header.originalLength (Structure.header structure) = len data
  ∧ StronglySorted (fun a b => Master.position a < Master.position b)
                   (Structure.masterSegments structure)
  ∧ ∀ m, m ∈ Structure.masterSegments structure ->
      0 <= Master.position m
      ∧ Master.position m + S <= len data
      ∧ Master.data m = slice data (Master.position m) (Master.position m + S).
Proof.
  intros Hrun Hok Henc.
  destruct (encode_success _ _ _ _ Hrun Hok) as (best & Hsel & Hbest).
  assert (structure = createEncodedStructure data best) as -> by congruence.
  destruct (selected_clusters _ _ _ Hsel) as [Hall Hsorted].
  rewrite createEncodedStructure_closed. simpl. split_and!.
  - by destruct Hsel.
  - done.
  - by apply masters_sorted.
  - intros m Hm. apply list_elem_of_fmap in Hm as (c & -> & Hc).
    rewrite Forall_forall in Hall. destruct (Hall c Hc) as (H0 & H1 & H2 & _).
    by simpl.
Qed.

(** X5.  In the structure of a successful [encode] every reference names a
    stored master that starts strictly before it, its own window fits the
    input, and its score is the correlation of the master's data with the
    input window at the reference's offset, above 0.99. *)
Theorem references_copy_earlier_windows fuel data r structure ref :
  encode Math_pow fuel data = Some r ->
  Result.success r = true ->
  Result.encoded r = Some structure ->
  ref ∈ Structure.references structure ->
  let S := Header.segmentSize (Structure.header structure) in
  ∃ m, 0 <= Reference.masterIndex ref
       ∧ Structure.masterSegments structure !! Z.to_nat (Reference.masterIndex ref) = Some m
       ∧ Master.position m < Reference.position ref
       ∧ Reference.position ref + S <= len data
       ∧ Reference.correlation ref
         = calculateCorrelation (Master.data m)
             (slice data (Reference.position ref) (Reference.position ref + S))
       ∧ (0.99 <? Reference.correlation ref)%float = true.
Proof.
  intros Hrun Hok Henc.
  destruct (encode_success _ _ _ _ Hrun Hok) as (best & Hsel & Hbest).
  assert (structure = createEncodedStructure data best) as -> by congruence.
  destruct (selected_clusters _ _ _ Hsel) as [Hall _].
  rewrite createEncodedStructure_closed. simpl. intros Href.
  apply elem_of_references in Href as (k & c & m & Hk & Hm & ->). simpl.
  rewrite Forall_forall in Hall.
  destruct (Hall c) as (_ & _ & _ & Hmatches); [by eapply list_elem_of_lookup_2|].
  destruct (Hmatches m Hm) as (H0 & H1 & H2 & H3).
  exists (master_of c). rewrite Nat2Z.id, list_lookup_fmap, Hk. simpl.
  split_and!; (done || lia).
Qed.

(** X6.  In the structure of a successful [encode] the residual records are
    at strictly increasing offsets, and they are exactly the input samples
    whose offset is the start offset of no master and of no reference: a
    sample inside a master or reference window is stored again as a
    residual, unless its offset is itself a start offset. *)
Theorem residual_is_the_unmarked_rest fuel data r structure :
  encode Math_pow fuel data = Some r ->
  Result.success r = true ->
  Result.encoded r = Some structure ->
  StronglySorted (fun a b => Residual.position a < Residual.position b)
                 (Structure.residual structure)
  ∧ ∀ res, res ∈ Structure.residual structure ↔
      0 <= Residual.position res
      ∧ data !! Z.to_nat (Residual.position res) = Some (Residual.value res)
      ∧ (∀ m, m ∈ Structure.masterSegments structure ->
              Master.position m ≠ Residual.position res)
      ∧ (∀ ref, ref ∈ Structure.references structure ->
                Reference.position ref ≠ Residual.position res).
Proof.
  intros Hrun Hok Henc.
  destruct (encode_success _ _ _ _ Hrun Hok) as (best & Hsel & Hbest).
  assert (structure = createEncodedStructure data best) as -> by congruence.
  split.
  - rewrite createEncodedStructure_closed. simpl. apply residual_of_sorted.
  - intros res.
    pose proof (start_offsets_records data best (Residual.position res)) as Hstart.
    rewrite createEncodedStructure_closed in *. simpl in *.
    rewrite elem_of_residual_of, elem_of_list_to_set, Hstart. split.
    + intros (H0 & H1 & H2). split_and!; try done.
      * intros m Hm Hp. apply H2. left. by exists m.
      * intros ref Href Hp. apply H2. right. by exists ref.
    + intros (H0 & H1 & H2 & H3). split_and!; try done.
      intros [(m & Hm & Hp)|(ref & Href & Hp)]; [by eapply H2|by eapply H3].
Qed.

(** ** Round trip *)


End Coder.

(** ** Round trip *)

(** The store log of the structure built from a kept pattern: every store
    carries a sample of the input, from the same offset or, for a
    reference, from the earlier window of its master. *)
Lemma stores_carry_input fuel data p o v :
  selected fuel data p ->
  (o, v) ∈ decode_order (createEncodedStructure data p) ->
  ∃ o', 0 <= o' <= o ∧ data !! Z.to_nat o' = Some v.
Proof.
  intros Hsel Hin. destruct (selected_clusters _ _ _ Hsel) as [Hall _].
  rewrite Forall_forall in Hall.
  unfold decode_order in Hin. rewrite createEncodedStructure_closed in Hin. simpl in Hin.
  apply elem_of_app in Hin as [Hin|Hin].
  - apply elem_of_rounds in Hin as (j & m & Hj & Hin).
    rewrite list_lookup_fmap in Hj.
    destruct (Pattern.patterns p !! j) as [c|] eqn:Hc; [|done].
    injection Hj as <-.
    destruct (Hall c) as (H0 & H1 & H2 & Hmatches); [by eapply list_elem_of_lookup_2|].
    apply elem_of_master_round in Hin as [Hin|(ref & Href & Hidx & Hin)]; simpl in *.
    + apply elem_of_segment_writes in Hin as (i & Hi & ->).
      exists (Cluster.masterPosition c + Z.of_nat i). split; [lia|].
      rewrite H2 in Hi. rewrite <- Hi. symmetry. apply slice_lookup; try done.
      apply lookup_lt_Some in Hi.
      pose proof (slice_length data (Cluster.masterPosition c) (Pattern.segmentSize p)) as Hlen.
      destruct Hsel as [HS _]. unfold len in Hlen at 2. lia.
    + apply elem_of_segment_writes in Hin as (i & Hi & ->).
      apply elem_of_references in Href as (k & c' & mt & Hk & Hmt & ->).
      simpl in Hidx. assert (k = j) as -> by lia.
      assert (c' = c) as -> by congruence.
      destruct (Hmatches mt Hmt) as (Hlt & _). simpl.
      exists (Cluster.masterPosition c + Z.of_nat i). split; [lia|].
      rewrite H2 in Hi. rewrite <- Hi. symmetry. apply slice_lookup; try done.
      apply lookup_lt_Some in Hi.
      pose proof (slice_length data (Cluster.masterPosition c) (Pattern.segmentSize p)) as Hlen.
      destruct Hsel as [HS _]. unfold len in Hlen at 2. lia.
  - apply residual_writes_value in Hin as (H0 & H1 & _). exists o. split; [lia|done].
Qed.

(** Every offset of the input is the target of a store. *)
Lemma stores_reach_every_offset fuel data p o :
  selected fuel data p -> 0 <= o < len data ->
  ∃ v, (o, v) ∈ decode_order (createEncodedStructure data p).
Proof.
  intros Hsel Ho. destruct (selected_clusters _ _ _ Hsel) as [Hall _].
  rewrite Forall_forall in Hall. destruct Hsel as [HS _].
  apply stored_iff_reachable. unfold reachable, in_master, in_reference, in_residual.
  destruct (decide (o ∈ start_offsets (Pattern.patterns p))) as [Hin|Hout].
  - rewrite createEncodedStructure_closed. simpl.
    apply elem_of_start_offsets in Hin as (c & Hc & Hstart).
    destruct (Hall c Hc) as (H0 & H1 & H2 & Hmatches).
    assert (Hlen : len (Cluster.masterData c) = Pattern.segmentSize p).
    { rewrite H2. apply slice_length; lia. }
    destruct Hstart as [<-|(m & Hm & <-)].
    + left. exists (master_of c). split; [apply list_elem_of_fmap; by exists c|].
      simpl. lia.
    + right. left. apply list_elem_of_lookup in Hc as [k Hk].
      exists (Reference.mk (Z.of_nat k) (Match.position m) (Match.correlation m)), (master_of c).
      simpl. rewrite Nat2Z.id, list_lookup_fmap, Hk. simpl.
      split_and!; try done; try lia.
      apply elem_of_references. by exists k, c, m.
  - right. right. rewrite createEncodedStructure_closed. simpl.
    destruct (lookup_lt_is_Some_2 data (Z.to_nat o)) as [v Hv]; [unfold len in Ho; lia|].
    exists (Residual.mk o v). split; [|done].
    apply elem_of_residual_of. simpl. split_and!; try done; try lia.
    by rewrite elem_of_list_to_set.
Qed.

(** When the window of every reference repeats the window of its master
    sample for sample, every store carries the input's own sample. *)
Lemma stores_carry_own_sample fuel data p o v :
  selected fuel data p ->
  (∀ ref m, ref ∈ Structure.references (createEncodedStructure data p) ->
            Structure.masterSegments (createEncodedStructure data p)
              !! Z.to_nat (Reference.masterIndex ref) = Some m ->
            slice data (Reference.position ref) (Reference.position ref + len (Master.data m))
            = Master.data m) ->
  (o, v) ∈ decode_order (createEncodedStructure data p) ->
  data !! Z.to_nat o = Some v.
Proof.
  intros Hsel Hrepeat Hin. destruct (selected_clusters _ _ _ Hsel) as [Hall _].
  rewrite Forall_forall in Hall. destruct Hsel as [HS _].
  unfold decode_order in Hin. rewrite createEncodedStructure_closed in *. simpl in *.
  apply elem_of_app in Hin as [Hin|Hin].
  - apply elem_of_rounds in Hin as (j & m & Hj & Hin).
    pose proof Hj as Hj'. rewrite list_lookup_fmap in Hj'.
    destruct (Pattern.patterns p !! j) as [c|] eqn:Hc; [|done].
    injection Hj' as <-.
    destruct (Hall c) as (H0 & H1 & H2 & Hmatches); [by eapply list_elem_of_lookup_2|].
    assert (Hlen : len (Cluster.masterData c) = Pattern.segmentSize p).
    { rewrite H2. apply slice_length; lia. }
    apply elem_of_master_round in Hin as [Hin|(ref & Href & Hidx & Hin)]; simpl in *.
    + apply elem_of_segment_writes in Hin as (i & Hi & ->).
      rewrite <- Hi, H2. symmetry. apply slice_lookup; try done.
      apply lookup_lt_Some in Hi. unfold len in Hlen. lia.
    + apply elem_of_segment_writes in Hin as (i & Hi & ->).
      specialize (Hrepeat ref (master_of c) Href).
      rewrite Hidx, Nat2Z.id in Hrepeat. specialize (Hrepeat Hj). simpl in Hrepeat.
      apply elem_of_references in Href as (k & c' & mt & Hk & Hmt & ->).
      simpl in *. assert (k = j) as -> by lia.
      assert (c' = c) as -> by congruence.
      destruct (Hmatches mt Hmt) as (Hlt & Hfit & _).
      rewrite <- Hi, <- Hrepeat, Hlen. symmetry. apply slice_lookup; try lia.
      apply lookup_lt_Some in Hi. unfold len in Hlen. lia.
  - by apply residual_writes_value in Hin as (_ & H1 & _).
Qed.

Lemma decode_exact_repeats fuel data p :
  selected fuel data p ->
  (∀ ref m, ref ∈ Structure.references (createEncodedStructure data p) ->
            Structure.masterSegments (createEncodedStructure data p)
              !! Z.to_nat (Reference.masterIndex ref) = Some m ->
            slice data (Reference.position ref) (Reference.position ref + len (Master.data m))
            = Master.data m) ->
  decode_structure (createEncodedStructure data p) = map Some data.
Proof.
  intros Hsel Hrepeat. apply list_eq. intros k.
  destruct (decide (k < length data)%nat) as [Hk|Hk].
  - replace k with (Z.to_nat (Z.of_nat k)) by lia.
    rewrite decode_structure_lookup
      by (rewrite createEncodedStructure_length; unfold len; lia).
    destruct (stores_reach_every_offset fuel data p (Z.of_nat k) Hsel) as [w Hw];
      [unfold len; lia|].
    destruct (last_write_is_Some _ _ _ Hw) as [v Hv]. rewrite Hv.
    apply last_write_Some in Hv.
    rewrite list_lookup_fmap, (stores_carry_own_sample _ _ _ _ _ Hsel Hrepeat Hv). done.
  - rewrite !lookup_ge_None_2; [done| |].
    + rewrite length_map. lia.
    + rewrite decode_structure_length, createEncodedStructure_length. unfold len. lia.
Qed.

Section RoundTrip.

Variable Math_pow : float -> float -> float.

(** X8.  [decode] of a successful [encode] returns an array of the input's
    length with no unset slot, and every slot holds a sample of the input,
    taken from the same or an earlier offset. *)
Theorem decoded_slots_hold_input_samples fuel data r :
  encode Math_pow fuel data = Some r ->
  Result.success r = true ->
  ∃ out, decode r = Some out
    ∧ len out = len data
    ∧ ∀ o, 0 <= o < len data ->
        ∃ v o', out !! Z.to_nat o = Some (Some v)
                ∧ 0 <= o' <= o ∧ data !! Z.to_nat o' = Some v.
Proof.
  intros Hrun Hok.
  destruct (encode_success _ _ _ _ Hrun Hok) as (best & Hsel & Hbest).
  exists (decode_structure (createEncodedStructure data best)). split_and!.
  - apply decode_success; try done. rewrite createEncodedStructure_length. apply len_nonneg.
  - unfold len at 1. rewrite decode_structure_length, createEncodedStructure_length.
    pose proof (len_nonneg data). lia.
  - intros o Ho.
    rewrite decode_structure_lookup by (by rewrite createEncodedStructure_length).
    destruct (stores_reach_every_offset _ _ _ _ Hsel Ho) as [w Hw].
    destruct (last_write_is_Some _ _ _ Hw) as [v Hv].
    destruct (stores_carry_input _ _ _ _ _ Hsel (last_write_Some _ _ _ Hv)) as (o' & Ho' & Hd).
    exists v, o'. by rewrite Hv.
Qed.

(** X9.  [decode] of a successful [encode] restores the input's own sample
    at every offset that is the start offset of a master, or the start
    offset of no reference: only at the start offset of a reference that is
    not also a master's can the decoded sample differ from the input. *)
Theorem decode_restores_outside_reference_starts fuel data r structure o :
  encode Math_pow fuel data = Some r ->
  Result.success r = true ->
  Result.encoded r = Some structure ->
  0 <= o < len data ->
  (∃ m, m ∈ Structure.masterSegments structure ∧ Master.position m = o)
  ∨ (∀ ref, ref ∈ Structure.references structure -> Reference.position ref ≠ o) ->
  ∃ out v, decode r = Some out
           ∧ data !! Z.to_nat o = Some v
           ∧ out !! Z.to_nat o = Some (Some v).
Proof.
  intros Hrun Hok Henc Ho Hcase.
  destruct (encode_success _ _ _ _ Hrun Hok) as (best & Hsel & Hbest).
  assert (structure = createEncodedStructure data best) as -> by congruence.
  destruct (lookup_lt_is_Some_2 data (Z.to_nat o)) as [v Hv]; [unfold len in Ho; lia|].
  exists (decode_structure (createEncodedStructure data best)), v. split_and!.
  - apply decode_success; try done. rewrite createEncodedStructure_length. apply len_nonneg.
  - done.
  - rewrite decode_structure_lookup by (by rewrite createEncodedStructure_length).
    f_equal.
    destruct (selected_clusters _ _ _ Hsel) as [Hall Hsorted].
    rewrite Forall_forall in Hall.
    pose proof (start_offsets_records data best o) as Hstart.
    assert (Hmaster : (∃ m, m ∈ Structure.masterSegments (createEncodedStructure data best)
                            ∧ Master.position m = o)
                      ∨ o ∉ start_offsets (Pattern.patterns best)).
    { destruct Hcase as [Hm|Hnoref]; [by left|].
      destruct (decide (o ∈ start_offsets (Pattern.patterns best))) as [Hin|Hout]; [|by right].
      apply Hstart in Hin as [Hm|(ref & Href & Hp)]; [by left|].
      by destruct (Hnoref ref Href). }
    clear Hcase. unfold decode_order. rewrite last_write_app.
    rewrite createEncodedStructure_closed in *. simpl in *.
    destruct Hmaster as [(m & Hm & Hp)|Hout].
    + assert (Hnone : last_write o (residual_writes
                (residual_of data (list_to_set (start_offsets (Pattern.patterns best))))) = None).
      { apply last_write_None. intros (w & Hw).
        apply residual_writes_value in Hw as (_ & _ & Hw). apply Hw.
        apply elem_of_list_to_set, Hstart. left. by exists m. }
      rewrite Hnone. apply list_elem_of_lookup in Hm as [k Hk].
      pose proof Hk as Hk'. rewrite list_lookup_fmap in Hk'.
      destruct (Pattern.patterns best !! k) as [c|] eqn:Hc; [|done].
      injection Hk' as <-. simpl in Hp.
      destruct (Hall c) as (H0 & H1 & H2 & _); [by eapply list_elem_of_lookup_2|].
      destruct Hsel as [HS _].
      assert (Hhead : Cluster.masterData c !! 0%nat = Some v).
      { rewrite H2, slice_lookup by lia. rewrite <- Hv. f_equal. lia. }
      destruct (Cluster.masterData c) as [|v' d] eqn:Hd; [done|].
      injection Hhead as ->. subst o.
      apply (rounds_at_master _ _ k (master_of c) v d).
      * by apply masters_sorted.
      * done.
      * done.
      * intros ref j m Href Hidx Hj.
        apply elem_of_references in Href as (k' & c' & mt & Hk'' & Hmt & ->).
        simpl in Hidx. assert (k' = j) as -> by lia.
        rewrite list_lookup_fmap, Hk'' in Hj. injection Hj as <-. simpl.
        destruct (Hall c') as (_ & _ & _ & Hmatches); [by eapply list_elem_of_lookup_2|].
        by destruct (Hmatches mt Hmt).
    + assert (Hw : (o, v) ∈ residual_writes
                (residual_of data (list_to_set (start_offsets (Pattern.patterns best))))).
      { unfold residual_writes. apply list_elem_of_fmap. exists (Residual.mk o v).
        split; [done|]. apply elem_of_residual_of. simpl.
        split_and!; try done; try lia. by rewrite elem_of_list_to_set. }
      destruct (last_write_is_Some _ _ _ Hw) as [v' Hv']. rewrite Hv'.
      apply last_write_Some, residual_writes_value in Hv' as (_ & Hv'' & _).
      congruence.
Qed.

(** X10.  When the input window of every reference repeats the data of its
    master sample for sample, [decode] of the successful [encode] returns
    the input itself. *)
Theorem exact_repeats_decode_exactly fuel data r structure :
  encode Math_pow fuel data = Some r ->
  Result.success r = true ->
  Result.encoded r = Some structure ->
  (∀ ref m, ref ∈ Structure.references structure ->
            Structure.masterSegments structure !! Z.to_nat (Reference.masterIndex ref) = Some m ->
            slice data (Reference.position ref) (Reference.position ref + len (Master.data m))
            = Master.data m) ->
  decode r = Some (map Some data).
Proof.
  intros Hrun Hok Henc Hrepeat.
  destruct (encode_success _ _ _ _ Hrun Hok) as (best & Hsel & Hbest).
  assert (structure = createEncodedStructure data best) as -> by congruence.
  rewrite <- (decode_exact_repeats _ _ _ Hsel Hrepeat).
  apply decode_success; try done. rewrite createEncodedStructure_length. apply len_nonneg.
Qed.

(** X11.  The compressed size a successful [encode] reports is at least
    8 times the original size it reports plus 44: the size estimate counts
    8 units for every sample not at a start offset, and the original size
    is the number of samples. *)
Theorem encoded_size_exceeds_input fuel data r :
  encode Math_pow fuel data = Some r ->
  Result.success r = true ->
  8 * Result.originalSize r + 44 <= Result.compressedSize r.
Proof.
  intros Hrun Hok. unfold encode in Hrun.
  destruct (detectFractalPatterns Math_pow fuel data) as [[|best rest]|] eqn:Hdet;
    simpl in Hrun; [by injection Hrun as <-| |done].
  injection Hrun as <-. simpl.
  assert (Hsel : selected fuel data best).
  { eapply detectFractalPatterns_selected; [exact Hdet|left]. }
  pose proof (residual_count data best) as Hcount.
  unfold calculateEncodedSize.
  destruct (selected_clusters _ _ _ Hsel) as [Hall _].
  destruct Hsel as (HS & segments & Hseg & Hpat & Hpos & _).
  rewrite createEncodedStructure_closed in *. simpl in *.
  assert (HM : 1 <= len (map master_of (Pattern.patterns best))).
  { unfold len in *. rewrite length_map. lia. }
  assert (HR : 1 <= len (mjoin (imap (fun k sim => references_of (Z.of_nat k) sim)
                                     (Pattern.patterns best)))).
  { destruct (Pattern.patterns best) as [|c cs] eqn:Hcs; [unfold len in Hpos; simpl in Hpos; lia|].
    assert (Hc : c ∈ findSimilarSegments segments) by (rewrite <- Hpat; left).
    apply similar_from_spec in Hc as (_ & _ & _ & _ & _ & _ & _ & _ & Hmatches).
    rewrite imap_cons. simpl. unfold len in *. rewrite length_app.
    unfold references_of at 1. rewrite length_map. lia. }
  nia.
Qed.

End RoundTrip.

(** ** The selector's size test *)

(** From segment size 4 on the step is at least 2: the product
    S * 0.618... is at least 2.47. *)
Lemma segment_step_from_4 S :
  4 <= S < 2 ^ 63 -> ∃ step, segment_step S = Int step ∧ 2 <= step.
Proof.
  intros HS. unfold segment_step, Math_floor.
  rewrite mul_spec, PHI_INV_value.
  destruct (Z2F_normal S ltac:(lia)) as (m & e & -> & Hm & He).
  assert (Hd : 2 < Zdigits2 S) by (apply Zdigits2_above; lia).
  assert (Hd' : Zdigits2 S <= 63) by (apply Zdigits2_below; lia).
  unfold SF64mul, SFmul. simpl xorb.
  set (M := Z.pos (m * 5566755282872655)).
  assert (HM : 2 ^ 104 <= M < 2 ^ 106).
  { unfold M. rewrite Pos2Z.inj_mul.
    change (2 ^ 104) with (2 ^ 52 * 2 ^ 52). change (2 ^ 106) with (2 ^ 53 * 2 ^ 53). nia. }
  assert (HD : 104 < Zdigits2 M <= 106).
  { split; [apply Zdigits2_above; lia|apply Zdigits2_below; lia]. }
  destruct (binary_round_aux_normal false M (e + -53) loc_Exact)
    as (m3 & e3 & -> & Hm3 & He3); unfold prec, emin, emax in *; try lia.
  eexists. split; [reflexivity|].
  destruct (Z.le_gt_cases 0 e3) as [Hpos|Hneg].
  - rewrite Z.shiftl_mul_pow2 by lia.
    assert (0 < 2 ^ e3) by (apply Z.pow_pos_nonneg; lia). nia.
  - rewrite Z.shiftl_div_pow2 by lia.
    apply Z.div_le_lower_bound; [apply Z.pow_pos_nonneg; lia|].
    assert (2 ^ (- e3) <= 2 ^ 51) by (apply Z.pow_le_mono_r; lia). lia.
Qed.

(** A kept pattern needs two windows of at least 4 samples, at least 2
    apart. *)
Lemma selected_needs_six fuel data p : selected fuel data p -> 6 <= len data.
Proof.
  intros Hsel. destruct (Z.le_gt_cases 6 (len data)) as [|Hshort]; [done|exfalso].
  destruct (selected_clusters _ _ _ Hsel) as [Hall _]. rewrite Forall_forall in Hall.
  destruct Hsel as (HS & segments & Hseg & Hpat & Hpos & _).
  destruct (Pattern.patterns p) as [|c cs] eqn:Hcs; [unfold len in Hpos; simpl in Hpos; lia|].
  destruct (Hall c ltac:(left)) as (H0 & H1 & _ & Hmatches).
  assert (Hc : c ∈ findSimilarSegments segments) by (rewrite <- Hpat; left).
  apply similar_from_iff in Hc as (i & si & Hi & -> & Hlen). simpl in *.
  destruct (collect_matches si _ _) as [|m ms] eqn:Hms; [unfold len in Hlen; simpl in Hlen; lia|].
  assert (Hm : m ∈ collect_matches si (0 + Z.of_nat i + 1) (drop (Datatypes.S i) segments))
    by (rewrite Hms; left).
  destruct (Hmatches m ltac:(left)) as (_ & Hfit & _).
  apply collect_matches_iff in Hm as (k & sj & Hk & -> & _). simpl in Hfit.
  rewrite lookup_drop in Hk.
  destruct (segment_step_from_4 (Pattern.segmentSize p)) as (step & Hstep & Hstep2); [lia|].
  destruct (segmentData_loop_windows _ _ _ _ _ _ Hseg Hstep ltac:(lia)) as [Hwin _].
  destruct (Hwin _ _ Hi) as [Hpi _]. destruct (Hwin _ _ Hk) as [Hpj _]. nia.
Qed.

(** ** Fuel *)

Lemma segmentData_fuel fuel fuel' data S :
  len data < 2 ^ 32 -> 4 <= S -> (length data < fuel)%nat -> (length data < fuel')%nat ->
  segmentData fuel data S = segmentData fuel' data S.
Proof.
  intros HL HS Hfuel Hfuel'.
  destruct (segmentData_returns fuel data S HL HS Hfuel) as [segs Hsegs].
  destruct (segmentData_returns fuel' data S HL HS Hfuel') as [segs' Hsegs'].
  rewrite Hsegs, Hsegs'. unfold segmentData in *.
  destruct (Nat.le_ge_cases fuel fuel') as [Hle|Hle].
  - rewrite (segmentData_loop_mono _ _ _ _ _ _ Hsegs Hle) in Hsegs'. done.
  - rewrite (segmentData_loop_mono _ _ _ _ _ _ Hsegs' Hle) in Hsegs. done.
Qed.

Lemma detect_loop_fuel Math_pow fuel fuel' data scale n :
  len data < 2 ^ 32 -> (length data < fuel)%nat -> (length data < fuel')%nat ->
  detect_loop Math_pow fuel data scale n = detect_loop Math_pow fuel' data scale n.
Proof.
  intros HL Hfuel Hfuel'. revert scale. induction n as [|n IH]; intros scale; simpl; [done|].
  destruct (Math_floor _) as [S| | |]; try done.
  case_bool_decide as HS; [done|].
  rewrite (segmentData_fuel fuel fuel' data S) by (done || lia).
  by rewrite IH.
Qed.

(** ** Scales *)

Lemma detect_loop_scales Math_pow fuel data scale n patterns :
  detect_loop Math_pow fuel data scale n = Some patterns ->
  (length patterns <= n)%nat
  ∧ ∀ p, p ∈ patterns ->
      scale <= Pattern.scale p < scale + Z.of_nat n
      ∧ Math_floor (Z2F (len data) * Math_pow PHI_INV (Z2F (Pattern.scale p)))%float
        = Int (Pattern.segmentSize p).
Proof.
  revert scale patterns. induction n as [|n IH]; intros scale patterns; simpl.
  - intros [= <-]. split; [done|]. intros p Hin. by apply elem_of_nil in Hin.
  - destruct (Math_floor _) as [S| | |] eqn:Hfloor.
    + case_bool_decide as HS.
      { intros [= <-]. split; [simpl; lia|]. intros p Hin. by apply elem_of_nil in Hin. }
      destruct (segmentData fuel data S) as [segments|] eqn:Hseg; [|done]. simpl.
      destruct (detect_loop Math_pow fuel data (scale + 1) n) as [rest|] eqn:Hrest; [|done].
      simpl. intros [= <-]. destruct (IH _ _ Hrest) as [Hlen Hall].
      case_bool_decide as Hne.
      * split; [simpl; lia|]. intros p Hin.
        apply elem_of_cons in Hin as [->|Hin]; [simpl; split; [lia|done]|].
        destruct (Hall p Hin). split; [lia|done].
      * split; [lia|]. intros p Hin. destruct (Hall p Hin). split; [lia|done].
    + intros Hrest. destruct (IH _ _ Hrest) as [Hlen Hall].
      split; [lia|]. intros p Hin. destruct (Hall p Hin). split; [lia|done].
    + intros Hrest. destruct (IH _ _ Hrest) as [Hlen Hall].
      split; [lia|]. intros p Hin. destruct (Hall p Hin). split; [lia|done].
    + intros [= <-]. split; [simpl; lia|]. intros p Hin. by apply elem_of_nil in Hin.
Qed.

Section Selection.

Variable Math_pow : float -> float -> float.

(** X12.  An input of fewer than 6 samples is always refused: [encode]
    returns the failure result, whatever [Math.pow] returns.  A pattern is
    kept only with two windows of at least 4 samples, and their offsets are
    at least 2 apart. *)
Theorem short_input_is_refused fuel data :
  len data < 6 -> (length data < fuel)%nat ->
  encode Math_pow fuel data
  = Some (Result.mk false (Some "No suitable fractal patterns found"%string) None
                    (len data) (len data) 0%float None None).
Proof.
  intros Hshort Hfuel.
  destruct (encode_returns Math_pow fuel data) as [r Hr]; [lia|done|].
  destruct (Result.success r) eqn:Hok.
  - destruct (encode_success _ _ _ _ Hr Hok) as (best & Hsel & _).
    apply selected_needs_six in Hsel. lia.
  - apply (encode_success_iff _ _ _ _ Hr) in Hok. unfold encode. by rewrite Hok.
Qed.

(** X13.  [encode] returns on every array: for an input of fewer than 2^32
    samples there is a result that every run with enough fuel yields.  The
    selector hands the segmenter segment sizes from 4 on only, for which
    the step is positive. *)
Theorem encode_terminates data :
  len data < 2 ^ 32 ->
  ∃ r, ∀ fuel, (length data < fuel)%nat -> encode Math_pow fuel data = Some r.
Proof.
  intros HL.
  destruct (encode_returns Math_pow (Datatypes.S (length data)) data HL ltac:(lia)) as [r Hr].
  exists r. intros fuel Hfuel. rewrite <- Hr. unfold encode, detectFractalPatterns.
  by rewrite (detect_loop_fuel Math_pow fuel (Datatypes.S (length data)) data 1 8 HL Hfuel)
    by lia.
Qed.

(** X14.  A success result carries no message, a scale between 1 and 8 that
    is also the header's, a count of found patterns between 1 and 8, a
    segment size that is floor(L * pow(PHI_INV, scale)), the ratio estimate
    of the clusters found at that size, the input length as original size
    and the size estimate of the structure as compressed size. *)
Theorem success_result_fields fuel data r :
  encode Math_pow fuel data = Some r ->
  Result.success r = true ->
  ∃ structure scale count segments,
    Result.encoded r = Some structure
    ∧ Result.message r = None
    ∧ Result.goldenRatioScale r = Some scale
    ∧ Result.patterns r = Some count
    ∧ 1 <= scale <= 8
    ∧ 1 <= count <= 8
    ∧ Header.scale (Structure.header structure) = scale
    ∧ Math_floor (Z2F (len data) * Math_pow PHI_INV (Z2F scale))%float
      = Int (Header.segmentSize (Structure.header structure))
    ∧ segmentData fuel data (Header.segmentSize (Structure.header structure)) = Some segments
    ∧ Result.compressionRatio r
      = calculateCompressionRatio (findSimilarSegments segments)
          (Header.segmentSize (Structure.header structure))
    ∧ Result.originalSize r = len data
    ∧ Result.compressedSize r = calculateEncodedSize structure.
Proof.
  unfold encode, detectFractalPatterns.
  destruct (detect_loop Math_pow fuel data 1 8) as [found|] eqn:Hrun; [|done]. simpl.
  destruct (sort_patterns found) as [|best rest] eqn:Hsort; [by intros [= <-]|].
  intros [= <-] _. simpl.
  assert (Hin : best ∈ found) by (rewrite <- elem_of_sort_patterns, Hsort; left).
  destruct (detect_loop_scales _ _ _ _ _ _ Hrun) as [Hlen Hall].
  destruct (Hall best Hin) as [Hscale Hfloor].
  destruct (detect_loop_selected _ _ _ _ _ _ _ Hrun Hin) as (_ & segments & Hseg & Hpat & _ & Hratio).
  exists (createEncodedStructure data best), (Pattern.scale best),
    (len (best :: rest)), segments.
  split_and!; try done; try lia.
  - unfold len. simpl. lia.
  - rewrite <- Hsort. unfold len. rewrite sort_patterns_length. lia.
  - by rewrite <- Hpat.
Qed.

End Selection.

(** ** Fibonacci terms *)

Lemma js_put_length fib i v :
  i = len fib -> i < 2 ^ 32 - 1 -> len (js_put fib i v) = i + 1.
Proof.
  intros Hi Hlt. unfold js_put. rewrite bool_decide_eq_false_2 by lia.
  rewrite bool_decide_eq_true_2 by lia. rewrite len_app. unfold len in *. simpl. lia.
Qed.

Lemma fibonacci_loop_length count i fib :
  i = len fib -> len fib + Z.of_nat count <= 2 ^ 32 - 1 ->
  len (fibonacci_loop count i fib) = len fib + Z.of_nat count.
Proof.
  revert i fib. induction count as [|count IH]; intros i fib Hi Hmax; simpl; [lia|].
  pose proof (js_put_length fib i (js_get fib (i - 1) + js_get fib (i - 2))%float Hi
                ltac:(lia)) as Hput.
  rewrite IH by lia. lia.
Qed.

(** X15.  [fibonacci(n)] returns [n] terms for a positive integer [n] below
    2^32, and the empty array for [n <= 0].  (An array has fewer than 2^32
    elements.) *)
Theorem fibonacci_length n : n < 2 ^ 32 -> len (fibonacci n) = Z.max n 0.
Proof.
  intros Hn. unfold fibonacci. case_bool_decide as H0; [unfold len; simpl; lia|].
  case_bool_decide as H1; [unfold len; simpl; lia|].
  rewrite fibonacci_loop_length by (unfold len; simpl; (done || lia)).
  unfold len. simpl. lia.
Qed.









(** ** Error metrics *)

Lemma SFeqb_refl x : x ≠ S754_nan -> SFeqb x x = true.
Proof.
  destruct x as [s|s| |s m e]; intros Hx; try done; unfold SFeqb; simpl.
  - by destruct s.
  - destruct s; rewrite Z.compare_refl, Pos.compare_cont_refl; done.
Qed.

(** A number that is kept by [|| 0] is subtracted from itself, a zero is
    replaced by 0: either way the squared difference adds nothing. *)
Lemma mse_step_same v : is_number v -> mse_step 0 (v, Some v) = 0%float.
Proof.
  unfold is_number, mse_step, or_zero, is_nan. simpl. intros Hv.
  rewrite !FloatAxioms.eqb_spec.
  apply Prim2SF_inj.
  destruct (Prim2SF v) as [s|s| |s m e] eqn:E; try done.
  - change (Prim2SF 0) with (S754_zero false). simpl.
    rewrite add_spec, mul_spec, sub_spec, E.
    change (Prim2SF 0) with (S754_zero false). by destruct s.
  - change (Prim2SF 0) with (S754_zero false).
    rewrite SFeqb_refl by done.
    replace (SFeqb (S754_finite s m e) (S754_zero false)) with false
      by (by destruct s).
    simpl. rewrite add_spec, mul_spec, sub_spec, E.
    change (Prim2SF 0) with (S754_zero false).
    unfold SF64sub, SFsub. rewrite Z.sub_diag. reflexivity.
Qed.

Lemma mse_sum_same original :
  Forall is_number original ->
  foldl mse_step 0%float (zip original (map Some original)) = 0%float.
Proof.
  induction 1 as [|v original Hv Hall IH]; simpl; [done|].
  by rewrite mse_step_same.
Qed.

Lemma calculateMSE_same original :
  original ≠ [] -> len original < 2 ^ 63 -> Forall is_number original ->
  calculateMSE original (map Some original) = 0%float.
Proof.
  intros Hne HL Hall. unfold calculateMSE.
  rewrite bool_decide_eq_false_2 by (unfold len; rewrite length_map; lia).
  rewrite mse_sum_same by done.
  apply Prim2SF_inj. rewrite div_spec.
  destruct (Z2F_normal (len original)) as (m & e & -> & _).
  { destruct original; [done|]. unfold len in *. simpl in *. lia. }
  reflexivity.
Qed.

Section Lossless.

Variable Math_max : list float -> option float.
Variable Math_log10 : float -> float.

(** X18.  For a non-empty original of numbers (no NaN, no infinity) and a
    decoded array that holds the same samples, [calculateMSE] is 0 and
    [calculatePSNR] is Infinity. *)
Theorem exact_reconstruction_has_no_error original :
  original ≠ [] -> len original < 2 ^ 63 -> Forall is_number original ->
  calculateMSE original (map Some original) = 0%float
  ∧ calculatePSNR Math_max Math_log10 original (map Some original) = Some infinity.
Proof.
  intros Hne HL Hall. unfold calculatePSNR.
  rewrite calculateMSE_same by done. done.
Qed.

End Lossless.

(** ** The sign of the error *)

Lemma SFmul_self x : SF64mul x x = S754_nan ∨ signed false (SF64mul x x).
Proof.
  destruct x as [s|s| |s m e]; simpl.
  - right. by destruct s.
  - right. by destruct s.
  - by left.
  - right. unfold SF64mul, SFmul. rewrite xorb_nilpotent.
    apply binary_round_aux_signed. lia.
Qed.

Lemma binary_normalize_nonneg z e :
  0 <= z -> signed false (binary_normalize prec emax z e false).
Proof.
  intros H. destruct z as [|p|p]; simpl; try reflexivity; try lia.
  unfold binary_round. destruct (shl_align _ _ _) as [mz ez].
  apply binary_round_aux_signed. lia.
Qed.

Lemma SFadd_signed x y :
  x = S754_nan ∨ signed false x -> y = S754_nan ∨ signed false y ->
  SF64add x y = S754_nan ∨ signed false (SF64add x y).
Proof.
  intros [->|Hx]; [by left|]. intros [->|Hy]; [left; by destruct x|].
  destruct x as [sx|sx| |sx mx ex], y as [sy|sy| |sy my ey]; simpl in *; subst;
    try (right; reflexivity); try contradiction.
  right. unfold SF64add, SFadd. apply binary_normalize_nonneg. simpl. lia.
Qed.

Lemma mse_sum_signed ods sum :
  Prim2SF sum = S754_nan ∨ signed false (Prim2SF sum) ->
  Prim2SF (foldl mse_step sum ods) = S754_nan
  ∨ signed false (Prim2SF (foldl mse_step sum ods)).
Proof.
  revert sum. induction ods as [|od ods IH]; intros sum Hsum; simpl; [done|].
  apply IH. unfold mse_step. rewrite add_spec, mul_spec.
  apply SFadd_signed; [done|apply SFmul_self].
Qed.

(** X19.  [calculateMSE] is never below zero: it is Infinity for arrays of
    different lengths, and otherwise a sum of squares over the length,
    which is not negative (it can be NaN). *)
Theorem calculateMSE_is_not_negative original decoded :
  (calculateMSE original decoded <? 0)%float = false.
Proof.
  unfold calculateMSE. case_bool_decide; [reflexivity|].
  rewrite ltb_spec, div_spec. apply not_below_zero.
  destruct (mse_sum_signed (zip original decoded) 0%float) as [Hnan|Hsigned].
  - right. reflexivity.
  - left. rewrite Hnan. reflexivity.
  - apply SFdiv_signed; [done|]. apply Z2F_signed, len_nonneg.
Qed.

(** ** The metrics of an exact round trip *)

Section Analysis.

Variable Math_pow : float -> float -> float.
Variable Math_max : list float -> option float.
Variable Math_log10 : float -> float.

(** X20.  For an input of numbers whose reference windows repeat their
    masters sample for sample, the error metrics of the decoded successful
    [encode] are those of an exact reconstruction: mean squared error 0 and
    peak signal-to-noise ratio Infinity. *)
Theorem exact_repeats_have_zero_error fuel data r structure :
  encode Math_pow fuel data = Some r ->
  Result.success r = true ->
  Result.encoded r = Some structure ->
  (∀ ref m, ref ∈ Structure.references structure ->
            Structure.masterSegments structure !! Z.to_nat (Reference.masterIndex ref) = Some m ->
            slice data (Reference.position ref) (Reference.position ref + len (Master.data m))
            = Master.data m) ->
  len data < 2 ^ 63 -> Forall is_number data ->
  ∃ decoded, decode r = Some decoded
             ∧ calculateMSE data decoded = 0%float
             ∧ calculatePSNR Math_max Math_log10 data decoded = Some infinity.
Proof.
  intros Hrun Hok Henc Hrepeat HL Hall.
  destruct (encode_success _ _ _ _ Hrun Hok) as (best & Hsel & Hbest).
  assert (structure = createEncodedStructure data best) as -> by congruence.
  exists (map Some data).
  assert (Hne : data ≠ []).
  { intros ->. apply selected_needs_six in Hsel. unfold len in Hsel. simpl in Hsel. lia. }
  split_and!.
  - rewrite <- (decode_exact_repeats _ _ _ Hsel Hrepeat).
    apply decode_success; try done. rewrite createEncodedStructure_length. apply len_nonneg.
  - by apply calculateMSE_same.
  - unfold calculatePSNR. by rewrite calculateMSE_same.
Qed.

End Analysis.

(** ** The order of doubles *)

Lemma SFleb_rank x y :
  x ≠ S754_nan -> y ≠ S754_nan -> (SFleb x y = true ↔ lex_le (rank x) (rank y)).
Proof.
  intros Hx Hy. unfold SFleb, lex_le.
  destruct x as [sx|sx| |sx mx ex], y as [sy|sy| |sy my ey]; try done; simpl;
    try (destruct sx; simpl; split; (done || lia));
    try (destruct sy; simpl; split; (done || lia));
    try (destruct sx, sy; simpl; split; (done || lia)).
  destruct sx, sy; simpl; try (split; (done || lia)).
  - destruct (Z.compare_spec ex ey) as [->|Hlt|Hgt]; simpl; try (split; (done || lia)).
    rewrite Pos.compare_cont_spec. simpl.
    destruct (Pos.compare_spec mx my) as [->|Hm|Hm]; simpl; split; (done || lia).
  - destruct (Z.compare_spec ex ey) as [->|Hlt|Hgt]; simpl; try (split; (done || lia)).
    rewrite Pos.compare_cont_spec. simpl.
    destruct (Pos.compare_spec mx my) as [->|Hm|Hm]; simpl; split; (done || lia).
Qed.

Lemma SFltb_rank x y :
  x ≠ S754_nan -> y ≠ S754_nan -> (SFltb x y = true ↔ lex_lt (rank x) (rank y)).
Proof.
  intros Hx Hy. unfold SFltb, lex_lt.
  destruct x as [sx|sx| |sx mx ex], y as [sy|sy| |sy my ey]; try done; simpl;
    try (destruct sx; simpl; split; (done || lia));
    try (destruct sy; simpl; split; (done || lia));
    try (destruct sx, sy; simpl; split; (done || lia)).
  destruct sx, sy; simpl; try (split; (done || lia)).
  - destruct (Z.compare_spec ex ey) as [->|Hlt|Hgt]; simpl; try (split; (done || lia)).
    rewrite Pos.compare_cont_spec. simpl.
    destruct (Pos.compare_spec mx my) as [->|Hm|Hm]; simpl; split; (done || lia).
  - destruct (Z.compare_spec ex ey) as [->|Hlt|Hgt]; simpl; try (split; (done || lia)).
    rewrite Pos.compare_cont_spec. simpl.
    destruct (Pos.compare_spec mx my) as [->|Hm|Hm]; simpl; split; (done || lia).
Qed.

Lemma SFleb_refl x : x ≠ S754_nan -> SFleb x x = true.
Proof. intros Hx. apply SFleb_rank; try done. unfold lex_le. lia. Qed.

Lemma SFleb_trans x y z :
  x ≠ S754_nan -> y ≠ S754_nan -> z ≠ S754_nan ->
  SFleb x y = true -> SFleb y z = true -> SFleb x z = true.
Proof.
  intros Hx Hy Hz. rewrite !SFleb_rank by done. unfold lex_le. lia.
Qed.

Lemma SFltb_leb x y :
  x ≠ S754_nan -> y ≠ S754_nan -> SFltb x y = true -> SFleb x y = true.
Proof.
  intros Hx Hy. rewrite SFltb_rank, SFleb_rank by done. unfold lex_lt, lex_le. lia.
Qed.

Lemma SFltb_false_leb x y :
  x ≠ S754_nan -> y ≠ S754_nan -> SFltb x y = false -> SFleb y x = true.
Proof.
  intros Hx Hy Hlt. apply SFleb_rank; try done.
  assert (Hn : ¬ lex_lt (rank x) (rank y)).
  { intros H. apply SFltb_rank in H; try done. congruence. }
  unfold lex_lt, lex_le in *. lia.
Qed.

(** ** The sign of a difference *)

(** What validity says of a finite double: at most 53 bits of mantissa,
    and all 53 above the least exponent. *)
Lemma valid_finite s m e :
  valid_binary (S754_finite s m e) = true ->
  emin <= e ∧ Z.pos m < 2 ^ 53 ∧ (emin < e -> 2 ^ 52 <= Z.pos m).
Proof.
  unfold valid_binary, bounded, canonical_mantissa, fexp. intros H.
  apply andb_true_iff in H as [H _]. apply Z.eqb_eq in H.
  pose proof (digits2_pos_bounds m) as [Hlo Hhi].
  unfold emin, SpecFloat.emin, prec, emax in *.
  split; [lia|]. split.
  - assert (Z.pos (digits2_pos m) <= 53) by lia.
    assert (2 ^ Z.pos (digits2_pos m) <= 2 ^ 53) by (apply Z.pow_le_mono_r; lia). lia.
  - intros He. assert (Z.pos (digits2_pos m) = 53) as Hd by lia.
    rewrite Hd in Hlo. exact Hlo.
Qed.

Lemma shl_align_value m e ez :
  ez <= e -> Z.pos (fst (shl_align m e ez)) = Z.pos m * 2 ^ (e - ez).
Proof.
  intros Hle. unfold shl_align.
  destruct (ez - e) as [|d|d] eqn:E; simpl.
  - replace (e - ez) with 0 by lia. lia.
  - lia.
  - rewrite iter_xO_value. f_equal. f_equal. lia.
Qed.

Lemma shl_align_exponent m e ez :
  snd (shl_align m e ez) = Z.min e ez.
Proof.
  unfold shl_align. destruct (ez - e) as [|d|d] eqn:E; simpl; lia.
Qed.

(** Above the least exponent a positive mantissa is not rounded away. *)
Lemma shr_fexp_positive m e l :
  0 < m -> emin <= e ->
  0 < shr_m (fst (shr_fexp prec emax m e l)) ∧ emin <= snd (shr_fexp prec emax m e l).
Proof.
  intros Hm He.
  destruct (Z.le_gt_cases prec (Zdigits2 m)) as [Hd|Hd].
  - destruct (shr_fexp_normal m e l Hm Hd) as [Hr He'].
    { unfold prec, emin in *. lia. }
    rewrite Hr, He'. pose proof (cut_to_prec m Hm Hd). unfold prec, emin in *. lia.
  - unfold shr_fexp, fexp.
    assert (Hrec : shr_m (shr_record_of_loc m l) = m) by (destruct l as [|[]]; reflexivity).
    unfold shr.
    destruct (Z.max (Zdigits2 m + e - prec) (SpecFloat.emin prec emax) - e) as [|n|n] eqn:En;
      simpl; rewrite ?Hrec; try (split; [lia|exact He]).
    unfold emin, SpecFloat.emin, prec, emax in *. lia.
Qed.

Lemma binary_round_aux_nonzero s m e l :
  0 < m -> emin <= e ->
  (∃ m' e', binary_round_aux prec emax s m e l = S754_finite s m' e')
  ∨ binary_round_aux prec emax s m e l = S754_infinity s.
Proof.
  intros Hm He. unfold binary_round_aux.
  destruct (shr_fexp_positive m e l Hm He) as [H1 He1].
  destruct (shr_fexp prec emax m e l) as [mrs' e'] eqn:E1. simpl in H1, He1.
  pose proof (round_nearest_even_bounds (shr_m mrs') (loc_of_shr_record mrs')) as [Hr _].
  destruct (shr_fexp_positive (round_nearest_even (shr_m mrs') (loc_of_shr_record mrs'))
              e' loc_Exact ltac:(lia) He1) as [H2 _].
  destruct (shr_fexp prec emax (round_nearest_even _ _) e' loc_Exact) as [mrs'' e''] eqn:E2.
  simpl in H2. destruct (shr_m mrs'') as [|p|p]; try lia.
  destruct (_ <=? _); [left; by eexists _, _|by right].
Qed.

Lemma binary_round_nonzero s p e :
  emin <= e ->
  (∃ m' e', binary_round prec emax s p e = S754_finite s m' e')
  ∨ binary_round prec emax s p e = S754_infinity s.
Proof.
  intros He. unfold binary_round.
  pose proof (shl_align_exponent p e (fexp prec emax (Z.pos (digits2_pos p) + e))) as Hex.
  destruct (shl_align p e _) as [mz ez]. simpl in Hex.
  apply binary_round_aux_nonzero; [lia|].
  unfold fexp, emin, SpecFloat.emin, prec, emax in *. lia.
Qed.

(** Above the least exponent the sign of the rounded integer is the sign
    of the integer. *)
Lemma binary_normalize_below_zero d e :
  emin <= e ->
  SFltb (binary_normalize prec emax d e false) (S754_zero false) = (d <? 0).
Proof.
  intros He. destruct d as [|p|p]; simpl binary_normalize.
  - reflexivity.
  - change (Z.pos p <? 0) with false. apply not_below_zero. right.
    unfold binary_round. destruct (shl_align _ _ _) as [mz ez].
    apply binary_round_aux_signed. lia.
  - change (Z.neg p <? 0) with true.
    destruct (binary_round_nonzero true p e He) as [(m' & e' & ->)| ->]; reflexivity.
Qed.

(** The difference of two doubles is below zero exactly when the first is
    below the second. *)
Lemma SFsub_below_zero x y :
  valid_binary x = true -> valid_binary y = true ->
  x ≠ S754_nan -> y ≠ S754_nan ->
  SFltb (SF64sub x y) (S754_zero false) = SFltb x y.
Proof.
  intros Vx Vy Hx Hy.
  destruct x as [sx|sx| |sx mx ex], y as [sy|sy| |sy my ey]; try done;
    try (destruct sx; reflexivity); try (destruct sy; reflexivity);
    try (destruct sx, sy; reflexivity).
  destruct (valid_finite _ _ _ Vx) as (Hex & Hmx & Hnx).
  destruct (valid_finite _ _ _ Vy) as (Hey & Hmy & Hny).
  unfold SF64sub, SFsub.
  rewrite binary_normalize_below_zero by lia.
  rewrite !shl_align_value by lia.
  unfold SFltb, SFcompare.
  assert (Hpx : 0 < 2 ^ (ex - Z.min ex ey)) by (apply Z.pow_pos_nonneg; lia).
  assert (Hpy : 0 < 2 ^ (ey - Z.min ex ey)) by (apply Z.pow_pos_nonneg; lia).
  assert (Hup : ∀ a b, a < b -> 2 <= 2 ^ (b - Z.min a b)).
  { intros a b Hab. replace (b - Z.min a b) with (Z.succ (b - a - 1)) by lia.
    rewrite Z.pow_succ_r by lia.
    assert (0 < 2 ^ (b - a - 1)) by (apply Z.pow_pos_nonneg; lia). lia. }
  assert (Hsame : ∀ a b, a <= b -> 2 ^ (a - Z.min a b) = 1).
  { intros a b Hab. replace (a - Z.min a b) with 0 by lia. done. }
  destruct sx, sy; simpl cond_Zopp.
  - destruct (Z.compare_spec ex ey) as [->|Hlt|Hgt].
    + rewrite Pos.compare_cont_spec. simpl. rewrite !Hsame by lia.
      destruct (Pos.compare_spec mx my) as [->|Hm|Hm]; simpl; lia.
    + specialize (Hup ex ey Hlt). rewrite (Hsame ex ey) by lia.
      specialize (Hny ltac:(lia)). simpl. nia.
    + specialize (Hup ey ex Hgt). rewrite Z.min_comm in Hup.
      rewrite (Z.min_comm ex ey), (Hsame ey ex) by lia. rewrite Z.min_comm.
      specialize (Hnx ltac:(lia)). simpl. nia.
  - simpl. nia.
  - simpl. nia.
  - destruct (Z.compare_spec ex ey) as [->|Hlt|Hgt].
    + rewrite Pos.compare_cont_spec. simpl. rewrite !Hsame by lia.
      destruct (Pos.compare_spec mx my) as [->|Hm|Hm]; simpl; lia.
    + specialize (Hup ex ey Hlt). rewrite (Hsame ex ey) by lia.
      specialize (Hny ltac:(lia)). simpl. nia.
    + specialize (Hup ey ex Hgt). rewrite Z.min_comm in Hup.
      rewrite (Z.min_comm ex ey), (Hsame ey ex) by lia. rewrite Z.min_comm.
      specialize (Hnx ltac:(lia)). simpl. nia.
Qed.

(** ** The estimate is a number *)

Lemma signed_not_nan s x : signed s x -> x ≠ S754_nan.
Proof. by destruct x. Qed.

Lemma Z2F_not_nan z : Prim2SF (Z2F z) ≠ S754_nan.
Proof.
  unfold Z2F. destruct (z <? 0).
  - rewrite opp_spec, of_uint63_spec.
    pose proof (binary_normalize_signed (Uint63.to_Z (Uint63.of_Z (- z)))
                  (proj1 (Uint63.to_Z_bounded _))) as H.
    destruct (binary_normalize _ _ _ _ _); simpl in *; done.
  - rewrite of_uint63_spec. eapply signed_not_nan, binary_normalize_signed.
    apply Uint63.to_Z_bounded.
Qed.

Lemma SFdiv_by_finite_not_nan x m e :
  x ≠ S754_nan -> SF64div x (S754_finite false m e) ≠ S754_nan.
Proof.
  destruct x as [sx|sx| |sx mx ex]; try done. intros _.
  unfold SF64div, SFdiv.
  destruct (SFdiv_core_binary prec emax (Z.pos mx) ex (Z.pos m) e) as [[mz ez] lz] eqn:E.
  eapply signed_not_nan, binary_round_aux_signed.
  unfold SFdiv_core_binary in E.
  set (m' := match _ - _ - _ with Z0 => _ | Zpos _ => _ | Zneg _ => _ end) in E.
  assert (Hm' : 0 <= m').
  { subst m'. destruct (_ - _ - _); try lia. apply Z.shiftl_nonneg. lia. }
  pose proof (Z_div_mod m' (Z.pos m) ltac:(lia)) as Hdiv.
  destruct (Z.div_eucl m' (Z.pos m)) as [q r]. injection E as <- _ _.
  nia.
Qed.

Lemma ratio_is_a_number sims S :
  totalOriginal sims S < 2 ^ 63 ->
  Prim2SF (calculateCompressionRatio sims S) ≠ S754_nan.
Proof.
  intros Hbound. rewrite calculateCompressionRatio_closed. unfold ratio_with_cost.
  destruct (0 <? totalOriginal sims S) eqn:E; [|done].
  apply Z.ltb_lt in E. rewrite div_spec.
  destruct (Z2F_normal (totalOriginal sims S)) as (m & e & -> & _); [lia|].
  apply SFdiv_by_finite_not_nan, Z2F_not_nan.
Qed.

(** ** How large the totals get *)

Lemma sorted_positions_length segs lo hi :
  Forall (fun seg => lo <= Segment.position seg < hi) segs ->
  StronglySorted (fun a b => Segment.position a < Segment.position b) segs ->
  len segs <= Z.max 0 (hi - lo).
Proof.
  revert lo. induction segs as [|s segs IH]; intros lo Hall Hs; [unfold len; simpl; lia|].
  apply Forall_cons in Hall as [H0 Hall].
  apply StronglySorted_inv in Hs as [Hs Hlt].
  specialize (IH (Segment.position s + 1)).
  unfold len in *. simpl. rewrite Nat2Z.inj_succ.
  assert (Z.of_nat (length segs) <= Z.max 0 (hi - (Segment.position s + 1))).
  { apply IH; [|done]. apply Forall_forall. intros x Hx.
    rewrite Forall_forall in Hall, Hlt. specialize (Hall x Hx). specialize (Hlt x Hx). lia. }
  lia.
Qed.

Lemma collect_matches_length master j later :
  len (collect_matches master j later) <= len later.
Proof.
  revert j. induction later as [|s later IH]; intros j; [done|].
  rewrite collect_matches_cons. specialize (IH (j + 1)).
  unfold len in *. destruct (_ <? _)%float; simpl; lia.
Qed.

Lemma similar_from_total i segments S :
  0 <= S ->
  len (similar_from i segments) <= len segments
  ∧ totalOriginal (similar_from i segments) S <= len segments * (S * len segments).
Proof.
  intros HS. revert i. induction segments as [|s later IH]; intros i; simpl.
  - unfold totalOriginal, len. simpl. lia.
  - destruct (IH (i + 1)) as [IH1 IH2].
    pose proof (collect_matches_length s (i + 1) later) as Hm.
    pose proof (len_nonneg later) as Hl.
    assert (Hcons : len (s :: later) = len later + 1) by (unfold len; simpl; lia).
    rewrite Hcons. case_bool_decide.
    + unfold totalOriginal in *. simpl. unfold len at 1. simpl. fold (len (similar_from (i + 1) later)).
      split; [unfold len in *; lia|]. nia.
    + split; [lia|]. nia.
Qed.

Lemma selected_total fuel data p :
  selected fuel data p -> len data < 2 ^ 21 ->
  totalOriginal (Pattern.patterns p) (Pattern.segmentSize p) < 2 ^ 63.
Proof.
  intros (HS & segments & Hseg & Hpat & _ & _) HL.
  apply segmentData_loop_spec in Hseg as [Hall Hsorted].
  rewrite Hpat. unfold findSimilarSegments.
  destruct (similar_from_total 0 segments (Pattern.segmentSize p) ltac:(lia)) as [_ Htotal].
  assert (Hn : len segments <= Z.max 0 (len data - Pattern.segmentSize p + 1 - 0)).
  { apply sorted_positions_length; [|done].
    eapply Forall_impl; [exact Hall|]. simpl. intros seg (? & ? & _). lia. }
  pose proof (len_nonneg segments) as Hn0.
  destruct (decide (len segments = 0)) as [Hz|Hnz].
  { rewrite Hz in Htotal. lia. }
  assert (HSL : Pattern.segmentSize p <= len data) by lia.
  assert (Hn' : len segments <= len data) by lia.
  assert (H21 : len data <= 2 ^ 21 - 1) by lia.
  assert (len segments * (Pattern.segmentSize p * len segments)
          <= (2 ^ 21 - 1) * ((2 ^ 21 - 1) * (2 ^ 21 - 1))).
  { apply Z.mul_le_mono_nonneg; try lia. apply Z.mul_le_mono_nonneg; lia. }
  lia.
Qed.

(** ** The sort puts the highest estimate first *)

Lemma comparator_below_zero q p :
  Prim2SF (Pattern.compressionRatio p) ≠ S754_nan ->
  Prim2SF (Pattern.compressionRatio q) ≠ S754_nan ->
  (comparator q p <? 0)%float
  = (Pattern.compressionRatio p <? Pattern.compressionRatio q)%float.
Proof.
  intros Hp Hq. unfold comparator. rewrite !ltb_spec, sub_spec.
  change (Prim2SF 0) with (S754_zero false).
  apply SFsub_below_zero; (done || apply Prim2SF_valid).
Qed.

Lemma sort_patterns_top l :
  Forall (fun p => Prim2SF (Pattern.compressionRatio p) ≠ S754_nan) l ->
  match sort_patterns l with
  | [] => l = []
  | best :: _ =>
    ∀ p, p ∈ l -> (Pattern.compressionRatio p <=? Pattern.compressionRatio best)%float = true
  end.
Proof.
  induction 1 as [|p l Hp Hall IH]; simpl; [done|].
  rewrite Forall_forall in Hall.
  destruct (sort_patterns l) as [|h t] eqn:Hs.
  - subst l. simpl. intros x Hx. apply list_elem_of_singleton in Hx as ->.
    rewrite leb_spec. by apply SFleb_refl.
  - assert (Hh : Prim2SF (Pattern.compressionRatio h) ≠ S754_nan).
    { apply Hall. rewrite <- elem_of_sort_patterns, Hs. left. }
    simpl. rewrite comparator_below_zero by done.
    destruct (Pattern.compressionRatio p <? Pattern.compressionRatio h)%float eqn:Hlt;
      rewrite ltb_spec in Hlt; intros x Hx; rewrite leb_spec;
      apply elem_of_cons in Hx as [->|Hx].
    + by apply SFltb_leb.
    + specialize (IH x Hx). by rewrite leb_spec in IH.
    + by apply SFleb_refl.
    + specialize (IH x Hx). rewrite leb_spec in IH.
      eapply SFleb_trans; [| |  |exact IH|]; try done; [by apply Hall|].
      by apply SFltb_false_leb.
Qed.

Lemma sort_insert_perm p l : sort_insert p l ≡ₚ p :: l.
Proof.
  induction l as [|q l IH]; simpl; [done|].
  destruct (comparator q p <? 0)%float; [|done].
  rewrite IH. apply Permutation_swap.
Qed.

Lemma sort_patterns_perm l : sort_patterns l ≡ₚ l.
Proof.
  induction l as [|p l IH]; simpl; [done|].
  by rewrite sort_insert_perm, IH.
Qed.

Lemma sort_insert_sorted p l :
  Prim2SF (Pattern.compressionRatio p) ≠ S754_nan ->
  Forall (fun q => Prim2SF (Pattern.compressionRatio q) ≠ S754_nan) l ->
  StronglySorted (fun a b => (Pattern.compressionRatio b <=? Pattern.compressionRatio a)%float = true) l ->
  StronglySorted (fun a b => (Pattern.compressionRatio b <=? Pattern.compressionRatio a)%float = true)
                 (sort_insert p l).
Proof.
  intros Hp Hall Hs. induction Hs as [|q l Hs IH Hq]; simpl.
  - repeat constructor.
  - apply Forall_cons in Hall as [Hqn Hall].
    rewrite comparator_below_zero by done.
    destruct (Pattern.compressionRatio p <? Pattern.compressionRatio q)%float eqn:Hlt;
      rewrite ltb_spec in Hlt.
    + constructor; [by apply IH|].
      apply Forall_forall. intros x Hx. apply elem_of_sort_insert in Hx as [->|Hx].
      * rewrite leb_spec. by apply SFltb_leb.
      * rewrite Forall_forall in Hq. by apply Hq.
    + constructor; [by constructor|].
      apply Forall_cons. split.
      * rewrite leb_spec. by apply SFltb_false_leb.
      * apply Forall_forall. intros x Hx. rewrite Forall_forall in Hq, Hall.
        specialize (Hq x Hx). rewrite leb_spec in *.
        eapply SFleb_trans; [| | |exact Hq|]; try done; [by apply Hall|].
        by apply SFltb_false_leb.
Qed.

Lemma sort_patterns_sorted l :
  Forall (fun q => Prim2SF (Pattern.compressionRatio q) ≠ S754_nan) l ->
  StronglySorted (fun a b => (Pattern.compressionRatio b <=? Pattern.compressionRatio a)%float = true)
                 (sort_patterns l).
Proof.
  induction 1 as [|p l Hp Hall IH]; simpl; [constructor|].
  apply sort_insert_sorted; [done| |done].
  apply Forall_forall. intros q Hq. rewrite elem_of_sort_patterns in Hq.
  rewrite Forall_forall in Hall. by apply Hall.
Qed.

Lemma found_ratios_are_numbers Math_pow fuel data scale n found :
  len data < 2 ^ 21 ->
  detect_loop Math_pow fuel data scale n = Some found ->
  Forall (fun p => Prim2SF (Pattern.compressionRatio p) ≠ S754_nan) found.
Proof.
  intros HL Hrun. apply Forall_forall. intros p Hp.
  pose proof (detect_loop_selected _ _ _ _ _ _ _ Hrun Hp) as Hsel.
  pose proof (selected_total _ _ _ Hsel HL) as Htotal.
  destruct Hsel as (_ & _ & _ & _ & _ & ->). by apply ratio_is_a_number.
Qed.

Section Ranking.

Variable Math_pow : float -> float -> float.

(** X21.  The pattern [encode] uses is the one with the highest estimate:
    for an input of fewer than 2^21 samples, the ratio, scale and structure
    of a success result are those of a pattern the scale loop found, and no
    found pattern has a higher ratio.  The estimates are numbers, never
    NaN, so the comparator of the sort is consistent. *)
Theorem best_pattern_has_highest_ratio fuel data found r :
  len data < 2 ^ 21 ->
  detect_loop Math_pow fuel data 1 8 = Some found ->
  encode Math_pow fuel data = Some r ->
  Result.success r = true ->
  (∃ best, best ∈ found
           ∧ Result.compressionRatio r = Pattern.compressionRatio best
           ∧ Result.goldenRatioScale r = Some (Pattern.scale best)
           ∧ Result.encoded r = Some (createEncodedStructure data best))
  ∧ ∀ p, p ∈ found ->
      (Pattern.compressionRatio p <=? Result.compressionRatio r)%float = true.
Proof.
  intros HL Hrun. unfold encode, detectFractalPatterns. rewrite Hrun. simpl.
  pose proof (found_ratios_are_numbers _ _ _ _ _ _ HL Hrun) as Hnum.
  pose proof (sort_patterns_top found Hnum) as Htop.
  destruct (sort_patterns found) as [|best rest] eqn:Hsort; [by intros [= <-]|].
  intros [= <-] _. simpl. split; [|exact Htop].
  exists best. split_and!; try done.
  rewrite <- elem_of_sort_patterns, Hsort. left.
Qed.

(** X22.  For an input of fewer than 2^21 samples [detectFractalPatterns]
    returns the patterns the scale loop found, each once, in non-increasing
    order of their estimates. *)
Theorem detected_patterns_are_ranked fuel data found :
  len data < 2 ^ 21 ->
  detect_loop Math_pow fuel data 1 8 = Some found ->
  ∃ ranked,
    detectFractalPatterns Math_pow fuel data = Some ranked
    ∧ ranked ≡ₚ found
    ∧ StronglySorted
        (fun a b => (Pattern.compressionRatio b <=? Pattern.compressionRatio a)%float = true)
        ranked.
Proof.
  intros HL Hrun. exists (sort_patterns found). split_and!.
  - unfold detectFractalPatterns. by rewrite Hrun.
  - apply sort_patterns_perm.
  - apply sort_patterns_sorted. by eapply found_ratios_are_numbers.
Qed.

End Ranking.

(** ** The properties on the examples *)

Lemma square8_encode : encode pow_repeated 9 square8 = Some square8_result.
Proof. vm_compute. reflexivity. Qed.

Lemma square8_repeats ref m :
  ref ∈ Structure.references square8_structure ->
  Structure.masterSegments square8_structure !! Z.to_nat (Reference.masterIndex ref) = Some m ->
  slice square8 (Reference.position ref) (Reference.position ref + len (Master.data m))
  = Master.data m.
Proof.
  intros Hin. apply list_elem_of_In in Hin. simpl in Hin.
  destruct Hin as [<-|[<-|[<-|[]]]]; simpl; intros [= <-]; reflexivity.
Qed.

Lemma ramp8_numbers : Forall is_number ramp8.
Proof. repeat constructor. Qed.

Lemma square8_numbers : Forall is_number square8.
Proof. repeat constructor. Qed.

(** Witness of X1: the ramp at segment size 4, step 2. *)
Lemma segments_are_strided_windows_witness :
  (∀ k : nat, (k < length ramp8_segments)%nat ↔ Z.of_nat k * 2 + 4 <= len ramp8)
  ∧ (∀ (k : nat) seg, ramp8_segments !! k = Some seg ->
       Segment.position seg = Z.of_nat k * 2
       ∧ Segment.data seg = slice ramp8 (Z.of_nat k * 2) (Z.of_nat k * 2 + 4)
       ∧ len (Segment.data seg) = 4).
Proof.
  apply (segments_are_strided_windows 9 ramp8 4 2 ramp8_segments);
    [vm_compute; reflexivity|vm_compute; reflexivity|lia|lia].
Defined.

(** Witness of X4 on the ramp. *)
Lemma masters_are_input_windows_witness :
  4 <= Header.segmentSize (Structure.header ramp8_structure)
  ∧ Header.originalLength (Structure.header ramp8_structure) = len ramp8
  ∧ StronglySorted (fun a b => Master.position a < Master.position b)
                   (Structure.masterSegments ramp8_structure)
  ∧ ∀ m, m ∈ Structure.masterSegments ramp8_structure ->
      0 <= Master.position m
      ∧ Master.position m + Header.segmentSize (Structure.header ramp8_structure) <= len ramp8
      ∧ Master.data m
        = slice ramp8 (Master.position m)
            (Master.position m + Header.segmentSize (Structure.header ramp8_structure)).
Proof.
  apply (masters_are_input_windows pow_repeated 9 ramp8 ramp8_result ramp8_structure
           ramp8_encode eq_refl eq_refl).
Defined.

(** Witness of X5: the second reference of the ramp. *)
Lemma references_copy_earlier_windows_witness :
  ∃ m, 0 <= 0
       ∧ Structure.masterSegments ramp8_structure !! Z.to_nat 0 = Some m
       ∧ Master.position m < 4
       ∧ 4 + Header.segmentSize (Structure.header ramp8_structure) <= len ramp8
       ∧ 1%float
         = calculateCorrelation (Master.data m)
             (slice ramp8 4 (4 + Header.segmentSize (Structure.header ramp8_structure)))
       ∧ (0.99 <? 1)%float = true.
Proof.
  apply (references_copy_earlier_windows pow_repeated 9 ramp8 ramp8_result ramp8_structure
           (Reference.mk 0 4 1%float) ramp8_encode eq_refl eq_refl).
  apply list_elem_of_In. simpl. tauto.
Defined.

(** Witness of X6 on the ramp. *)
Lemma residual_is_the_unmarked_rest_witness :
  StronglySorted (fun a b => Residual.position a < Residual.position b)
                 (Structure.residual ramp8_structure)
  ∧ ∀ res, res ∈ Structure.residual ramp8_structure ↔
      0 <= Residual.position res
      ∧ ramp8 !! Z.to_nat (Residual.position res) = Some (Residual.value res)
      ∧ (∀ m, m ∈ Structure.masterSegments ramp8_structure ->
              Master.position m ≠ Residual.position res)
      ∧ (∀ ref, ref ∈ Structure.references ramp8_structure ->
                Reference.position ref ≠ Residual.position res).
Proof.
  apply (residual_is_the_unmarked_rest pow_repeated 9 ramp8 ramp8_result ramp8_structure
           ramp8_encode eq_refl eq_refl).
Defined.

(** Witness of X7 on the ramp's result. *)
Lemma slot_unset_iff_unreachable_witness :
  ∃ out, decode ramp8_result = Some out
         ∧ len out = Header.originalLength (Structure.header ramp8_structure)
         ∧ ∀ o, 0 <= o < Header.originalLength (Structure.header ramp8_structure) ->
             (out !! Z.to_nat o = Some None ↔ ¬ reachable ramp8_structure o).
Proof.
  apply (slot_unset_iff_unreachable ramp8_result ramp8_structure eq_refl eq_refl).
  simpl. lia.
Defined.

(** Witness of X8 on the ramp. *)
Lemma decoded_slots_hold_input_samples_witness :
  ∃ out, decode ramp8_result = Some out
    ∧ len out = len ramp8
    ∧ ∀ o, 0 <= o < len ramp8 ->
        ∃ v o', out !! Z.to_nat o = Some (Some v)
                ∧ 0 <= o' <= o ∧ ramp8 !! Z.to_nat o' = Some v.
Proof.
  apply (decoded_slots_hold_input_samples pow_repeated 9 ramp8 ramp8_result
           ramp8_encode eq_refl).
Defined.

(** Witness of X9: offset 2 of the ramp, where the second master starts
    and the first reference too. *)
Lemma decode_restores_outside_reference_starts_witness :
  ∃ out v, decode ramp8_result = Some out
           ∧ ramp8 !! Z.to_nat 2 = Some v
           ∧ out !! Z.to_nat 2 = Some (Some v).
Proof.
  apply (decode_restores_outside_reference_starts pow_repeated 9 ramp8 ramp8_result
           ramp8_structure 2 ramp8_encode eq_refl eq_refl).
  - unfold len. simpl. lia.
  - left. exists (Master.mk 2 [2; 3; 4; 5]%float). split; [|reflexivity].
    apply list_elem_of_In. simpl. tauto.
Defined.

(** Witness of X10 on the samples of period 2. *)
Lemma exact_repeats_decode_exactly_witness :
  decode square8_result = Some (map Some square8).
Proof.
  apply (exact_repeats_decode_exactly pow_repeated 9 square8 square8_result
           square8_structure square8_encode eq_refl eq_refl square8_repeats).
Defined.

(** Witness of X11 on the ramp: 8 samples, 140 units. *)
Lemma encoded_size_exceeds_input_witness :
  8 * Result.originalSize ramp8_result + 44 <= Result.compressedSize ramp8_result.
Proof.
  apply (encoded_size_exceeds_input pow_repeated 9 ramp8 ramp8_result ramp8_encode eq_refl).
Defined.

(** Witness of X12: five samples. *)
Lemma short_input_is_refused_witness :
  encode pow_repeated 6 [1; 2; 3; 4; 5]%float
  = Some (Result.mk false (Some "No suitable fractal patterns found"%string) None
                    (len [1; 2; 3; 4; 5]%float) (len [1; 2; 3; 4; 5]%float) 0%float None None).
Proof.
  apply (short_input_is_refused pow_repeated 6 [1; 2; 3; 4; 5]%float).
  - unfold len. simpl. lia.
  - simpl. lia.
Defined.

(** Witness of X13 on the ramp. *)
Lemma encode_terminates_witness :
  ∃ r, ∀ fuel, (length ramp8 < fuel)%nat -> encode pow_repeated fuel ramp8 = Some r.
Proof.
  apply (encode_terminates pow_repeated ramp8). unfold len. simpl. lia.
Defined.

(** Witness of X14 on the ramp. *)
Lemma success_result_fields_witness :
  ∃ structure scale count segments,
    Result.encoded ramp8_result = Some structure
    ∧ Result.message ramp8_result = None
    ∧ Result.goldenRatioScale ramp8_result = Some scale
    ∧ Result.patterns ramp8_result = Some count
    ∧ 1 <= scale <= 8
    ∧ 1 <= count <= 8
    ∧ Header.scale (Structure.header structure) = scale
    ∧ Math_floor (Z2F (len ramp8) * pow_repeated PHI_INV (Z2F scale))%float
      = Int (Header.segmentSize (Structure.header structure))
    ∧ segmentData 9 ramp8 (Header.segmentSize (Structure.header structure)) = Some segments
    ∧ Result.compressionRatio ramp8_result
      = calculateCompressionRatio (findSimilarSegments segments)
          (Header.segmentSize (Structure.header structure))
    ∧ Result.originalSize ramp8_result = len ramp8
    ∧ Result.compressedSize ramp8_result = calculateEncodedSize structure.
Proof.
  apply (success_result_fields pow_repeated 9 ramp8 ramp8_result ramp8_encode eq_refl).
Defined.

(** Witness of X15: ten terms. *)
Lemma fibonacci_length_witness : len (fibonacci 10) = Z.max 10 0.
Proof. apply (fibonacci_length 10). lia. Defined.



(** Witness of X18 on the ramp, with an engine that refuses the spread
    call. *)
Lemma exact_reconstruction_has_no_error_witness :
  calculateMSE ramp8 (map Some ramp8) = 0%float
  ∧ calculatePSNR (fun _ => None) (fun x => x) ramp8 (map Some ramp8) = Some infinity.
Proof.
  apply (exact_reconstruction_has_no_error (fun _ => None) (fun x => x) ramp8).
  - done.
  - unfold len. simpl. lia.
  - exact ramp8_numbers.
Defined.

(** Witness of X20 on the samples of period 2. *)
Lemma exact_repeats_have_zero_error_witness :
  ∃ decoded, decode square8_result = Some decoded
             ∧ calculateMSE square8 decoded = 0%float
             ∧ calculatePSNR (fun _ => None) (fun x => x) square8 decoded = Some infinity.
Proof.
  apply (exact_repeats_have_zero_error pow_repeated (fun _ => None) (fun x => x) 9 square8
           square8_result square8_structure square8_encode eq_refl eq_refl square8_repeats).
  - unfold len. simpl. lia.
  - exact square8_numbers.
Defined.

Lemma ramp52_loop : detect_loop pow_repeated 53 ramp52 1 8 = Some ramp52_found.
Proof. vm_compute. reflexivity. Qed.

Lemma ramp52_encode : encode pow_repeated 53 ramp52 = Some ramp52_result.
Proof. vm_compute. reflexivity. Qed.

(** Witness of X21 on the ramp of 52 samples, where the second scale
    wins. *)
Lemma best_pattern_has_highest_ratio_witness :
  (∃ best, best ∈ ramp52_found
           ∧ Result.compressionRatio ramp52_result = Pattern.compressionRatio best
           ∧ Result.goldenRatioScale ramp52_result = Some (Pattern.scale best)
           ∧ Result.encoded ramp52_result = Some (createEncodedStructure ramp52 best))
  ∧ ∀ p, p ∈ ramp52_found ->
      (Pattern.compressionRatio p <=? Result.compressionRatio ramp52_result)%float = true.
Proof.
  apply (best_pattern_has_highest_ratio pow_repeated 53 ramp52 ramp52_found ramp52_result).
  - vm_compute. reflexivity.
  - exact ramp52_loop.
  - exact ramp52_encode.
  - reflexivity.
Defined.

(** Witness of X22 on the ramp of 52 samples. *)
Lemma detected_patterns_are_ranked_witness :
  ∃ ranked,
    detectFractalPatterns pow_repeated 53 ramp52 = Some ranked
    ∧ ranked ≡ₚ ramp52_found
    ∧ StronglySorted
        (fun a b => (Pattern.compressionRatio b <=? Pattern.compressionRatio a)%float = true)
        ranked.
Proof.
  apply (detected_patterns_are_ranked pow_repeated 53 ramp52 ramp52_found).
  - vm_compute. reflexivity.
  - exact ramp52_loop.
Defined.

(** On that ramp the loop finds the first scale first, and the sort puts
    the second scale in front. *)
Lemma ramp52_ranking :
  map Pattern.scale ramp52_found = [1; 2; 3; 4; 5]
  ∧ Result.goldenRatioScale ramp52_result = Some 2.
Proof. vm_compute. done. Qed.
